(** * Google-Drive-Sync: the folder comparison and the folder copy actions

    A shallow embedding of the two Pipedream actions of the repository,

      - [compare_folders/entry.js]     (module [CompareFolders]) and
      - [execute_folder_copy/entry.js] (module [ExecuteFolderCopy]),

    followed by the properties of the specification that were checked
    against them.  The [run] method of the first action is in the module
    [CompareRun]; the second component that [execute_folder_copy/entry.js]
    holds, the configuration of a synchronisation, is in the module
    [ConfigureFolderSync].

    JavaScript values are modelled as follows: strings are
    [string], a field that may be [undefined] is an [option], arrays are
    [list]s (push = append at the end), a [Map] is an insertion-ordered
    association list with unique keys, integers are [Z] or [nat]. *)

From Stdlib Require Import List String Ascii ZArith Lia Bool Arith Permutation Sorted.
From Stdlib Require Decimal DecimalString DecimalZ.
Import ListNotations.
Open Scope string_scope.
Open Scope list_scope.

(** ** JavaScript runtime pieces used by the two actions *)

Module Js.

(** Truthiness of a value that is [undefined] or a string. *)
Definition truthy (v : option string) : bool :=
  match v with
  | None => false
  | Some s => negb (String.eqb s "")
  end.

(** [Map] with string keys: the entries in insertion order.  [set] on a
    key that is present replaces the value and keeps the position. *)
Definition Map (V : Type) : Type := list (string * V).

Fixpoint set {V} (k : string) (v : V) (m : Map V) : Map V :=
  match m with
  | [] => [(k, v)]
  | (k', v') :: m' =>
      if String.eqb k' k then (k', v) :: m' else (k', v') :: set k v m'
  end.

Fixpoint get {V} (k : string) (m : Map V) : option V :=
  match m with
  | [] => None
  | (k', v') :: m' => if String.eqb k' k then Some v' else get k m'
  end.

Definition has {V} (k : string) (m : Map V) : bool :=
  match get k m with Some _ => true | None => false end.

(** [new Map(entries)]: the entries are set one after the other. *)
Definition Map_of {V} (entries : list (string * V)) : Map V :=
  fold_left (fun m e => set (fst e) (snd e) m) entries [].

(** [Array.prototype.sort(cmp)]: the sort is stable (ECMAScript 2019), so
    for a consistent comparator its result is the one of a stable
    insertion sort: an element moves in front of those it is strictly
    smaller than, and stays behind those it ties with. *)
Fixpoint sort_insert {A} (cmp : A -> A -> Z) (x : A) (l : list A) : list A :=
  match l with
  | [] => [x]
  | y :: l' =>
      if (cmp x y <=? 0)%Z then x :: y :: l' else y :: sort_insert cmp x l'
  end.

Fixpoint sort {A} (cmp : A -> A -> Z) (l : list A) : list A :=
  match l with
  | [] => []
  | x :: l' => sort_insert cmp x (sort cmp l')
  end.

(** [arr.slice(i, j)] for [0 <= i <= j]. *)
Definition slice {A} (i j : nat) (l : list A) : list A :=
  firstn (j - i) (skipn i l).

(** A relational comparison [a > b] of two numbers, [None] being [NaN]. *)
Definition num_gt (a b : option Z) : bool :=
  match a, b with
  | Some x, Some y => (y <? x)%Z
  | _, _ => false
  end.

(** [s.includes(c)], [s.split(c)] and [s.lastIndexOf(c)] for a separator
    [c] of one character; [lastIndexOf] is [-1] when [c] does not occur. *)
Fixpoint includes (c : ascii) (s : string) : bool :=
  match s with
  | EmptyString => false
  | String a s' => Ascii.eqb a c || includes c s'
  end.

Fixpoint split (c : ascii) (s : string) : list string :=
  match s with
  | EmptyString => [EmptyString]
  | String a s' =>
      if Ascii.eqb a c then EmptyString :: split c s'
      else match split c s' with
           | [] => [String a EmptyString]
           | h :: t => String a h :: t
           end
  end.

Fixpoint lastIndexOf (c : ascii) (s : string) : Z :=
  match s with
  | EmptyString => (-1)%Z
  | String a s' =>
      let i := lastIndexOf c s' in
      if (0 <=? i)%Z then (i + 1)%Z
      else if Ascii.eqb a c then 0%Z else (-1)%Z
  end.

(** [s.substring(0, j)]; a negative [j] counts as 0. *)
Definition substring0 (j : Z) (s : string) : string :=
  String.substring 0 (Z.to_nat j) s.

(** [arr.pop()] on a fresh array, as a value: the last element. *)
Definition pop (l : list string) : option string :=
  match l with
  | [] => None
  | _ => Some (List.last l EmptyString)
  end.

(** The decimal text of an integer, as a template string prints it. *)
Definition Number_toString (n : Z) : string :=
  DecimalString.NilZero.string_of_int (Z.to_int n).

(** [Math.round(a / b)] for integers [a] and [b > 0]: halves go up. *)
Definition Math_round_div (a b : Z) : Z := ((2 * a + b) / (2 * b))%Z.

End Js.

(** ** The Google Drive app of Pipedream, as the two actions use it *)

Module GoogleDrive.

(** One item of a [files.list] response, with the fields the action asks
    for.  [size], [modifiedTime] and [md5Checksum] are strings when the
    store sends them and [undefined] otherwise. *)
Record DriveFile : Type := mkDriveFile {
  file_id : string;
  file_name : string;
  file_mimeType : string;
  file_size : option string;
  file_modifiedTime : option string;
  file_md5Checksum : option string
}.

Definition folderMimeType : string := "application/vnd.google-apps.folder".

(** The search queries of the actions are conjunctions of these clauses. *)
Inductive Clause : Type :=
| in_parents (folderId : string)   (* '<folderId>' in parents *)
| mimeType_is_folder               (* mimeType = '<folderMimeType>' *)
| mimeType_not_folder              (* mimeType != '<folderMimeType>' *)
| not_trashed                      (* trashed = false *)
| name_among (names : list string) (* (name = '<n1>' or name = '<n2>' ...) *).

Definition Query : Type := list Clause.

(** [name.replace(/'/g, "\\'")] *)
Fixpoint escape_quotes (s : string) : string :=
  match s with
  | EmptyString => EmptyString
  | String c s' =>
      if Ascii.eqb c "'"%char
      then String "\"%char (String "'"%char (escape_quotes s'))
      else String c (escape_quotes s')
  end.

(** The text of a query, as the template strings of the actions build it. *)
Definition render_clause (c : Clause) : string :=
  match c with
  | in_parents folderId => "'" ++ folderId ++ "' in parents"
  | mimeType_is_folder => "mimeType = '" ++ folderMimeType ++ "'"
  | mimeType_not_folder => "mimeType != '" ++ folderMimeType ++ "'"
  | not_trashed => "trashed = false"
  | name_among names =>
      "(" ++ String.concat " or "
               (map (fun n => ("name = '" ++ escape_quotes n ++ "'")%string) names)
          ++ ")"
  end.

Definition render (q : Query) : string :=
  String.concat " and " (map render_clause q).

(** The options of [listFilesInPage]. *)
Record ListOpts : Type := mkListOpts {
  q : Query;
  fields : string;
  pageSize : option nat
}.

Record Response : Type := mkResponse {
  files : option (list DriveFile);
  nextPageToken : option string
}.

(** What a request gives: its value, or the message of the error it
    throws. *)
Inductive Result (A : Type) : Type :=
| ok (a : A)
| thrown (message : string).
Arguments ok {A} a.
Arguments thrown {A} message.

(** The methods of the app the copy action calls, and the clock, over a
    state [World] of the store and of the time.  [createFolder] and
    [copyFile] give the [id] of the new item. *)
Record RemoteStore (World : Type) : Type := mkRemoteStore {
  listFilesInPage : option string -> ListOpts -> World -> Result Response * World;
  createFolder : string -> string -> World -> Result string * World;
  copyFile : string -> string -> string -> World -> Result string * World;
  deleteFile : string -> World -> Result unit * World;
  Date_now : World -> Z * World;
  setTimeout : Z -> World -> World
}.
Arguments listFilesInPage {World} _ _ _ _.
Arguments createFolder {World} _ _ _ _.
Arguments copyFile {World} _ _ _ _ _.
Arguments deleteFile {World} _ _ _.
Arguments Date_now {World} _ _.
Arguments setTimeout {World} _ _ _.

End GoogleDrive.

(** ** compare_folders/entry.js *)

Module CompareFolders.
Import GoogleDrive.

(** The [fileData] object built by [getAllFilesInFolder]. *)
Record Entry : Type := mkEntry {
  id : string;
  name : string;
  path : string;
  mimeType : string;
  size : option string;
  modifiedTime : option string;
  md5Checksum : option string;
  isFolder : bool
}.

(** What the store answers to the listing requests of one enumeration: a
    node is an item together with the responses to the requests
    ['id' in parents and trashed = false] made for it, the first one and
    those reached through [nextPageToken].  A response is its [files]
    array, or [None] when the request throws.  The responses of an item
    are only looked at when the item is a folder and the enumeration is
    recursive. *)
#[local] Unset Elimination Schemes.
Inductive RemoteNode : Type :=
| RNode (file : DriveFile)
        (firstPage : option (list RemoteNode))
        (nextPages : list (option (list RemoteNode))).
#[local] Set Elimination Schemes.

Definition node_file (n : RemoteNode) : DriveFile :=
  match n with RNode f _ _ => f end.

Definition joinPath (basePath name : string) : string :=
  if String.eqb basePath "" then name else basePath ++ "/" ++ name.

Definition fileData (basePath : string) (file : DriveFile) : Entry :=
  {| id := file_id file;
     name := file_name file;
     path := joinPath basePath (file_name file);
     mimeType := file_mimeType file;
     size := file_size file;
     modifiedTime := file_modifiedTime file;
     md5Checksum := file_md5Checksum file;
     isFolder := String.eqb (file_mimeType file) folderMimeType |}.

Section Loops.
(** The recursive call [this.getAllFilesInFolder(file.id, _, filePath)]. *)
Variable recurse : RemoteNode -> string -> option (list Entry).
Variable includeSubfolders : bool.
Variable basePath : string.

(** [for (const file of response.files || [])], threading the two
    arrays [folders] and [files]. *)
Fixpoint forLoop (children : list RemoteNode) (folders files : list Entry)
  : option (list Entry * list Entry) :=
  match children with
  | [] => Some (folders, files)
  | child :: rest =>
      let d := fileData basePath (node_file child) in
      if isFolder d then
        let folders := folders ++ [d] in
        if includeSubfolders then
          match recurse child (path d) with
          | None => None
          | Some subFiles => forLoop rest folders (files ++ subFiles)
          end
        else forLoop rest folders files
      else forLoop rest folders (files ++ [d])
  end.

(** [do { ... } while (pageToken)] over the successive responses, then
    [return [...folders, ...files]]. *)
Fixpoint pageLoop (pages : list (option (list RemoteNode)))
         (folders files : list Entry) : option (list Entry) :=
  match pages with
  | [] => Some (folders ++ files)
  | None :: _ => None
  | Some children :: more =>
      match forLoop children folders files with
      | None => None
      | Some (folders', files') => pageLoop more folders' files'
      end
  end.
End Loops.

(** [getAllFilesInFolder(folderId, includeSubfolders, basePath)], where
    [folder] holds the responses for [folderId].  [None] is a rejected
    promise (a listing request threw). *)
Fixpoint getAllFilesInFolder (folder : RemoteNode) (includeSubfolders : bool)
         (basePath : string) {struct folder} : option (list Entry) :=
  match folder with
  | RNode _ firstPage nextPages =>
      pageLoop (fun child p => getAllFilesInFolder child includeSubfolders p)
               includeSubfolders basePath (firstPage :: nextPages) [] []
  end.

Inductive Reason : Type :=
| newer_modification_time
| different_size
| different_content.

Record Modification : Type := mkModification {
  source : Entry;
  destination : Entry;
  reason : list Reason
}.

Record Comparison : Type := mkComparison {
  additions : list Entry;
  modifications : list Modification;
  deletions : list Entry;
  unchanged : list Entry
}.

Definition option_string_eqb (a b : option string) : bool :=
  match a, b with
  | None, None => true
  | Some x, Some y => String.eqb x y
  | _, _ => false
  end.

Section WithDate.
(** The time value of [new Date(s)] for a string [s], in milliseconds;
    [None] is an invalid date, whose time value is [NaN]. *)
Variable Date_parse : string -> option Z.

Definition newDate (v : option string) : option Z :=
  match v with
  | None => None
  | Some s => Date_parse s
  end.

(** The array [reasons] at the end of [isFileModified]. *)
Definition reasons (sourceFile destFile : Entry) (compareContent : bool)
  : list Reason :=
  (if Js.num_gt (newDate (modifiedTime sourceFile))
                (newDate (modifiedTime destFile))
   then [newer_modification_time] else [])
  ++ (if negb (option_string_eqb (size sourceFile) (size destFile))
      then [different_size] else [])
  ++ (if compareContent && Js.truthy (md5Checksum sourceFile)
         && Js.truthy (md5Checksum destFile)
      then if negb (option_string_eqb (md5Checksum sourceFile)
                                      (md5Checksum destFile))
           then [different_content] else []
      else []).

(** [isFileModified]: the reasons, or [None] for [false]. *)
Definition isFileModified (sourceFile destFile : Entry)
           (compareContent : bool) : option (list Reason) :=
  let rs := reasons sourceFile destFile compareContent in
  if (0 <? List.length rs)%nat then Some rs else None.

(** The body of [for (const [path, sourceFile] of sourceMap)]. *)
Definition classify (destMap : Js.Map Entry) (compareContent : bool)
           (c : Comparison) (kv : string * Entry) : Comparison :=
  let sourceFile := snd kv in
  match Js.get (fst kv) destMap with
  | None =>
      mkComparison (additions c ++ [sourceFile]) (modifications c)
                   (deletions c) (unchanged c)
  | Some destFile =>
      match isFileModified sourceFile destFile compareContent with
      | Some isModified =>
          mkComparison (additions c)
                       (modifications c
                        ++ [mkModification sourceFile destFile isModified])
                       (deletions c) (unchanged c)
      | None =>
          mkComparison (additions c) (modifications c) (deletions c)
                       (unchanged c ++ [sourceFile])
      end
  end.

(** The body of [for (const [path, destFile] of destMap)]. *)
Definition classifyDeletion (sourceMap : Js.Map Entry) (c : Comparison)
           (kv : string * Entry) : Comparison :=
  if negb (Js.has (fst kv) sourceMap)
  then mkComparison (additions c) (modifications c)
                    (deletions c ++ [snd kv]) (unchanged c)
  else c.

Definition compareFiles (sourceFiles destFiles : list Entry)
           (compareContent : bool) : Comparison :=
  let sourceMap :=
    fold_left (fun m file => Js.set (path file) file m) sourceFiles [] in
  let destMap :=
    fold_left (fun m file => Js.set (path file) file m) destFiles [] in
  let c := fold_left (classify destMap compareContent) sourceMap
                     (mkComparison [] [] [] []) in
  fold_left (classifyDeletion sourceMap) destMap c.
End WithDate.

Inductive SyncAction : Type :=
| create (file : Entry) (priority : Z)
| update (sourceFile destinationFile : Entry) (reason : list Reason)
         (priority : Z)
| delete (file : Entry) (priority : Z).

Definition priority (a : SyncAction) : Z :=
  match a with
  | create _ p => p
  | update _ _ _ p => p
  | delete _ p => p
  end.

(** The array [syncActions] after the three [forEach] loops. *)
Definition syncActions (comparison : Comparison) : list SyncAction :=
  map (fun file => create file (if isFolder file then 1 else 2)%Z)
      (additions comparison)
  ++ map (fun m => update (source m) (destination m) (reason m)
                          (if isFolder (source m) then 1 else 2)%Z)
         (modifications comparison)
  ++ map (fun file => delete file (if isFolder file then 3 else 2)%Z)
         (deletions comparison).

Definition generateSyncPlan (comparison : Comparison) : list SyncAction :=
  Js.sort (fun a b => (priority a - priority b)%Z) (syncActions comparison).

End CompareFolders.

(** ** compare_folders/entry.js: the method [run] *)

Module CompareRun.
Import GoogleDrive CompareFolders.

(** The props of the action. *)
Record Props : Type := mkProps {
  sourceFolderId : string;
  destinationFolderId : string;
  includeSubfolders : bool;
  compareContent : bool
}.

(** The object [stats] of [run]. *)
Inductive Statistics : Type :=
| stats (sourceFiles destinationFiles additions modifications deletions
         unchanged totalSyncActions : nat).

Inductive Metadata : Type :=
| metadataOf (sourceFolderId destinationFolderId : string)
             (includeSubfolders compareContent : bool)
             (comparisonTime : string).

(** The object [run] returns, with the last [$summary] it exports. *)
Record Output : Type := mkOutput {
  statistics : Statistics;
  comparison : Comparison;
  syncPlan : list SyncAction;
  metadata : Metadata;
  summary : string
}.

Section Action.
Variable Date_parse : string -> option Z.
Variable props : Props.

Definition summary_text (additions modifications deletions : nat) : string :=
  "Comparison complete: " ++ Js.Number_toString (Z.of_nat additions)
  ++ " additions, " ++ Js.Number_toString (Z.of_nat modifications)
  ++ " modifications, " ++ Js.Number_toString (Z.of_nat deletions)
  ++ " deletions".

(** [run], where [source] and [destination] hold the responses of the
    store for the two folders of the props and [comparisonTime] is the
    text of [new Date().toISOString()].  [None] is the error the [catch]
    throws, [Folder comparison failed: ...]: one of the two enumerations
    was rejected. *)
Definition run (source destination : RemoteNode) (comparisonTime : string)
  : option Output :=
  match getAllFilesInFolder source (includeSubfolders props) "",
        getAllFilesInFolder destination (includeSubfolders props) "" with
  | Some sourceFiles, Some destFiles =>
      let comparison :=
        compareFiles Date_parse sourceFiles destFiles (compareContent props) in
      let syncPlan := generateSyncPlan comparison in
      Some (mkOutput
              (stats (List.length sourceFiles) (List.length destFiles)
                     (List.length (additions comparison))
                     (List.length (modifications comparison))
                     (List.length (deletions comparison))
                     (List.length (unchanged comparison))
                     (List.length syncPlan))
              comparison
              syncPlan
              (metadataOf (sourceFolderId props) (destinationFolderId props)
                          (includeSubfolders props) (compareContent props)
                          comparisonTime)
              (summary_text (List.length (additions comparison))
                            (List.length (modifications comparison))
                            (List.length (deletions comparison))))
  | _, _ => None
  end.

End Action.

End CompareRun.


(** ** execute_folder_copy/entry.js *)

Module ExecuteFolderCopy.
Import Js GoogleDrive.

(** The props of the action ([this.sourceFolderId], ...). *)
Record Props : Type := mkProps {
  sourceFolderId : option string;
  sourceFileIds : option (list string);
  destinationFolderId : string;
  includeSubfolders : bool;
  conflictResolution : string;
  preserveStructure : bool;
  batchSize : nat;
  maxConcurrency : nat
}.

(** An element of the array [folders] of [createFolderStructureOptimized]. *)
Record FolderRecord : Type := mkFolderRecord {
  sourceId : string;
  destId : string;
  name : string;
  path : string
}.

(** An element of [results.createdFolders]: [{ name, id, path }]. *)
Inductive CreatedFolder : Type :=
| createdFolder (name id path : string).

(** What a copy task resolves to:
    [{ success: true, skipped: true, file }],
    [{ success: true, originalName, newName, originalId, newId, size,
       mimeType }], or
    [{ success: false, file, error, type: "file_copy_error" }]. *)
Inductive TaskValue : Type :=
| skipped_file (file : DriveFile)
| copied_file (originalName newName originalId newId : string)
              (size : option string) (mimeType : string)
| file_copy_error (file error : string).

Definition success (value : TaskValue) : bool :=
  match value with
  | file_copy_error _ _ => false
  | _ => true
  end.

Definition skipped (value : TaskValue) : bool :=
  match value with
  | skipped_file _ => true
  | _ => false
  end.

(** An element of the result of [Promise.allSettled]. *)
Inductive Settled : Type :=
| fulfilled (value : TaskValue)
| rejected (reason : string).

(** An element of [results.errors]: the reason of a rejected task, or
    [{ error, type: "batch_processing_error" }]. *)
Inductive ErrorRecord : Type :=
| rejection (reason : string)
| batch_processing_error (error : string).

(** The object [results] of [run]. *)
Record ExecutionResult : Type := mkExecutionResult {
  foldersCreated : nat;
  filesCopied : nat;
  errors : list ErrorRecord;
  copiedFiles : list TaskValue;
  createdFolders : list CreatedFolder
}.

(** A request made to the store, with its answer. *)
Inductive Call : Type :=
| called_listFilesInPage (pageToken : option string) (opts : ListOpts)
                         (answer : Result Response)
| called_createFolder (name parentId : string) (answer : Result string)
| called_copyFile (fileId name parent : string) (answer : Result string)
| called_deleteFile (fileId : string) (answer : Result unit).

Inductive Statistics : Type :=
| statistics (foldersCreated filesCopied errorsCount batchSize
              maxConcurrency : nat).

Inductive Details : Type :=
| details (copiedFiles : list TaskValue) (createdFolders : list CreatedFolder)
          (errors : list ErrorRecord).

Inductive PartialResults : Type :=
| partialResults (foldersCreated filesCopied errorsCount : nat).

(** The object [run] returns: [run_success] is [{ success: true, ... }],
    [run_failure] is [{ success: false, error, partialResults, duration,
    timestamp }]; [duration] is in seconds, [timestamp] is the time value
    of [new Date()]. *)
Inductive RunResult : Type :=
| run_success (summary : string) (duration : Z) (stats : Statistics)
              (detail : Details) (timestamp : Z)
| run_failure (error : string) (partial : PartialResults) (duration : Z)
              (timestamp : Z).

(** How a piece of the action ends: with a value, with a thrown error (its
    message), or not at all (the fuel of a loop ran out). *)
Inductive Outcome (A : Type) : Type :=
| returned (a : A)
| threw (message : string)
| diverged.
Arguments returned {A} a.
Arguments threw {A} message.
Arguments diverged {A}.

Section Action.
Context {World : Type}.
Variable store : RemoteStore World.
Variable props : Props.

(** The state a run works on: the store and the clock, the requests made
    so far (kept to state what the action asks of the store), the objects
    [results] and [folderCache] of [run], which the methods share, and the
    counter [totalProcessed] of [copyFilesOptimized], which its batch
    processor updates. *)
Record State : Type := mkState {
  world : World;
  calls : list Call;
  results : ExecutionResult;
  folderCache : Map string;
  totalProcessed : nat
}.

Definition M (A : Type) : Type := State -> Outcome A * State.

Definition ret {A} (a : A) : M A := fun st => (returned a, st).

Definition bind {A B} (m : M A) (k : A -> M B) : M B :=
  fun st =>
    match m st with
    | (returned a, st') => k a st'
    | (threw message, st') => (threw message, st')
    | (diverged, st') => (diverged, st')
    end.

Definition throw {A} (message : string) : M A := fun st => (threw message, st).

(** [try { m } catch (error) { handler(error.message) }] *)
Definition try_catch {A} (m : M A) (handler : string -> M A) : M A :=
  fun st =>
    match m st with
    | (threw message, st') => handler message st'
    | r => r
    end.

Notation "x <- m ;; k" := (bind m (fun x => k))
  (at level 61, m at next level, right associativity).
Notation "m ;;; k" := (bind m (fun _ => k))
  (at level 61, right associativity).

(** A request: the store answers, the answer is recorded, an error is
    thrown on. *)
Definition request {A} (op : World -> Result A * World)
           (record : Result A -> Call) : M A :=
  fun st =>
    let (answer, w) := op (world st) in
    let st' := mkState w (calls st ++ [record answer]) (results st)
                       (folderCache st) (totalProcessed st) in
    match answer with
    | ok a => (returned a, st')
    | thrown message => (threw message, st')
    end.

Definition list_files (pageToken : option string) (opts : ListOpts)
  : M Response :=
  request (listFilesInPage store pageToken opts)
          (called_listFilesInPage pageToken opts).

Definition create_folder (name parentId : string) : M string :=
  request (createFolder store name parentId) (called_createFolder name parentId).

Definition copy_file (fileId name parent : string) : M string :=
  request (copyFile store fileId name parent)
          (called_copyFile fileId name parent).

Definition delete_file (fileId : string) : M unit :=
  request (deleteFile store fileId) (called_deleteFile fileId).

Definition now : M Z :=
  fun st =>
    let (t, w) := Date_now store (world st) in
    (returned t, mkState w (calls st) (results st) (folderCache st)
                         (totalProcessed st)).

Definition delay (ms : Z) : M unit :=
  fun st =>
    (returned tt, mkState (setTimeout store ms (world st)) (calls st)
                          (results st) (folderCache st) (totalProcessed st)).

Definition update_results (f : ExecutionResult -> ExecutionResult) : M unit :=
  fun st =>
    (returned tt, mkState (world st) (calls st) (f (results st))
                          (folderCache st) (totalProcessed st)).

Definition get_results : M ExecutionResult :=
  fun st => (returned (results st), st).

(** [for (let i = 0; i < items.length; i += batchSize)] of
    [processInBatches], from index [i] on, [out] being its array
    [results]. *)
Fixpoint processInBatches_from {T R} (fuel : nat) (items : list T)
         (batchSize : nat) (processor : list T -> nat -> M (list R))
         (i : nat) (out : list R) {struct fuel} : M (list R) :=
  if (i <? List.length items)%nat then
    match fuel with
    | O => fun st => (diverged, st)
    | S fuel' =>
        batchResults <- processor (slice i (i + batchSize) items) i ;;
        (if (i + batchSize <? List.length items)%nat
         then delay 100 else ret tt) ;;;
        processInBatches_from fuel' items batchSize processor
                              (i + batchSize) (out ++ batchResults)
    end
  else ret out.

Definition processInBatches {T R} (fuel : nat) (items : list T)
           (batchSize : nat) (processor : list T -> nat -> M (list R))
  : M (list R) :=
  processInBatches_from fuel items batchSize processor 0 [].

(** [limitConcurrency], on tasks that have been started already: their
    settled results are gathered group by group. *)
Fixpoint limitConcurrency_from (fuel : nat) (tasks : list Settled)
         (maxConcurrency : nat) (i : nat) (out : list Settled)
         {struct fuel} : M (list Settled) :=
  if (i <? List.length tasks)%nat then
    match fuel with
    | O => fun st => (diverged, st)
    | S fuel' =>
        limitConcurrency_from fuel' tasks maxConcurrency (i + maxConcurrency)
          (out ++ slice i (i + maxConcurrency) tasks)
    end
  else ret out.

Definition limitConcurrency (fuel : nat) (tasks : list Settled)
           (maxConcurrency : nat) : M (list Settled) :=
  limitConcurrency_from fuel tasks maxConcurrency 0 [].

Definition joinPath (folderPath name : string) : string :=
  if String.eqb folderPath "" then name else folderPath ++ "/" ++ name.

Definition name_id_map (files : option (list DriveFile)) : Map string :=
  Map_of (map (fun f => (file_name f, file_id f))
              (match files with Some l => l | None => [] end)).

(** A request whose error is kept as a value, for a [catch] that is
    written further out. *)
Definition attempt {A} (m : M A) : M (Result A) :=
  try_catch (a <- m ;; ret (ok a)) (fun message => ret (thrown message)).

Definition cache_set (k v : string) : M unit :=
  fun st =>
    (returned tt, mkState (world st) (calls st) (results st)
                          (set k v (folderCache st)) (totalProcessed st)).

Section FolderLoop.
(** The recursive call of [createFolderStructureOptimized]. *)
Variable recurse : option string -> string -> string -> M (list FolderRecord).
Variable destParentId : string.
Variable folderPath : string.
Variable existingFolderMap : Map string.

(** [for (const folder of subfolders.files || [])].  The loop stands in
    the [try] of the function: when a request of the loop throws, the
    [catch] logs to the console and the function returns [folders] as it
    is at that point. *)
Fixpoint folderLoop (subfolders : list DriveFile) (folders : list FolderRecord)
  : M (list FolderRecord) :=
  match subfolders with
  | [] => ret folders
  | folder :: rest =>
      let currentPath := joinPath folderPath (file_name folder) in
      found <- attempt
                 (match get (file_name folder) existingFolderMap with
                  | Some existingId => ret existingId
                  | None => create_folder (file_name folder) destParentId
                  end) ;;
      match found with
      | thrown _ => ret folders
      | ok destFolderId =>
          cache_set (file_id folder) destFolderId ;;;
          let folders :=
            folders ++ [mkFolderRecord (file_id folder) destFolderId
                                       (file_name folder) currentPath] in
          if includeSubfolders props then
            sub <- attempt (recurse (Some (file_id folder)) destFolderId
                                    currentPath) ;;
            match sub with
            | thrown _ => ret folders
            | ok subFolders => folderLoop rest (folders ++ subFolders)
            end
          else folderLoop rest folders
      end
  end.
End FolderLoop.

Definition subfolders_opts (sourceId : string) : ListOpts :=
  mkListOpts [in_parents sourceId; mimeType_is_folder; not_trashed]
             "files(id,name,parents)" (Some 100%nat).

Definition existingFolders_opts (destParentId : string) : ListOpts :=
  mkListOpts [in_parents destParentId; mimeType_is_folder; not_trashed]
             "files(id,name)" (Some 100%nat).

Fixpoint createFolderStructureOptimized (fuel : nat) (sourceId : option string)
         (destParentId : string) (folderPath : string) {struct fuel}
  : M (list FolderRecord) :=
  match sourceId with
  | None => ret []
  | Some sourceId =>
      if String.eqb sourceId "" then ret [] else
      match fuel with
      | O => fun st => (diverged, st)
      | S fuel' =>
          listed <- attempt
                      (subfolders <- list_files None (subfolders_opts sourceId) ;;
                       existingFolders <-
                         list_files None (existingFolders_opts destParentId) ;;
                       ret (subfolders, existingFolders)) ;;
          match listed with
          | thrown _ => ret []
          | ok (subfolders, existingFolders) =>
              folderLoop (createFolderStructureOptimized fuel')
                         destParentId folderPath
                         (name_id_map (files existingFolders))
                         (match files subfolders with
                          | Some l => l
                          | None => []
                          end)
                         []
          end
      end
  end.

Definition existingFiles_opts (destFolderId : string)
           (fileNames : list string) : ListOpts :=
  mkListOpts [name_among (slice 0 10 fileNames); in_parents destFolderId;
              not_trashed]
             "files(id,name)" (Some 100%nat).

Definition getExistingFiles (destFolderId : string) (fileNames : list string)
  : M (Map string) :=
  if (List.length fileNames =? 0)%nat then ret []
  else
    try_catch
      (existingFiles <-
         list_files None (existingFiles_opts destFolderId fileNames) ;;
       ret (name_id_map (files existingFiles)))
      (fun _ => ret []).

(** The name the policy [rename] gives to a copy. *)
Definition renamed (fileName : string) (timestamp : Z) : string :=
  let extension :=
    if includes "." fileName
    then match pop (split "." fileName) with Some e => e | None => "" end
    else "" in
  let baseName :=
    if includes "." fileName
    then substring0 (lastIndexOf "." fileName) fileName
    else fileName in
  if negb (String.eqb extension "")
  then baseName ++ "_copy_" ++ Number_toString timestamp ++ "." ++ extension
  else baseName ++ "_copy_" ++ Number_toString timestamp.

(** The name to copy under, or the value of an early [return]. *)
Definition resolveName (existingFileMap : Map string) (file : DriveFile)
  : M (TaskValue + string) :=
  let fileName := file_name file in
  match get fileName existingFileMap with
  | Some existingId =>
      if String.eqb (conflictResolution props) "skip" then
        ret (inl (skipped_file file))
      else if String.eqb (conflictResolution props) "rename" then
        timestamp <- now ;;
        ret (inr (renamed fileName timestamp))
      else if String.eqb (conflictResolution props) "replace" then
        delete_file existingId ;;;
        ret (inr fileName)
      else ret (inr fileName)
  | None => ret (inr fileName)
  end.

(** One task of [copyFileBatch]: the body of [files.map(async (file) => ...)].
    Its [try]/[catch] makes it resolve always. *)
Definition copyTask (destFolderId : string) (existingFileMap : Map string)
           (file : DriveFile) : M Settled :=
  value <- try_catch
             (resolved <- resolveName existingFileMap file ;;
              match resolved with
              | inl early => ret early
              | inr fileName =>
                  newId <- copy_file (file_id file) fileName destFolderId ;;
                  ret (copied_file (file_name file) fileName (file_id file)
                                   newId (file_size file) (file_mimeType file))
              end)
             (fun message => ret (file_copy_error (file_name file) message)) ;;
  ret (fulfilled value).

Fixpoint copyTasks (destFolderId : string) (existingFileMap : Map string)
         (files : list DriveFile) : M (list Settled) :=
  match files with
  | [] => ret []
  | file :: rest =>
      r <- copyTask destFolderId existingFileMap file ;;
      rs <- copyTasks destFolderId existingFileMap rest ;;
      ret (r :: rs)
  end.

(** [copyFileBatch]: [files.map] starts the tasks of the batch, which are
    run here one after the other in the order of the batch; then
    [limitConcurrency] gathers their results. *)
Definition copyFileBatch (fuel : nat) (files : list DriveFile)
           (destFolderId : string) (existingFileMap : Map string)
  : M (list Settled) :=
  tasks <- copyTasks destFolderId existingFileMap files ;;
  limitConcurrency fuel tasks (maxConcurrency props).

(** The body of [for (const result of copyResults)] in the batch processor
    of [copyFilesOptimized].  A fulfilled result has an object as its
    value, so it takes the first branch of the outer [if], whatever its
    [success]; the [else if] is reached by a rejected result only, for
    which [result.reason || result.value] is the reason. *)
Definition processResult (processedResults : list TaskValue)
           (result : Settled) : M (list TaskValue) :=
  match result with
  | fulfilled value =>
      if success value && negb (skipped value) then
        update_results (fun r =>
          mkExecutionResult (foldersCreated r) (filesCopied r + 1) (errors r)
                            (copiedFiles r ++ [value]) (createdFolders r)) ;;;
        ret (processedResults ++ [value])
      else if skipped value then ret (processedResults ++ [value])
      else ret processedResults
  | rejected reason =>
      update_results (fun r =>
        mkExecutionResult (foldersCreated r) (filesCopied r)
                          (errors r ++ [rejection reason])
                          (copiedFiles r) (createdFolders r)) ;;;
      ret processedResults
  end.

Fixpoint processResults (copyResults : list Settled)
         (processedResults : list TaskValue) : M (list TaskValue) :=
  match copyResults with
  | [] => ret processedResults
  | result :: rest =>
      processedResults <- processResult processedResults result ;;
      processResults rest processedResults
  end.

Definition add_totalProcessed (n : nat) : M unit :=
  fun st =>
    (returned tt, mkState (world st) (calls st) (results st) (folderCache st)
                          (totalProcessed st + n)).

(** The batch processor [async (batch, batchIndex) => ...]. *)
Definition processBatch (fuel : nat) (destFolderId : string)
           (existingFileMap : Map string) (batch : list DriveFile)
           (batchIndex : nat) : M (list TaskValue) :=
  copyResults <- copyFileBatch fuel batch destFolderId existingFileMap ;;
  processedResults <- processResults copyResults [] ;;
  add_totalProcessed (List.length batch) ;;;
  ret processedResults.

Definition candidates_query (sourceId : option string) : Query :=
  match sourceId with
  | Some id =>
      if String.eqb id "" then [mimeType_not_folder; not_trashed]
      else [in_parents id; mimeType_not_folder; not_trashed]
  | None => [mimeType_not_folder; not_trashed]
  end.

Definition candidates_opts (sourceId : option string) : ListOpts :=
  mkListOpts (candidates_query sourceId)
             "nextPageToken,files(id,name,mimeType,size)"
             (Some (Nat.min (batchSize props * 2) 100)).

(** [filesToProcess] of a page, after the filter by [sourceFileIds]. *)
Definition filesToProcess (filesPage : Response) : list DriveFile :=
  let all := match files filesPage with Some l => l | None => [] end in
  match sourceFileIds props with
  | Some ids =>
      if (0 <? List.length ids)%nat
      then filter (fun file => existsb (String.eqb (file_id file)) ids) all
      else all
  | None => all
  end.

(** The body of the [try] in the loop of [copyFilesOptimized]; its value
    is the new [pageToken]. *)
Definition copyFilesPage (fuel : nat) (sourceId : option string)
           (destFolderId : string) (pageToken : option string)
  : M (option string) :=
  filesPage <- list_files pageToken (candidates_opts sourceId) ;;
  let filesToProcess := filesToProcess filesPage in
  (if (0 <? List.length filesToProcess)%nat then
     let fileNames := map file_name filesToProcess in
     existingFileMap <- getExistingFiles destFolderId fileNames ;;
     processInBatches fuel filesToProcess (batchSize props)
                      (processBatch fuel destFolderId existingFileMap) ;;;
     ret tt
   else ret tt) ;;;
  ret (nextPageToken filesPage).

Definition push_error (e : ErrorRecord) : M unit :=
  update_results (fun r =>
    mkExecutionResult (foldersCreated r) (filesCopied r) (errors r ++ [e])
                      (copiedFiles r) (createdFolders r)).

(** [do { try { ... } catch (error) { ...; break } } while (pageToken)] *)
Fixpoint copyFilesOptimized_from (fuel : nat) (sourceId : option string)
         (destFolderId : string) (pageToken : option string) {struct fuel}
  : M unit :=
  match fuel with
  | O => fun st => (diverged, st)
  | S fuel' =>
      next <- try_catch
                (pageToken <- copyFilesPage fuel' sourceId destFolderId
                                            pageToken ;;
                 ret (Some pageToken))
                (fun message =>
                   push_error (batch_processing_error message) ;;;
                   ret None) ;;
      match next with
      | Some pageToken =>
          if truthy pageToken
          then copyFilesOptimized_from fuel' sourceId destFolderId pageToken
          else ret tt
      | None => ret tt
      end
  end.

Definition copyFilesOptimized (fuel : nat) (sourceId : option string)
           (destFolderId : string) : M nat :=
  (fun st => (returned tt, mkState (world st) (calls st) (results st)
                                   (folderCache st) 0)) ;;;
  copyFilesOptimized_from fuel sourceId destFolderId None ;;;
  (fun st => (returned (totalProcessed st), st)).

Definition timeoutMs : Z := 270000.

Definition timeoutMessage : string :=
  "Operation timeout - consider reducing batch size or using smaller file sets".

Definition checkTimeout (startTime : Z) : M unit :=
  t <- now ;;
  if (t - startTime >? timeoutMs)%Z then throw timeoutMessage else ret tt.

(** [for (let i = 0; i < folders.length; i++)] of [run]. *)
Fixpoint copySubfolders (fuel : nat) (startTime : Z)
         (folders : list FolderRecord) : M unit :=
  match folders with
  | [] => ret tt
  | folder :: rest =>
      checkTimeout startTime ;;;
      copyFilesOptimized fuel (Some (sourceId folder)) (destId folder) ;;;
      delay 50 ;;;
      copySubfolders fuel startTime rest
  end.

(** The [try] block of [run], up to the end of the copies. *)
Definition copyAll (fuel : nat) (startTime : Z) : M unit :=
  if preserveStructure props && truthy (sourceFolderId props) then
    checkTimeout startTime ;;;
    folders <- createFolderStructureOptimized fuel (sourceFolderId props)
                 (destinationFolderId props) "" ;;
    update_results (fun r =>
      mkExecutionResult (List.length folders) (filesCopied r) (errors r)
        (copiedFiles r)
        (map (fun f => createdFolder (name f) (destId f) (path f)) folders)) ;;;
    checkTimeout startTime ;;;
    copyFilesOptimized fuel (sourceFolderId props)
                       (destinationFolderId props) ;;;
    checkTimeout startTime ;;;
    copySubfolders fuel startTime folders
  else
    checkTimeout startTime ;;;
    copyFilesOptimized fuel (sourceFolderId props)
                       (destinationFolderId props) ;;;
    ret tt.

Definition duration_since (startTime : Z) : M Z :=
  t <- now ;; ret (Math_round_div (t - startTime) 1000).

Definition summary_text (r : ExecutionResult) (duration : Z) : string :=
  "Successfully copied " ++ Number_toString (Z.of_nat (filesCopied r))
  ++ " files and created " ++ Number_toString (Z.of_nat (foldersCreated r))
  ++ " folders in " ++ Number_toString duration ++ "s".

Definition empty_results : ExecutionResult := mkExecutionResult 0 0 [] [] [].

Definition run_from (fuel : nat) : M RunResult :=
  startTime <- now ;;
  try_catch
    (copyAll fuel startTime ;;;
     duration <- duration_since startTime ;;
     r <- get_results ;;
     timestamp <- now ;;
     ret (run_success (summary_text r duration) duration
            (statistics (foldersCreated r) (filesCopied r)
                        (List.length (errors r))
                        (batchSize props) (maxConcurrency props))
            (details (slice 0 100 (copiedFiles r)) (createdFolders r)
                     (slice 0 50 (errors r)))
            timestamp))
    (fun message =>
       duration <- duration_since startTime ;;
       r <- get_results ;;
       timestamp <- now ;;
       ret (run_failure message
              (partialResults (foldersCreated r) (filesCopied r)
                              (List.length (errors r)))
              duration timestamp)).

(** [run]: a fresh [results], a fresh [folderCache], then the above. *)
Definition run (fuel : nat) (w : World) : Outcome RunResult * State :=
  run_from fuel (mkState w [] empty_results [] 0).

End Action.

End ExecuteFolderCopy.

(** ** execute_folder_copy/entry.js, second component: the configuration
    of a synchronisation *)

Module ConfigureFolderSync.
Import Js GoogleDrive.

(** The props of the action; the three lists are optional. *)
Record Props : Type := mkProps {
  source_drive : string;
  folder_selection_method : string;
  source_folders : option (list string);
  source_folder_ids : option (list string);
  source_folder_names : option (list string);
  destination_parent_folder : option string;
  sync_subfolders : bool;
  preserve_folder_structure : bool;
  sync_permissions : bool
}.

(** An item as the store sends it: [parents] and [mimeType] are there
    when the request asks for them and the store has them. *)
Record SourceFile : Type := mkSourceFile {
  id : string;
  name : string;
  parents : option (list string);
  mimeType : option string
}.

(** The two searches of the action. *)
Inductive Search : Type :=
| all_folders
| folders_named (folderName : string).

(** The text of [q]: the name goes into the template string as it is. *)
Definition render (s : Search) : string :=
  match s with
  | all_folders =>
      "mimeType = 'application/vnd.google-apps.folder' and trashed != true"
  | folders_named folderName =>
      "mimeType = 'application/vnd.google-apps.folder' and name = '"
      ++ folderName ++ "' and trashed != true"
  end.

(** The options of a listing that vary: [q], [driveId] and [fields]. *)
Record ListOpts : Type := mkListOpts {
  q : Search;
  driveId : option string;
  fields : string
}.

(** The methods of the app this action calls, and the clock.  A listing
    answers with its [files] array, which may be missing. *)
Record Store (World : Type) : Type := mkStore {
  listFilesInPage :
    option string -> ListOpts -> World
    -> Result (option (list SourceFile)) * World;
  getFile : string -> string -> World -> Result SourceFile * World;
  Date_toISOString : World -> string * World
}.
Arguments listFilesInPage {World} _ _ _ _.
Arguments getFile {World} _ _ _ _.
Arguments Date_toISOString {World} _ _.

(** A request made to the store, with its answer. *)
Inductive Call : Type :=
| called_listFilesInPage (opts : ListOpts)
                         (answer : Result (option (list SourceFile)))
| called_getFile (fileId : string) (answer : Result SourceFile).

(** An element of [syncConfig.folders]: [{ id, name, source, parents }];
    [parents] is missing for the folders of the whole drive. *)
Inductive Folder : Type :=
| folderOf (id name source : string) (parents : option (list string)).

Inductive Source : Type :=
| sourceOf (drive : string) (driveId : option string).

Inductive Destination : Type :=
| destinationOf (drive : string) (driveId : option string)
                (parentFolder : option string).

Inductive Options : Type :=
| optionsOf (syncSubfolders preserveFolderStructure syncPermissions : bool).

Record SyncConfig : Type := mkSyncConfig {
  source : Source;
  destination : Destination;
  options : Options;
  folders : list Folder
}.

(** What [run] returns, with the [$summary] it exports. *)
Record Output : Type := mkOutput {
  syncConfiguration : SyncConfig;
  folderCount : nat;
  folderList : list (string * string);
  ready : bool;
  timestamp : string;
  summary : string
}.

Definition noFoldersMessage : string :=
  "No valid folders found with the current configuration. Please check your folder selection settings.".

(** The message of the [TypeError] of [folders.map] on a missing array. *)
Definition undefinedMapMessage : string :=
  "Cannot read properties of undefined (reading 'map')".

Section Action.
Context {World : Type}.
Variable store : Store World.
Variable props : Props.

(** The store, and the requests made so far. *)
Record State : Type := mkState {
  world : World;
  calls : list Call
}.

(** [this.source_drive === "My Drive" ? undefined : this.source_drive] *)
Definition driveIdOf : option string :=
  if String.eqb (source_drive props) "My Drive" then None
  else Some (source_drive props).

Definition listSourceFolders (st : State)
  : Result (option (list SourceFile)) * State :=
  let opts := mkListOpts all_folders driveIdOf "files(id,name,parents)" in
  let (answer, w) := listFilesInPage store None opts (world st) in
  (answer, mkState w (calls st ++ [called_listFilesInPage opts answer])).

Definition getSourceFile (fileId : string) (st : State)
  : Result SourceFile * State :=
  let (answer, w) :=
    getFile store fileId "id,name,parents,mimeType" (world st) in
  (answer, mkState w (calls st ++ [called_getFile fileId answer])).

(** [const { files = [] } = await ...; return files] *)
Definition findSourceFolders (folderName : string) (st : State)
  : Result (list SourceFile) * State :=
  let opts :=
    mkListOpts (folders_named folderName) driveIdOf "files(id,name,parents)" in
  let (answer, w) := listFilesInPage store None opts (world st) in
  (match answer with
   | ok (Some files) => ok files
   | ok None => ok []
   | thrown message => thrown message
   end,
   mkState w (calls st ++ [called_listFilesInPage opts answer])).

(** [for (const folderId of this.source_folders)]: an id the store does
    not answer for is logged to the console and passed over. *)
Fixpoint individualLoop (ids : list string) (folders : list Folder)
         (st : State) : list Folder * State :=
  match ids with
  | [] => (folders, st)
  | folderId :: rest =>
      match getSourceFile folderId st with
      | (ok folder, st') =>
          individualLoop rest
            (folders ++ [folderOf (id folder) (name folder) "manual_selection"
                                  (parents folder)])
            st'
      | (thrown _, st') => individualLoop rest folders st'
      end
  end.

(** [for (const folderId of this.source_folder_ids)] *)
Fixpoint folderIdsLoop (ids : list string) (folders : list Folder)
         (st : State) : list Folder * State :=
  match ids with
  | [] => (folders, st)
  | folderId :: rest =>
      match getSourceFile folderId st with
      | (ok folder, st') =>
          if match mimeType folder with
             | Some m => String.eqb m folderMimeType
             | None => false
             end
          then folderIdsLoop rest
                 (folders ++ [folderOf (id folder) (name folder) "folder_id"
                                       (parents folder)])
                 st'
          else folderIdsLoop rest folders st'
      | (thrown _, st') => folderIdsLoop rest folders st'
      end
  end.

(** [for (const folderName of this.source_folder_names)] *)
Fixpoint folderNamesLoop (names : list string) (folders : list Folder)
         (st : State) : list Folder * State :=
  match names with
  | [] => (folders, st)
  | folderName :: rest =>
      match findSourceFolders folderName st with
      | (ok found, st') =>
          folderNamesLoop rest
            (folders
             ++ map (fun folder =>
                       folderOf (id folder) (name folder) "folder_name_search"
                                (parents folder))
                    found)
            st'
      | (thrown _, st') => folderNamesLoop rest folders st'
      end
  end.

(** [list?.length], as a condition. *)
Definition nonempty (selection : option (list string)) : bool :=
  match selection with
  | Some (_ :: _) => true
  | _ => false
  end.

Definition selected (selection : option (list string)) : list string :=
  match selection with
  | Some l => l
  | None => []
  end.

(** The chain of [if]s of [run] that fills [syncConfig.folders]. *)
Definition selectFolders (st : State) : Result (list Folder) * State :=
  if String.eqb (folder_selection_method props) "entire_drive" then
    match listSourceFolders st with
    | (ok (Some folders), st') =>
        (ok (map (fun folder =>
                    folderOf (id folder) (name folder) "drive_root" None)
                 folders),
         st')
    | (ok None, st') => (thrown undefinedMapMessage, st')
    | (thrown message, st') => (thrown message, st')
    end
  else if String.eqb (folder_selection_method props) "individual"
          && nonempty (source_folders props) then
    let (folders, st') :=
      individualLoop (selected (source_folders props)) [] st in
    (ok folders, st')
  else if String.eqb (folder_selection_method props) "folder_ids"
          && nonempty (source_folder_ids props) then
    let (folders, st') :=
      folderIdsLoop (selected (source_folder_ids props)) [] st in
    (ok folders, st')
  else if String.eqb (folder_selection_method props) "folder_names"
          && nonempty (source_folder_names props) then
    let (folders, st') :=
      folderNamesLoop (selected (source_folder_names props)) [] st in
    (ok folders, st')
  else (ok [], st).

Definition summary_text (n : nat) : string :=
  "Successfully configured sync for " ++ Number_toString (Z.of_nat n)
  ++ " folder" ++ (if (n =? 1)%nat then "" else "s") ++ " from "
  ++ source_drive props.

Definition run (st : State) : Result Output * State :=
  let driveId :=
    if String.eqb (source_drive props) "My Drive" then None
    else Some (source_drive props) in
  match selectFolders st with
  | (thrown message, st') => (thrown message, st')
  | (ok folders, st') =>
      let syncConfig :=
        mkSyncConfig
          (sourceOf (source_drive props) driveId)
          (destinationOf (source_drive props) driveId
             (if truthy (destination_parent_folder props)
              then destination_parent_folder props else None))
          (optionsOf (sync_subfolders props) (preserve_folder_structure props)
                     (sync_permissions props))
          folders in
      if (List.length folders =? 0)%nat then (thrown noFoldersMessage, st')
      else
        let (timestamp, w) := Date_toISOString store (world st') in
        (ok (mkOutput syncConfig (List.length folders)
               (map (fun f => match f with
                              | folderOf id name _ _ => (id, name)
                              end) folders)
               true timestamp (summary_text (List.length folders))),
         mkState w (calls st'))
  end.

End Action.
End ConfigureFolderSync.

(** ** A store to run the copy action on *)

Module DriveModel.
Import Js GoogleDrive.

(** An item of the drive: its metadata, the folder it is in, and whether
    it is in the bin. *)
Record Item : Type := mkItem {
  item_file : DriveFile;
  item_parent : string;
  item_trashed : bool
}.

(** A small drive: its items, a clock in milliseconds, the time a copy
    takes, the number of items created so far, and the files a copy of
    which the store refuses. *)
Record Drive : Type := mkDrive {
  items : list Item;
  clock : Z;
  copy_time : Z;
  created : nat;
  refused : list string
}.

Definition matches (c : Clause) (it : Item) : bool :=
  match c with
  | in_parents folderId => String.eqb (item_parent it) folderId
  | mimeType_is_folder =>
      String.eqb (file_mimeType (item_file it)) folderMimeType
  | mimeType_not_folder =>
      negb (String.eqb (file_mimeType (item_file it)) folderMimeType)
  | not_trashed => negb (item_trashed it)
  | name_among names => existsb (String.eqb (file_name (item_file it))) names
  end.

(** Every listing fits in one page. *)
Definition drive_list (pageToken : option string) (opts : ListOpts)
           (d : Drive) : Result Response * Drive :=
  (ok (mkResponse
         (Some (map item_file
                    (filter (fun it => forallb (fun c => matches c it) (q opts))
                            (items d))))
         None),
   d).

Definition fresh_id (d : Drive) : string :=
  "new" ++ Number_toString (Z.of_nat (created d)).

Definition drive_createFolder (name parentId : string) (d : Drive)
  : Result string * Drive :=
  (ok (fresh_id d),
   mkDrive (items d
            ++ [mkItem (mkDriveFile (fresh_id d) name folderMimeType
                                    None None None)
                       parentId false])
           (clock d) (copy_time d) (S (created d)) (refused d)).

Definition drive_copyFile (fileId name parent : string) (d : Drive)
  : Result string * Drive :=
  if existsb (String.eqb fileId) (refused d) then
    (thrown "The user does not have sufficient permissions for this file.",
     d)
  else
    match find (fun it => String.eqb (file_id (item_file it)) fileId)
               (items d) with
    | None => (thrown ("File not found: " ++ fileId), d)
    | Some it =>
        (ok (fresh_id d),
         mkDrive (items d
                  ++ [mkItem (mkDriveFile (fresh_id d) name
                                (file_mimeType (item_file it))
                                (file_size (item_file it))
                                (file_modifiedTime (item_file it))
                                (file_md5Checksum (item_file it)))
                             parent false])
                 (clock d + copy_time d) (copy_time d) (S (created d))
                 (refused d))
    end.

Definition drive_deleteFile (fileId : string) (d : Drive)
  : Result unit * Drive :=
  (ok tt,
   mkDrive (filter (fun it => negb (String.eqb (file_id (item_file it)) fileId))
                   (items d))
           (clock d) (copy_time d) (created d) (refused d)).

Definition drive : RemoteStore Drive :=
  mkRemoteStore Drive drive_list drive_createFolder drive_copyFile
                drive_deleteFile
                (fun d => (clock d, d))
                (fun ms d => mkDrive (items d) (clock d + ms) (copy_time d)
                                     (created d) (refused d)).

Definition folder_item (id name parent : string) : Item :=
  mkItem (mkDriveFile id name folderMimeType None None None) parent false.

Definition file_item (id name parent : string) : Item :=
  mkItem (mkDriveFile id name "text/plain" (Some "1") None None) parent false.

End DriveModel.

(** * Notions used by the properties *)

Module Notions.
Import Js GoogleDrive.

(** ** The maps *)

Definition keys {V} (m : Map V) : list string := map fst m.

(** The map built by [forEach(x => m.set(key x, x))]. *)
Definition index {A} (key : A -> string) (l : list A) (m : Map A) : Map A :=
  fold_left (fun m x => set (key x) x m) l m.

(** ** The comparison and the enumeration *)

Section Compare.
Import CompareFolders.

(** The paths held by the four buckets, a modification counting for the
    path of its source side. *)
Definition bucket_paths (c : Comparison) : list string :=
  map path (additions c)
  ++ map (fun m => path (source m)) (modifications c)
  ++ map path (deletions c)
  ++ map path (unchanged c).

(** The entries that come from the source side, and from the other side. *)
Definition source_side (c : Comparison) : list Entry :=
  additions c ++ map source (modifications c) ++ unchanged c.

Definition destination_side (c : Comparison) : list Entry :=
  map destination (modifications c) ++ deletions c.

(** The reason tags a result of [isFileModified] carries: those of the
    array, none for [false]. *)
Definition tags (r : option (list Reason)) : list Reason :=
  match r with
  | Some rs => rs
  | None => []
  end.

(** No file entry stands before a folder entry. *)
Definition folders_first (l : list Entry) : Prop :=
  forall (i j : nat) (f e : Entry),
    nth_error l i = Some f -> nth_error l j = Some e ->
    isFolder f = false -> isFolder e = true -> (j < i)%nat.

(** The entries of the items listed directly under a folder, all pages
    together, and the folders among them. *)
Definition direct_entries (basePath : string) (folder : RemoteNode)
  : list Entry :=
  match folder with
  | RNode _ firstPage nextPages =>
      map (fun n => fileData basePath (node_file n))
          (List.concat (map (fun p => match p with Some c => c | None => [] end)
                       (firstPage :: nextPages)))
  end.

Definition direct_folders (basePath : string) (folder : RemoteNode)
  : list Entry :=
  filter isFolder (direct_entries basePath folder).

(** A root with the file [a.txt] and the folder [X], which holds the
    folder [Y]. *)
Definition nested_tree : RemoteNode :=
  RNode (mkDriveFile "root" "root" folderMimeType None None None)
    (Some [ RNode (mkDriveFile "1" "a.txt" "text/plain" (Some "3") None None)
                  None [];
            RNode (mkDriveFile "2" "X" folderMimeType None None None)
                  (Some [ RNode (mkDriveFile "3" "Y" folderMimeType
                                             None None None)
                                (Some []) [] ])
                  [] ])
    [].

End Compare.

(** ** The runs of the copy action *)

Section Runs.
Import ExecuteFolderCopy.

(** The (name, parent) pairs of the folders the store created. *)
Fixpoint created_folders (l : list Call) : list (string * string) :=
  match l with
  | [] => []
  | called_createFolder name parentId (ok _) :: l' =>
      (name, parentId) :: created_folders l'
  | _ :: l' => created_folders l'
  end.

(** Every [createFolder] request comes after a listing of the folders of
    its parent in which its name was not found. *)
Definition justified (l : list Call) : Prop :=
  forall pre name parentId answer post,
    l = pre ++ called_createFolder name parentId answer :: post ->
    exists resp,
      In (called_listFilesInPage None (existingFolders_opts parentId) (ok resp))
         pre
      /\ get name (name_id_map (files resp)) = None.

(** The destination of a folder record is the folder of that name found
    in a listing, or the folder a [createFolder] request made. *)
Definition resolved_from (l : list Call) (r : FolderRecord) : Prop :=
  (exists parentId resp,
      In (called_listFilesInPage None (existingFolders_opts parentId) (ok resp))
         l
      /\ get (name r) (name_id_map (files resp)) = Some (destId r))
  \/ (exists parentId,
         In (called_createFolder (name r) parentId (ok (destId r))) l).

(** How the destination of the source folder [folder] is settled under
    the destination parent [parentId], [existingFolderMap] being the
    folders listed there before the loop: the folder of its name in the
    map, without a request; or, when the map has none, the folder that a
    [createFolder] request of its name under [parentId] made. *)
Definition placement (existingFolderMap : Map string) (parentId : string)
           (folder : DriveFile) (destFolderId : string) (own : list Call)
  : Prop :=
  match get (file_name folder) existingFolderMap with
  | Some existingId => destFolderId = existingId /\ own = []
  | None =>
      own = [called_createFolder (file_name folder) parentId
                                 (ok destFolderId)]
  end.

(** [folder_requests deep sourceId parentId folderPath l folders]: the
    requests [l], in order, of a replication of the folders of [sourceId]
    under [parentId] that returns the records [folders]; [deep] is
    [includeSubfolders].  The two listings come first; a listing that
    fails ends the replication without a record.  Then each source folder
    is placed in its turn, and the folders under it after it when [deep];
    a creation that fails stops the loop, with the records made so far. *)
Inductive folder_requests (deep : bool)
  : option string -> string -> string -> list Call -> list FolderRecord
    -> Prop :=
| fr_no_source sourceId parentId folderPath :
    truthy sourceId = false ->
    folder_requests deep sourceId parentId folderPath [] []
| fr_source_failed id parentId folderPath e :
    id <> "" ->
    folder_requests deep (Some id) parentId folderPath
      [called_listFilesInPage None (subfolders_opts id) (thrown e)] []
| fr_destination_failed id parentId folderPath subfolders e :
    id <> "" ->
    folder_requests deep (Some id) parentId folderPath
      [called_listFilesInPage None (subfolders_opts id) (ok subfolders);
       called_listFilesInPage None (existingFolders_opts parentId) (thrown e)]
      []
| fr_listed id parentId folderPath subfolders existingFolders l folders :
    id <> "" ->
    loop_requests deep parentId folderPath
                  (name_id_map (files existingFolders))
                  (match files subfolders with Some fs => fs | None => [] end)
                  l folders ->
    folder_requests deep (Some id) parentId folderPath
      (called_listFilesInPage None (subfolders_opts id) (ok subfolders)
       :: called_listFilesInPage None (existingFolders_opts parentId)
            (ok existingFolders)
       :: l)
      folders
with loop_requests (deep : bool)
  : string -> string -> Map string -> list DriveFile -> list Call
    -> list FolderRecord -> Prop :=
| lr_done parentId folderPath existingFolderMap :
    loop_requests deep parentId folderPath existingFolderMap [] [] []
| lr_create_failed parentId folderPath existingFolderMap folder rest e :
    get (file_name folder) existingFolderMap = None ->
    loop_requests deep parentId folderPath existingFolderMap (folder :: rest)
      [called_createFolder (file_name folder) parentId (thrown e)] []
| lr_flat parentId folderPath existingFolderMap folder rest destFolderId own
          l folders :
    deep = false ->
    placement existingFolderMap parentId folder destFolderId own ->
    loop_requests deep parentId folderPath existingFolderMap rest l folders ->
    loop_requests deep parentId folderPath existingFolderMap (folder :: rest)
      (own ++ l)
      (mkFolderRecord (file_id folder) destFolderId (file_name folder)
                      (joinPath folderPath (file_name folder))
       :: folders)
| lr_deep parentId folderPath existingFolderMap folder rest destFolderId own
          below subFolders l folders :
    deep = true ->
    placement existingFolderMap parentId folder destFolderId own ->
    folder_requests deep (Some (file_id folder)) destFolderId
                    (joinPath folderPath (file_name folder))
                    below subFolders ->
    loop_requests deep parentId folderPath existingFolderMap rest l folders ->
    loop_requests deep parentId folderPath existingFolderMap (folder :: rest)
      (own ++ below ++ l)
      (mkFolderRecord (file_id folder) destFolderId (file_name folder)
                      (joinPath folderPath (file_name folder))
       :: subFolders ++ folders).

(** [folderCache] after [folderCache.set(sourceId, destId)] for each of
    the records, in order. *)
Definition cached (folders : list FolderRecord) (cache : Map string)
  : Map string :=
  fold_left (fun m r => set (sourceId r) (destId r) m) folders cache.

(** The number of copies the store made. *)
Definition copies (l : list Call) : nat :=
  List.length
    (filter (fun c => match c with
                      | called_copyFile _ _ _ (ok _) => true
                      | _ => false
                      end) l).

Definition is_copied (r : Settled) : bool :=
  match r with
  | fulfilled (copied_file _ _ _ _ _ _) => true
  | _ => false
  end.

Definition is_fulfilled (r : Settled) : Prop :=
  match r with
  | fulfilled _ => True
  | rejected _ => False
  end.

(** The lists of records a result of [run] carries, when it carries
    them. *)
Definition returned_lists (r : RunResult)
  : option (list TaskValue * list CreatedFolder * list ErrorRecord) :=
  match r with
  | run_success _ _ _ (details c f e) _ => Some (c, f, e)
  | run_failure _ _ _ _ => None
  end.


Section WithStore.
Context {World : Type}.
Variable store : RemoteStore World.
Variable props : Props.

(** [wp m Q st]: run from [st], [m] ends with an outcome and a state that
    satisfy [Q]. *)
Definition wp {A} (m : M (World := World) A)
           (Q : Outcome A -> State (World := World) -> Prop)
           (st : State (World := World)) : Prop :=
  Q (fst (m st)) (snd (m st)).

(** What the replication of the folders does to the state. *)
Record folder_step (st st' : State (World := World)) : Prop := {
  fs_grows : exists delta, calls st' = calls st ++ delta;
  fs_justified : justified (calls st) -> justified (calls st');
  fs_results : results st' = results st;
  fs_copies : copies (calls st') = copies (calls st);
  fs_total : totalProcessed st' = totalProcessed st
}.

Definition folders_spec (st : State (World := World))
           (o : Outcome (list FolderRecord)) (st' : State (World := World))
  : Prop :=
  folder_step st st'
  /\ (forall message, o <> threw message)
  /\ (forall folders, o = returned folders ->
                      Forall (resolved_from (calls st')) folders).

(** Two states that differ in [folderCache] at most. *)
Definition same_but_cache (st st' : State (World := World)) : Prop :=
  world st = world st' /\ calls st = calls st'
  /\ results st = results st' /\ totalProcessed st = totalProcessed st'.

(** [m] does not look at [folderCache]. *)
Definition cache_blind {A} (m : M (World := World) A) : Prop :=
  forall st st', same_but_cache st st' ->
    fst (m st) = fst (m st') /\ same_but_cache (snd (m st)) (snd (m st')).

(** What the task of a file resolves to, against the requests it made. *)
Definition task_outcome (destFolderId : string) (existingFileMap : Map string)
           (file : DriveFile) (value : TaskValue) (delta : list Call) : Prop :=
  match value with
  | copied_file originalName newName originalId newId _ _ =>
      originalName = file_name file /\ originalId = file_id file
      /\ In (called_copyFile (file_id file) newName destFolderId (ok newId))
            delta
  | skipped_file f =>
      f = file /\ conflictResolution props = "skip"
      /\ has (file_name file) existingFileMap = true /\ delta = []
  | file_copy_error n e =>
      n = file_name file
      /\ ((exists newName,
              In (called_copyFile (file_id file) newName destFolderId
                                  (thrown e)) delta)
          \/ (conflictResolution props = "replace"
              /\ exists existingId,
                  get (file_name file) existingFileMap = Some existingId
                  /\ In (called_deleteFile existingId (thrown e)) delta))
  end.

(** The requests of a task: deletions, and copies into the destination. *)
Definition task_call (destFolderId : string) (c : Call) : Prop :=
  match c with
  | called_copyFile _ _ parent _ => parent = destFolderId
  | called_deleteFile _ _ => True
  | _ => False
  end.

(** The state after a task, or after the tasks of a batch. *)
Record task_step (destFolderId : string) (delta : list Call)
       (st st' : State (World := World)) : Prop := {
  ts_calls : calls st' = calls st ++ delta;
  ts_shape : Forall (task_call destFolderId) delta;
  ts_results : results st' = results st;
  ts_total : totalProcessed st' = totalProcessed st
}.

(** Where the map of the existing names of a destination comes from: it is
    empty, or built from the answer to an existence query. *)
Definition map_origin (destFolderId : string) (l : list Call)
           (existingFileMap : Map string) : Prop :=
  existingFileMap = []
  \/ exists names resp,
      In (called_listFilesInPage None (existingFiles_opts destFolderId names)
                                 (ok resp)) l
      /\ existingFileMap = name_id_map (files resp).

(** What became of a candidate file: a copy into the destination was
    asked of the store; or the policy is [skip] and an existence query
    found its name; or the policy is [replace], an existence query found
    its name and the deletion of the file found failed. *)
Definition submitted (destFolderId : string) (l : list Call)
           (file : DriveFile) : Prop :=
  (exists newName answer,
      In (called_copyFile (file_id file) newName destFolderId answer) l)
  \/ (conflictResolution props = "skip"
      /\ exists names resp,
          In (called_listFilesInPage None
                (existingFiles_opts destFolderId names) (ok resp)) l
          /\ has (file_name file) (name_id_map (files resp)) = true)
  \/ (conflictResolution props = "replace"
      /\ exists names resp existingId e,
          In (called_listFilesInPage None
                (existingFiles_opts destFolderId names) (ok resp)) l
          /\ get (file_name file) (name_id_map (files resp)) = Some existingId
          /\ In (called_deleteFile existingId (thrown e)) l).

Definition count_copied (rs : list Settled) : nat :=
  List.length (filter is_copied rs).

Definition is_batch_error (e : ErrorRecord) : Prop :=
  exists message, e = batch_processing_error message.

(** The requests of the copy of the files of [sourceId] into
    [destFolderId]: listings of the candidates, existence queries, copies
    into the destination, deletions; no folder is created. *)
Definition copy_call (sourceId : option string) (destFolderId : string)
           (c : Call) : Prop :=
  match c with
  | called_listFilesInPage _ opts _ =>
      opts = candidates_opts props sourceId
      \/ exists names, opts = existingFiles_opts destFolderId names
  | called_copyFile _ _ parent _ => parent = destFolderId
  | called_deleteFile _ _ => True
  | called_createFolder _ _ _ => False
  end.

(** The requests made between an existence query and the end of the
    batches of a page. *)
Definition inner_call (destFolderId : string) (c : Call) : Prop :=
  match c with
  | called_listFilesInPage _ opts _ =>
      exists names, opts = existingFiles_opts destFolderId names
  | called_copyFile _ _ parent _ => parent = destFolderId
  | called_deleteFile _ _ => True
  | called_createFolder _ _ _ => False
  end.

(** What the copy of files does to the state, with requests of the form
    [shape]: the counter of the copied files moves with the copies the
    store made, the array of their records with the counter; what is known
    of the folders is untouched; the new errors are listing errors. *)
Record copy_step (shape : Call -> Prop)
       (st st' : State (World := World)) : Prop := {
  cs_grows : exists delta,
      calls st' = calls st ++ delta /\ Forall shape delta;
  cs_files : (filesCopied (results st') + copies (calls st)
              = filesCopied (results st) + copies (calls st'))%nat;
  cs_copied : (List.length (copiedFiles (results st'))
               + filesCopied (results st)
               = List.length (copiedFiles (results st))
                 + filesCopied (results st'))%nat;
  cs_foldersCreated : foldersCreated (results st') = foldersCreated (results st);
  cs_createdFolders : createdFolders (results st') = createdFolders (results st);
  cs_errors : exists errs,
      errors (results st') = errors (results st) ++ errs
      /\ Forall is_batch_error errs
}.

Definition copied_values (rs : list Settled) : list TaskValue :=
  flat_map (fun r => match r with
                     | fulfilled (copied_file a b c d e f) =>
                         [copied_file a b c d e f]
                     | _ => []
                     end) rs.

(** Every file of every page of candidates that the store listed, and
    that the filter by [sourceFileIds] lets through, has been submitted. *)
Definition all_covered (sourceId : option string) (destFolderId : string)
           (l : list Call) : Prop :=
  forall pageToken resp,
    In (called_listFilesInPage pageToken (candidates_opts props sourceId)
                               (ok resp)) l ->
    Forall (submitted destFolderId l) (filesToProcess props resp).



(** The counters of [results] against what was done: the files counted
    are the copies the store made, each with its record; the folders
    counted are those recorded; the errors are listing errors. *)
Definition count_inv (st : State (World := World)) : Prop :=
  filesCopied (results st) = copies (calls st)
  /\ List.length (copiedFiles (results st)) = filesCopied (results st)
  /\ foldersCreated (results st) = List.length (createdFolders (results st))
  /\ Forall is_batch_error (errors (results st)).

(** The state [st'] is the one a deadline check that tripped has left. *)
Definition tripped (startTime : Z) (st' : State (World := World)) : Prop :=
  exists stc,
    checkTimeout store startTime stc = (threw timeoutMessage, st')
    /\ results stc = results st' /\ calls stc = calls st'.

(** A piece of the [try] block of [run]: it throws when a deadline check
    trips and then only, and it keeps the counters right. *)
Definition phase {A} (startTime : Z) (m : M (World := World) A) : Prop :=
  forall st,
    wp m (fun o st' =>
            (forall e, o = threw e -> e = timeoutMessage /\ tripped startTime st')
            /\ (o <> diverged -> count_inv st -> count_inv st'))
       st.

End WithStore.

(** ** Drives and props to run the action on *)

(** The drive of the counterexample: the source folder [S] holds two
    folders named [X], the destination folder [D] is empty. *)
Definition twin_drive : DriveModel.Drive :=
  DriveModel.mkDrive
    [DriveModel.folder_item "S" "S" "root";
     DriveModel.folder_item "D" "D" "root";
     DriveModel.folder_item "a" "X" "S";
     DriveModel.folder_item "b" "X" "S"]
    0 0 0 [].

Definition twin_props : Props :=
  mkProps (Some "S") None "D" true "rename" true 20 5.

(** A drive on which a copy takes five minutes: the folder [S] holds the
    file [a.txt], the folder [D] is empty. *)
Definition slow_drive : DriveModel.Drive :=
  DriveModel.mkDrive
    [DriveModel.folder_item "S" "S" "root";
     DriveModel.folder_item "D" "D" "root";
     DriveModel.file_item "1" "a.txt" "S"]
    0 300000 0 [].

Definition slow_props : Props :=
  mkProps (Some "S") None "D" true "rename" true 20 5.



(** A drive that refuses to copy the file [a.txt] of the folder [S]; the
    folder holds the file [b.txt] too. *)
Definition refusing_drive : DriveModel.Drive :=
  DriveModel.mkDrive
    [DriveModel.folder_item "S" "S" "root";
     DriveModel.folder_item "D" "D" "root";
     DriveModel.file_item "1" "a.txt" "S";
     DriveModel.file_item "2" "b.txt" "S"]
    0 0 0 ["1"].

Definition refusing_props : Props :=
  mkProps (Some "S") None "D" true "rename" true 20 5.

(** A drive with eleven files in the folder [S]; the folder [D] holds a
    file with the name of the eleventh. *)
Definition eleven_drive : DriveModel.Drive :=
  DriveModel.mkDrive
    ([DriveModel.folder_item "S" "S" "root";
      DriveModel.folder_item "D" "D" "root"]
     ++ map (fun i => DriveModel.file_item ("s" ++ i) ("n" ++ i) "S")
            ["0"; "1"; "2"; "3"; "4"; "5"; "6"; "7"; "8"; "9"; "10"]
     ++ [DriveModel.file_item "d" "n10" "D"])
    0 0 0 [].

Definition eleven_props : Props :=
  mkProps (Some "S") None "D" true "skip" true 20 5.

(** A drive whose folders [S] and [D] both hold [a.txt] and
    [a_copy_5.txt], at time 5. *)
Definition clash_drive : DriveModel.Drive :=
  DriveModel.mkDrive
    [DriveModel.folder_item "S" "S" "root";
     DriveModel.folder_item "D" "D" "root";
     DriveModel.file_item "1" "a.txt" "S";
     DriveModel.file_item "2" "a_copy_5.txt" "S";
     DriveModel.file_item "3" "a.txt" "D";
     DriveModel.file_item "4" "a_copy_5.txt" "D"]
    5 0 0 [].

Definition clash_props : Props :=
  mkProps (Some "S") None "D" true "rename" true 20 5.

End Runs.

End Notions.

(** * Further notions: the whole of a comparison, the requests of a run,
    the configuration *)

Module MoreNotions.
Import Js GoogleDrive Notions.

(** ** The comparison and the enumeration *)

Section Compare.
Import CompareFolders.

(** A page of responses all of whose nodes satisfy [P]. *)
Definition page_all (P : RemoteNode -> Prop) (page : option (list RemoteNode))
  : Prop :=
  match page with
  | Some children => Forall P children
  | None => True
  end.

(** The items of the pages that were answered. *)
Definition items_of (pages : list (option (list RemoteNode)))
  : list RemoteNode :=
  List.concat (map (fun p => match p with Some c => c | None => [] end) pages).

(** The items listed directly under a folder, all pages together. *)
Definition children (folder : RemoteNode) : list RemoteNode :=
  match folder with
  | RNode _ firstPage nextPages => items_of (firstPage :: nextPages)
  end.

Definition folder_node (n : RemoteNode) : bool :=
  String.eqb (file_mimeType (node_file n)) folderMimeType.

(** [leads folder chain item]: [item] is listed under the last folder of
    [chain], each folder of [chain] is listed under the one before it, and
    the first under [folder]; with an empty [chain], [item] is listed
    under [folder] itself. *)
Inductive leads : RemoteNode -> list RemoteNode -> RemoteNode -> Prop :=
| leads_direct folder item :
    In item (children folder) -> leads folder [] item
| leads_through folder sub chain item :
    In sub (children folder) -> folder_node sub = true ->
    leads sub chain item ->
    leads folder (sub :: chain) item.

(** [basePath], then the names of the folders of [chain], joined. *)
Definition path_through (basePath : string) (chain : list RemoteNode)
  : string :=
  fold_left joinPath (map (fun n => file_name (node_file n)) chain) basePath.

(** The entry of [item] reached through the folders of [chain]. *)
Definition entry_at (basePath : string) (chain : list RemoteNode)
           (item : RemoteNode) : Entry :=
  fileData (path_through basePath chain) (node_file item).

Definition is_some {A} (o : option A) : bool :=
  match o with Some _ => true | None => false end.

(** An entry named by its path; a list of two entries; a comparison with
    one addition and the deletion of a folder and of a file in it. *)
Definition entry_of (p : string) (folder : bool) (sz : string) : Entry :=
  mkEntry p p p (if folder then folderMimeType else "text/plain")
          (Some sz) None None folder.

Definition some_entries : list Entry :=
  [entry_of "a.txt" false "1"; entry_of "X" true "0"].

Definition some_changes : Comparison :=
  mkComparison [entry_of "new.txt" false "1"] []
               [entry_of "old" true "0"; entry_of "old/x.txt" false "1"] [].

End Compare.

(** ** The runs of the copy action *)

Section Runs.
Import ExecuteFolderCopy.

(** The copies asked of the store, as (file, name, destination), whatever
    the answer was. *)
Definition copy_requests (l : list Call) : list (string * string * string) :=
  flat_map (fun c => match c with
                     | called_copyFile fileId name parent _ =>
                         [(fileId, name, parent)]
                     | _ => []
                     end) l.

Definition is_copy_request (c : Call) : bool :=
  match c with
  | called_copyFile _ _ _ _ => true
  | _ => false
  end.

(** The value a task resolves to after its copy request. *)
Definition copy_value (file : DriveFile) (newName : string)
           (answer : Result string) : TaskValue :=
  match answer with
  | ok newId =>
      copied_file (file_name file) newName (file_id file) newId
                  (file_size file) (file_mimeType file)
  | thrown e => file_copy_error (file_name file) e
  end.

(** The value of a task is about the file: it carries the file, or its
    name and id. *)
Definition about (file : DriveFile) (r : Settled) : Prop :=
  match r with
  | fulfilled (skipped_file f) => f = file
  | fulfilled (copied_file originalName _ originalId _ _ _) =>
      originalName = file_name file /\ originalId = file_id file
  | fulfilled (file_copy_error n _) => n = file_name file
  | rejected _ => False
  end.

(** The policy is none of the three the action knows. *)
Definition unknown_policy (policy : string) : Prop :=
  policy <> "skip" /\ policy <> "rename" /\ policy <> "replace".

(** The requests of the replication of the folders: first pages of the
    folders of a source folder or of a destination folder, and creations
    of folders. *)
Definition folder_call (c : Call) : Prop :=
  match c with
  | called_listFilesInPage pageToken opts _ =>
      pageToken = None
      /\ ((exists sourceId, opts = subfolders_opts sourceId)
          \/ (exists destParentId, opts = existingFolders_opts destParentId))
  | called_createFolder _ _ _ => True
  | _ => False
  end.

(** A listing of candidate files, by the form of its query. *)
Definition lists_candidates (opts : ListOpts) : bool :=
  match q opts with
  | [mimeType_not_folder; not_trashed] => true
  | [in_parents _; mimeType_not_folder; not_trashed] => true
  | _ => false
  end.

(** The messages of the listings of candidates that failed, in the order
    of the requests. *)
Fixpoint failed_listings (l : list Call) : list string :=
  match l with
  | [] => []
  | called_listFilesInPage _ opts (thrown e) :: l' =>
      if lists_candidates opts then e :: failed_listings l'
      else failed_listings l'
  | _ :: l' => failed_listings l'
  end.

Section WithStore.
Context {World : Type}.

(** A step that records no error and makes no listing of candidates that
    fails. *)
Definition silent (st st' : State (World := World)) : Prop :=
  (exists delta,
      calls st' = calls st ++ delta /\ failed_listings delta = [])
  /\ errors (results st') = errors (results st).

(** The errors recorded are the failed listings of candidates. *)
Definition errors_inv (st : State (World := World)) : Prop :=
  errors (results st)
  = map batch_processing_error (failed_listings (calls st)).

(** [m] keeps the record of the errors right, however it ends. *)
Definition keeps_errors {A} (m : M (World := World) A) : Prop :=
  forall st, errors_inv st -> errors_inv (snd (m st)).

(** What the replication of the folders leaves: requests of its own
    kind, and [results] as it was. *)
Definition replication (st st' : State (World := World)) : Prop :=
  (exists delta, calls st' = calls st ++ delta /\ Forall folder_call delta)
  /\ results st' = results st.

End WithStore.

(** A drive whose folder [D] holds [a.txt] already, and props with the
    policy [replace]. *)
Definition replace_drive : DriveModel.Drive :=
  DriveModel.mkDrive
    [DriveModel.folder_item "S" "S" "root";
     DriveModel.folder_item "D" "D" "root";
     DriveModel.file_item "1" "a.txt" "S";
     DriveModel.file_item "2" "a.txt" "D"]
    0 0 0 [].

(** The same drive, but it refuses to copy the file [a.txt] of the
    folder [S]. *)
Definition lossy_drive : DriveModel.Drive :=
  DriveModel.mkDrive
    [DriveModel.folder_item "S" "S" "root";
     DriveModel.folder_item "D" "D" "root";
     DriveModel.file_item "1" "a.txt" "S";
     DriveModel.file_item "2" "a.txt" "D"]
    0 0 0 ["1"].


Definition replace_props : Props :=
  mkProps (Some "S") None "D" true "replace" true 20 5.

Definition skip_props : Props :=
  mkProps (Some "S") None "D" true "skip" true 20 5.


Definition a_txt : DriveFile :=
  mkDriveFile "1" "a.txt" "text/plain" (Some "1") None None.

Definition b_txt : DriveFile :=
  mkDriveFile "3" "b.txt" "text/plain" (Some "1") None None.

End Runs.

(** ** The configuration of a synchronisation *)

Section Configure.
Import ConfigureFolderSync.

(** The requests of a list of calls, without the answers. *)
Definition asked_files (l : list Call) : list (option string) :=
  map (fun c => match c with
                | called_getFile fileId _ => Some fileId
                | called_listFilesInPage _ _ => None
                end) l.

Definition is_folder (file : SourceFile) : bool :=
  match mimeType file with
  | Some m => String.eqb m folderMimeType
  | None => false
  end.

(** The folders that the answers to [getFile] requests give, taking all
    the items answered or those of the type of the folders only. *)
Definition answered (check : bool) (origin : string) (l : list Call)
  : list Folder :=
  flat_map (fun c => match c with
                     | called_getFile _ (ok file) =>
                         if negb check || is_folder file
                         then [folderOf (id file) (name file) origin
                                        (parents file)]
                         else []
                     | _ => []
                     end) l.

(** The folders that the answers to the searches by name give. *)
Definition found_by_name (l : list Call) : list Folder :=
  flat_map (fun c => match c with
                     | called_listFilesInPage _ (ok (Some files)) =>
                         map (fun file =>
                                folderOf (id file) (name file)
                                         "folder_name_search" (parents file))
                             files
                     | _ => []
                     end) l.

(** The searches of a list of calls, without the answers. *)
Definition searches (l : list Call) : list (option Search) :=
  map (fun c => match c with
                | called_listFilesInPage opts _ => Some (q opts)
                | called_getFile _ _ => None
                end) l.

(** The props select nothing: the method is not [entire_drive], and the
    list that goes with the method, if it is one of the three others, is
    missing or empty. *)
Definition nothing_selected (props : Props) : Prop :=
  folder_selection_method props <> "entire_drive"
  /\ (folder_selection_method props = "individual" ->
      nonempty (source_folders props) = false)
  /\ (folder_selection_method props = "folder_ids" ->
      nonempty (source_folder_ids props) = false)
  /\ (folder_selection_method props = "folder_names" ->
      nonempty (source_folder_names props) = false).

(** A store with one folder [F] and one document [d]. *)
Definition small_store : Store unit :=
  mkStore unit
    (fun _ _ w =>
       (ok (Some [mkSourceFile "F" "Reports" (Some ["root"]) None]), w))
    (fun fileId _ w =>
       (if String.eqb fileId "F"
        then ok (mkSourceFile "F" "Reports" (Some ["root"])
                              (Some folderMimeType))
        else if String.eqb fileId "d"
        then ok (mkSourceFile "d" "notes" (Some ["F"]) (Some "text/plain"))
        else thrown ("File not found: " ++ fileId),
        w))
    (fun w => ("2024-01-01T00:00:00.000Z", w)).

Definition ids_props (method : string) (ids : list string) : Props :=
  mkProps "My Drive" method (Some ids) (Some ids) (Some ids) None
          true true false.

End Configure.

End MoreNotions.


(** * Properties *)

(** ** Facts on the runtime pieces *)

Module JsFacts.
Import Js Notions.

Lemma get_set {V} (k k' : string) (v : V) (m : Map V) :
  get k (set k' v m) = if String.eqb k' k then Some v else get k m.
Proof.
  induction m as [|[k0 v0] m IH]; simpl.
  - reflexivity.
  - destruct (String.eqb k0 k') eqn:E0; simpl.
    + apply String.eqb_eq in E0. rewrite E0.
      destruct (String.eqb k' k); reflexivity.
    + destruct (String.eqb k0 k) eqn:E1.
      * apply String.eqb_eq in E1. rewrite <- E1, String.eqb_sym, E0.
        reflexivity.
      * exact IH.
Qed.

Lemma keys_set {V} (k : string) (v : V) (m : Map V) (k' : string) :
  In k' (keys (set k v m)) <-> k' = k \/ In k' (keys m).
Proof.
  induction m as [|[k0 v0] m IH]; simpl.
  - intuition.
  - destruct (String.eqb k0 k) eqn:E; simpl.
    + apply String.eqb_eq in E; subst k0. intuition.
    + unfold keys in IH. rewrite IH. intuition.
Qed.

Lemma NoDup_keys_set {V} (k : string) (v : V) (m : Map V) :
  NoDup (keys m) -> NoDup (keys (set k v m)).
Proof.
  induction m as [|[k0 v0] m IH]; simpl; intros H.
  - constructor; [intros []|constructor].
  - inversion H as [|? ? Hn Hd]; subst.
    destruct (String.eqb k0 k) eqn:E; simpl.
    + constructor; assumption.
    + constructor; [|apply IH; assumption].
      intros Hin. apply (keys_set k v m k0) in Hin. destruct Hin as [->|Hin].
      * rewrite String.eqb_refl in E. discriminate.
      * apply Hn. exact Hin.
Qed.

Lemma get_None_keys {V} (k : string) (m : Map V) :
  get k m = None <-> ~ In k (keys m).
Proof.
  induction m as [|[k0 v0] m IH]; simpl.
  - intuition.
  - destruct (String.eqb k0 k) eqn:E.
    + apply String.eqb_eq in E. split; [discriminate|]. intros H. elim H. auto.
    + apply String.eqb_neq in E. rewrite IH. unfold keys. intuition.
Qed.

Lemma get_Some_In {V} (k : string) (v : V) (m : Map V) :
  get k m = Some v -> In (k, v) m.
Proof.
  induction m as [|[k0 v0] m IH]; simpl; [discriminate|].
  destruct (String.eqb k0 k) eqn:E.
  - apply String.eqb_eq in E. intros [= ->]. subst. auto.
  - auto.
Qed.

Lemma has_true_keys {V} (k : string) (m : Map V) :
  has k m = true <-> In k (keys m).
Proof.
  unfold has. destruct (get k m) eqn:E.
  - split; [intros _|reflexivity].
    apply get_Some_In in E. apply (in_map fst) in E. exact E.
  - split; [discriminate|]. intros H. apply get_None_keys in E. contradiction.
Qed.

Lemma index_cons {A} (key : A -> string) (x : A) (l : list A) (m : Map A) :
  index key (x :: l) m = index key l (set (key x) x m).
Proof. reflexivity. Qed.

Lemma keys_index {A} (key : A -> string) (l : list A) (m : Map A) (k : string) :
  In k (keys (index key l m)) <-> In k (keys m) \/ In k (map key l).
Proof.
  revert m. induction l as [|x l IH]; intros m.
  - simpl. intuition.
  - rewrite index_cons, IH, keys_set. simpl. intuition.
Qed.

Lemma NoDup_keys_index {A} (key : A -> string) (l : list A) (m : Map A) :
  NoDup (keys m) -> NoDup (keys (index key l m)).
Proof.
  revert m. induction l as [|x l IH]; intros m H; [exact H|].
  rewrite index_cons. apply IH, NoDup_keys_set, H.
Qed.

(** Last write wins: the value at a key is the last element of the list
    with that key. *)
Lemma get_index {A} (key : A -> string) (l : list A) (m : Map A) (k : string) :
  get k (index key l m) =
  match find (fun x => String.eqb (key x) k) (List.rev l) with
  | Some x => Some x
  | None => get k m
  end.
Proof.
  revert m. induction l as [|x l IH]; intros m; [reflexivity|].
  rewrite index_cons, IH. simpl List.rev.
  assert (Hf : forall l1 : list A,
             find (fun x => String.eqb (key x) k) (l1 ++ [x]) =
             match find (fun x => String.eqb (key x) k) l1 with
             | Some y => Some y
             | None => if String.eqb (key x) k then Some x else None
             end).
  { induction l1 as [|y l1 IH1]; simpl; [reflexivity|].
    destruct (String.eqb (key y) k); [reflexivity|exact IH1]. }
  rewrite Hf, get_set.
  destruct (find _ (List.rev l)); [reflexivity|].
  destruct (String.eqb (key x) k); reflexivity.
Qed.

Lemma index_key_ok {A} (key : A -> string) (l : list A) (m : Map A) :
  Forall (fun kv => key (snd kv) = fst kv) m ->
  Forall (fun kv => key (snd kv) = fst kv) (index key l m).
Proof.
  revert m. induction l as [|x l IH]; intros m H; [exact H|].
  rewrite index_cons. apply IH. clear IH. induction m as [|[k0 v0] m IHm]; simpl.
  - constructor; [reflexivity|constructor].
  - inversion H; subst. destruct (String.eqb k0 (key x)) eqn:E.
    + apply String.eqb_eq in E. constructor; [simpl; auto|assumption].
    + constructor; [assumption|apply IHm; assumption].
Qed.

Section Sort.
Context {A : Type} (key : A -> Z).

Let cmp (a b : A) : Z := (key a - key b)%Z.
Let le (a b : A) : Prop := (key a <= key b)%Z.

Lemma sort_insert_perm (x : A) (l : list A) :
  Permutation (sort_insert cmp x l) (x :: l).
Proof.
  induction l as [|y l IH]; simpl; [reflexivity|].
  destruct (cmp x y <=? 0)%Z; [reflexivity|].
  rewrite IH. apply perm_swap.
Qed.

Lemma sort_perm (l : list A) : Permutation (sort cmp l) l.
Proof.
  induction l as [|x l IH]; simpl; [reflexivity|].
  rewrite sort_insert_perm, IH. reflexivity.
Qed.

Lemma sort_insert_sorted (x : A) (l : list A) :
  StronglySorted le l -> StronglySorted le (sort_insert cmp x l).
Proof.
  induction 1 as [|y l Hs IH Hy]; simpl.
  - repeat constructor.
  - destruct (cmp x y <=? 0)%Z eqn:E.
    + apply Z.leb_le in E. unfold cmp in E.
      constructor; [constructor; assumption|].
      constructor; [unfold le; lia|].
      rewrite Forall_forall in *. intros z Hz. specialize (Hy z Hz).
      unfold le in *. lia.
    + apply Z.leb_gt in E. unfold cmp in E.
      constructor; [exact IH|].
      rewrite Forall_forall in *. intros z Hz.
      apply (Permutation_in _ (sort_insert_perm x l)) in Hz.
      destruct Hz as [<-|Hz]; [unfold le; lia|auto].
Qed.

Lemma sort_sorted (l : list A) : StronglySorted le (sort cmp l).
Proof.
  induction l as [|x l IH]; simpl; [constructor|].
  apply sort_insert_sorted, IH.
Qed.

Lemma sort_insert_stable (p : Z) (x : A) (l : list A) :
  filter (fun a => (key a =? p)%Z) (sort_insert cmp x l)
  = filter (fun a => (key a =? p)%Z) (x :: l).
Proof.
  induction l as [|y l IH]; [reflexivity|].
  cbn [sort_insert]. destruct (cmp x y <=? 0)%Z eqn:E; [reflexivity|].
  apply Z.leb_gt in E. unfold cmp in E.
  cbn [filter] in *. rewrite IH.
  destruct (key x =? p)%Z eqn:Ex, (key y =? p)%Z eqn:Ey; try reflexivity.
  apply Z.eqb_eq in Ex, Ey. lia.
Qed.

Lemma sort_stable (p : Z) (l : list A) :
  filter (fun a => (key a =? p)%Z) (sort cmp l)
  = filter (fun a => (key a =? p)%Z) l.
Proof.
  induction l as [|x l IH]; [reflexivity|].
  cbn [sort]. rewrite sort_insert_stable. cbn [filter]. rewrite IH.
  reflexivity.
Qed.

Lemma sorted_nth_lt (l : list A) (i j : nat) (a b : A) :
  StronglySorted le l ->
  nth_error l i = Some a -> nth_error l j = Some b ->
  (key a < key b)%Z -> (i < j)%nat.
Proof.
  intros Hs. revert i j. induction Hs as [|y l Hs IH Hy]; intros i j Hi Hj Hlt.
  - destruct i; discriminate.
  - destruct i as [|i], j as [|j]; simpl in *.
    + injection Hi as <-. injection Hj as <-. lia.
    + lia.
    + injection Hj as <-. apply nth_error_In in Hi.
      rewrite Forall_forall in Hy. specialize (Hy _ Hi). unfold le in Hy. lia.
    + apply -> Nat.succ_lt_mono. eapply IH; eassumption.
Qed.

End Sort.

End JsFacts.

(** ** compare_folders: the comparison *)

Module CompareFacts.
Import Js JsFacts GoogleDrive CompareFolders Notions.

Lemma perm_push1 {A} (x : A) (a b c d : list A) :
  Permutation ((a ++ [x]) ++ b ++ c ++ d) (x :: a ++ b ++ c ++ d).
Proof.
  rewrite <- app_assoc. simpl. symmetry. apply Permutation_middle.
Qed.

Lemma perm_push2 {A} (x : A) (a b c d : list A) :
  Permutation (a ++ (b ++ [x]) ++ c ++ d) (x :: a ++ b ++ c ++ d).
Proof.
  rewrite <- (app_assoc b). simpl. rewrite !(app_assoc a b).
  symmetry. apply Permutation_middle.
Qed.

Lemma perm_push3 {A} (x : A) (a b c d : list A) :
  Permutation (a ++ b ++ (c ++ [x]) ++ d) (x :: a ++ b ++ c ++ d).
Proof.
  rewrite <- (app_assoc c). simpl.
  rewrite !(app_assoc a b), !(app_assoc (a ++ b) c).
  symmetry. apply Permutation_middle.
Qed.

Lemma perm_push4 {A} (x : A) (a b c d : list A) :
  Permutation (a ++ b ++ c ++ d ++ [x]) (x :: a ++ b ++ c ++ d).
Proof.
  rewrite !app_assoc. symmetry. apply Permutation_cons_append.
Qed.

Section WithDate.
Variable Date_parse : string -> option Z.

Lemma classify_paths (dm : Map Entry) (cc : bool) (c : Comparison)
      (kv : string * Entry) :
  Permutation (bucket_paths (classify Date_parse dm cc c kv))
              (path (snd kv) :: bucket_paths c).
Proof.
  unfold classify, bucket_paths.
  destruct (get (fst kv) dm) as [d|].
  - destruct (isFileModified Date_parse (snd kv) d cc); simpl;
      rewrite map_app; simpl.
    + apply perm_push2.
    + apply perm_push4.
  - simpl. rewrite map_app. simpl. apply perm_push1.
Qed.

Lemma classify_fold_paths (dm : Map Entry) (cc : bool) (m : Map Entry)
      (c : Comparison) :
  Permutation (bucket_paths (fold_left (classify Date_parse dm cc) m c))
              (bucket_paths c ++ map (fun kv => path (snd kv)) m).
Proof.
  revert c. induction m as [|kv m IH]; intros c; simpl.
  - rewrite app_nil_r. reflexivity.
  - rewrite IH. rewrite classify_paths. simpl.
    apply (Permutation_middle (bucket_paths c)).
Qed.

Lemma classifyDeletion_fold_paths (sm m : Map Entry) (c : Comparison) :
  Permutation
    (bucket_paths (fold_left (classifyDeletion sm) m c))
    (bucket_paths c
     ++ map (fun kv => path (snd kv))
            (filter (fun kv => negb (has (fst kv) sm)) m)).
Proof.
  revert c. induction m as [|kv m IH]; intros c; simpl.
  - rewrite app_nil_r. reflexivity.
  - rewrite IH. unfold classifyDeletion.
    destruct (negb (has (fst kv) sm)); [|reflexivity].
    simpl. unfold bucket_paths at 1. simpl. rewrite map_app. simpl.
    rewrite perm_push3. apply (Permutation_middle (bucket_paths c)).
Qed.

Lemma key_ok_paths (m : Map Entry) :
  Forall (fun kv => path (snd kv) = fst kv) m ->
  map (fun kv => path (snd kv)) m = keys m.
Proof.
  induction 1 as [|kv m H _ IH]; simpl; [reflexivity|].
  rewrite H. f_equal. exact IH.
Qed.

Lemma compareFiles_paths (A B : list Entry) (cc : bool) :
  Permutation
    (bucket_paths (compareFiles Date_parse A B cc))
    (keys (index path A [])
     ++ filter (fun k => negb (has k (index path A [])))
               (keys (index path B []))).
Proof.
  unfold compareFiles.
  change (fold_left (fun m file => set (path file) file m) A [])
    with (index path A []).
  change (fold_left (fun m file => set (path file) file m) B [])
    with (index path B []).
  rewrite classifyDeletion_fold_paths, classify_fold_paths. simpl.
  assert (HA := index_key_ok path A [] (Forall_nil _)).
  assert (HB := index_key_ok path B [] (Forall_nil _)).
  rewrite (key_ok_paths _ HA).
  apply Permutation_app_head.
  assert (HF : Forall (fun kv => path (snd kv) = fst kv)
                      (filter (fun kv => negb (has (fst kv) (index path A [])))
                              (index path B []))).
  { rewrite Forall_forall in *. intros kv Hin. apply filter_In in Hin.
    apply HB, Hin. }
  rewrite (key_ok_paths _ HF). unfold keys.
  clear. induction (index path B []) as [|kv m IH]; simpl; [reflexivity|].
  destruct (negb (has (fst kv) (index path A []))); simpl; rewrite IH;
    reflexivity.
Qed.

Lemma classify_fold_sides (dm : Map Entry) (cc : bool) (m : Map Entry)
      (c : Comparison) :
  (forall e, In e (source_side (fold_left (classify Date_parse dm cc) m c)) ->
             In e (source_side c) \/ In e (map snd m)) /\
  (forall e, In e (destination_side
                     (fold_left (classify Date_parse dm cc) m c)) ->
             In e (destination_side c) \/ exists k, get k dm = Some e).
Proof.
  revert c. induction m as [|kv m IH]; intros c; simpl; [auto|].
  destruct (IH (classify Date_parse dm cc c kv)) as [IH1 IH2]. clear IH.
  split; intros e He.
  - apply IH1 in He. destruct He as [He|He]; [|auto].
    revert He. unfold classify, source_side.
    destruct (get (fst kv) dm) as [d|];
      [destruct (isFileModified Date_parse (snd kv) d cc)|]; simpl;
      rewrite ?map_app, ?in_app_iff; simpl; intuition.
  - apply IH2 in He. destruct He as [He|He]; [|auto].
    revert He. unfold classify, destination_side.
    destruct (get (fst kv) dm) as [d|] eqn:E;
      [destruct (isFileModified Date_parse (snd kv) d cc)|]; simpl;
      rewrite ?map_app, ?in_app_iff; simpl; try tauto.
    intros [[H|[H|[]]]|H]; try tauto. subst e. right. eauto.
Qed.

Lemma classifyDeletion_fold_sides (sm m : Map Entry) (c : Comparison) :
  source_side (fold_left (classifyDeletion sm) m c) = source_side c /\
  (forall e, In e (destination_side (fold_left (classifyDeletion sm) m c)) ->
             In e (destination_side c) \/ In e (map snd m)).
Proof.
  revert c. induction m as [|kv m IH]; intros c; simpl; [auto|].
  destruct (IH (classifyDeletion sm c kv)) as [IH1 IH2]. clear IH.
  split.
  - rewrite IH1. unfold classifyDeletion.
    destruct (negb (has (fst kv) sm)); reflexivity.
  - intros e He. apply IH2 in He. destruct He as [He|He]; [|auto].
    revert He. unfold classifyDeletion, destination_side.
    destruct (negb (has (fst kv) sm)); simpl;
      rewrite ?in_app_iff; simpl; intuition.
Qed.

Lemma classify_fold_modifications (dm : Map Entry) (cc : bool)
      (m : Map Entry) (c : Comparison) (x : Modification) :
  In x (modifications (fold_left (classify Date_parse dm cc) m c)) ->
  In x (modifications c)
  \/ exists k, In (k, source x) m /\ get k dm = Some (destination x)
               /\ isFileModified Date_parse (source x) (destination x) cc
                  = Some (reason x).
Proof.
  revert c. induction m as [|kv m IH]; intros c; simpl; [auto|].
  intros H. apply IH in H. destruct H as [H|(k & H1 & H2)]; [|eauto].
  revert H. unfold classify.
  destruct (get (fst kv) dm) as [d|] eqn:E;
    [destruct (isFileModified Date_parse (snd kv) d cc) eqn:Em|]; simpl;
    auto.
  rewrite in_app_iff. simpl. intros [H|[<-|[]]]; [auto|]. right.
  exists (fst kv). simpl. rewrite <- surjective_pairing. auto.
Qed.

Lemma classifyDeletion_fold_modifications (sm m : Map Entry) (c : Comparison) :
  modifications (fold_left (classifyDeletion sm) m c) = modifications c.
Proof.
  revert c. induction m as [|kv m IH]; intros c; simpl; [reflexivity|].
  rewrite IH. unfold classifyDeletion.
  destruct (negb (has (fst kv) sm)); reflexivity.
Qed.

Lemma In_index_last (l : list Entry) (k : string) (e : Entry) :
  In (k, e) (index path l []) ->
  find (fun x => String.eqb (path x) (path e)) (List.rev l) = Some e.
Proof.
  intros Hin.
  assert (Hk := index_key_ok path l [] (Forall_nil _)).
  rewrite Forall_forall in Hk. specialize (Hk _ Hin). simpl in Hk. subst k.
  assert (Hnd := NoDup_keys_index path l [] (NoDup_nil _)).
  assert (Hget : get (path e) (index path l []) = Some e).
  { revert Hnd Hin. generalize (index path l []). intros m.
    induction m as [|[k0 v0] m IHm]; simpl; [intros _ []|].
    intros Hnd [H|H].
    - inversion H; subst. rewrite String.eqb_refl. reflexivity.
    - inversion Hnd as [|? ? Hn Hd]; subst.
      destruct (String.eqb k0 (path e)) eqn:E; [|auto].
      apply String.eqb_eq in E. subst k0. elim Hn.
      apply (in_map fst) in H. exact H. }
  rewrite get_index in Hget. simpl in Hget.
  destruct (find _ (List.rev l)); [exact Hget|discriminate].
Qed.

End WithDate.

(** C1.  The four buckets of [compareFiles] partition the paths of the two
    lists: taken together they hold no path twice (so a path is in one
    bucket only, and once), and they hold exactly the paths that occur in
    the source list or in the destination list.  The maps are keyed by path
    with the last entry winning: an entry a bucket holds is the last one of
    its list with that path, and the two sides of a modification have the
    same path and are judged modified, for the reasons recorded. *)
Theorem compareFiles_partition (Date_parse : string -> option Z)
        (A B : list Entry) (deepCompare : bool) :
  let c := compareFiles Date_parse A B deepCompare in
  NoDup (bucket_paths c) /\
  (forall p, In p (bucket_paths c) <-> In p (map path A) \/ In p (map path B)) /\
  (forall e, In e (source_side c) ->
     find (fun x => String.eqb (path x) (path e)) (List.rev A) = Some e) /\
  (forall e, In e (destination_side c) ->
     find (fun x => String.eqb (path x) (path e)) (List.rev B) = Some e) /\
  (forall m, In m (modifications c) ->
     path (source m) = path (destination m)
     /\ isFileModified Date_parse (source m) (destination m) deepCompare
        = Some (reason m)).
Proof.
  intros c.
  pose proof (compareFiles_paths Date_parse A B deepCompare) as HP.
  fold c in HP.
  assert (HA := NoDup_keys_index path A [] (NoDup_nil _)).
  assert (HB := NoDup_keys_index path B [] (NoDup_nil _)).
  split; [|split; [|split; [|split]]].
  - apply (Permutation_NoDup (Permutation_sym HP)).
    apply NoDup_app; [exact HA|apply NoDup_filter, HB|].
    intros k Hk Hf. apply filter_In in Hf. destruct Hf as [_ Hf].
    apply (has_true_keys k) in Hk. rewrite Hk in Hf. discriminate.
  - intros p. split.
    + intros H. apply (Permutation_in _ HP) in H.
      apply in_app_iff in H. destruct H as [H|H].
      * apply keys_index in H. simpl in H. tauto.
      * apply filter_In in H. destruct H as [H _].
        apply keys_index in H. simpl in H. tauto.
    + intros H. apply (Permutation_in _ (Permutation_sym HP)).
      apply in_app_iff.
      destruct (has p (index path A [])) eqn:E.
      * left. apply has_true_keys. exact E.
      * destruct H as [H|H].
        -- assert (In p (keys (index path A []))) as H'
              by (apply keys_index; auto).
           apply has_true_keys in H'. congruence.
        -- right. apply filter_In. split; [apply keys_index; auto|].
           rewrite E. reflexivity.
  - intros e He. unfold c, compareFiles in He.
    rewrite (proj1 (classifyDeletion_fold_sides _ _ _)) in He.
    apply classify_fold_sides in He. destruct He as [[]|He].
    apply in_map_iff in He. destruct He as [[k e'] [<- He]].
    apply (In_index_last A k e'). exact He.
  - intros e He. unfold c, compareFiles in He.
    apply classifyDeletion_fold_sides in He. destruct He as [He|He].
    + apply classify_fold_sides in He. destruct He as [[]|[k He]].
      apply get_Some_In in He. apply (In_index_last B k e). exact He.
    + apply in_map_iff in He. destruct He as [[k e'] [<- He]].
      apply (In_index_last B k e'). exact He.
  - intros m Hm. unfold c, compareFiles in Hm.
    rewrite classifyDeletion_fold_modifications in Hm.
    apply classify_fold_modifications in Hm.
    destruct Hm as [[]|(k & H1 & H2 & H3)]. split; [|exact H3].
    assert (KA := index_key_ok path A [] (Forall_nil _)).
    assert (KB := index_key_ok path B [] (Forall_nil _)).
    rewrite Forall_forall in KA, KB.
    apply get_Some_In in H2.
    specialize (KA _ H1). specialize (KB _ H2). simpl in KA, KB. congruence.
Qed.

Lemma option_string_eqb_eq (a b : option string) :
  option_string_eqb a b = true <-> a = b.
Proof.
  destruct a as [x|], b as [y|]; simpl; try (split; congruence).
  rewrite String.eqb_eq. split; congruence.
Qed.

Lemma truthy_Some (v : option string) :
  truthy v = true <-> exists s, v = Some s /\ s <> "".
Proof.
  destruct v as [s|]; simpl.
  - rewrite negb_true_iff. split.
    + intros H. exists s. split; [reflexivity|].
      apply String.eqb_neq. exact H.
    + intros [s' [[= <-] H]]. apply String.eqb_neq. exact H.
  - split; [discriminate|]. intros [s [H _]]. discriminate.
Qed.

Lemma tags_isFileModified (Date_parse : string -> option Z) (s d : Entry)
      (deepCompare : bool) :
  tags (isFileModified Date_parse s d deepCompare) =
  reasons Date_parse s d deepCompare.
Proof.
  unfold isFileModified.
  destruct (reasons Date_parse s d deepCompare); reflexivity.
Qed.

(** C2.  The reasons of [isFileModified] are three independent tests whose
    tags add up: [newer_modification_time] is reported exactly when the
    time value of the source's date is strictly greater than the one of the
    destination's, [different_size] exactly when the sizes differ,
    [different_content] exactly when the deep comparison is on, both sides
    have a non-empty checksum and the two differ; the answer is [false]
    (unchanged) exactly when no test fires. *)
Theorem isFileModified_reasons (Date_parse : string -> option Z)
        (s d : Entry) (deepCompare : bool) :
  let r := isFileModified Date_parse s d deepCompare in
  let newer := exists ts td : Z,
      newDate Date_parse (modifiedTime s) = Some ts /\
      newDate Date_parse (modifiedTime d) = Some td /\ (td < ts)%Z in
  let resized := size s <> size d in
  let rehashed := deepCompare = true /\
      exists hs hd : string,
        md5Checksum s = Some hs /\ md5Checksum d = Some hd /\
        hs <> "" /\ hd <> "" /\ hs <> hd in
  (In newer_modification_time (tags r) <-> newer) /\
  (In different_size (tags r) <-> resized) /\
  (In different_content (tags r) <-> rehashed) /\
  (r = None <-> ~ newer /\ ~ resized /\ ~ rehashed) /\
  (deepCompare = false -> ~ In different_content (tags r)) /\
  NoDup (tags r).
Proof.
  intros r newer resized rehashed.
  assert (Hn : num_gt (newDate Date_parse (modifiedTime s))
                      (newDate Date_parse (modifiedTime d)) = true <-> newer).
  { unfold newer, num_gt.
    destruct (newDate Date_parse (modifiedTime s)) as [ts|];
      destruct (newDate Date_parse (modifiedTime d)) as [td|];
      try (split; [discriminate|intros (? & ? & ? & ? & ?); discriminate]).
    rewrite Z.ltb_lt. split.
    - intros H. exists ts, td. auto.
    - intros (? & ? & [= <-] & [= <-] & H). exact H. }
  assert (Hs : negb (option_string_eqb (size s) (size d)) = true <-> resized).
  { unfold resized. rewrite negb_true_iff, <- not_true_iff_false,
      option_string_eqb_eq. reflexivity. }
  assert (Hc : (deepCompare && truthy (md5Checksum s)
                && truthy (md5Checksum d)
                && negb (option_string_eqb (md5Checksum s) (md5Checksum d)))
               = true <-> rehashed).
  { unfold rehashed.
    rewrite !andb_true_iff, negb_true_iff, <- not_true_iff_false,
      option_string_eqb_eq, !truthy_Some. split.
    - intros [[[H1 (hs & H2 & H3)] (hd & H4 & H5)] H6].
      split; [exact H1|]. exists hs, hd. repeat split; try assumption.
      intros ->. apply H6. congruence.
    - intros [H1 (hs & hd & H2 & H3 & H4 & H5 & H6)].
      repeat split; eauto. rewrite H2, H3. congruence. }
  unfold r. rewrite tags_isFileModified.
  assert (Hr : isFileModified Date_parse s d deepCompare = None <->
               reasons Date_parse s d deepCompare = []).
  { unfold isFileModified.
    destruct (reasons Date_parse s d deepCompare); simpl;
      split; congruence. }
  rewrite Hr, <- Hn, <- Hs, <- Hc. clear Hr Hn Hs Hc. unfold reasons.
  destruct (num_gt _ _);
    destruct (negb (option_string_eqb (size s) (size d)));
    destruct deepCompare;
    destruct (truthy (md5Checksum s));
    destruct (truthy (md5Checksum d));
    destruct (negb (option_string_eqb (md5Checksum s) (md5Checksum d)));
    simpl;
    (split; [|split; [|split; [|split; [|split]]]]);
    try (repeat constructor; simpl; intuition congruence);
    intuition (try discriminate; try congruence).
Qed.

End CompareFacts.

(** ** compare_folders: the enumeration *)

Module EnumerateFacts.
Import Js GoogleDrive CompareFolders Notions.

Example nested_tree_enumeration :
  option_map (map (fun e => (path e, isFolder e)))
             (getAllFilesInFolder nested_tree true "")
  = Some [("X", true); ("a.txt", false); ("X/Y", true)].
Proof. reflexivity. Qed.

(** C3, as stated, fails: in the enumeration of [nested_tree] the file
    [a.txt] stands before the folder [X/Y]. *)
Lemma getAllFilesInFolder_not_folders_first :
  exists l, getAllFilesInFolder nested_tree true "" = Some l /\
            ~ folders_first l.
Proof.
  eexists. split; [reflexivity|].
  intros H.
  specialize (H 1%nat 2%nat _ _ eq_refl eq_refl eq_refl eq_refl). lia.
Qed.

Section Loops.
Variable recurse : RemoteNode -> string -> option (list Entry).
Variable includeSubfolders : bool.
Variable basePath : string.

Lemma forLoop_folders (children : list RemoteNode)
      (folders files folders' files' : list Entry) :
  forLoop recurse includeSubfolders basePath children folders files
  = Some (folders', files') ->
  folders' = folders
             ++ filter isFolder
                  (map (fun n => fileData basePath (node_file n)) children)
  /\ (includeSubfolders = false ->
      files' = files
               ++ filter (fun e => negb (isFolder e))
                    (map (fun n => fileData basePath (node_file n)) children)).
Proof.
  revert folders files. induction children as [|child rest IH];
    intros folders files; simpl.
  - intros [= <- <-]. rewrite !app_nil_r. auto.
  - destruct (String.eqb (file_mimeType (node_file child)) folderMimeType)
      eqn:E; simpl.
    + destruct includeSubfolders.
      * destruct (recurse child _) as [sub|]; [|discriminate].
        intros H. apply IH in H. destruct H as [H _].
        rewrite <- app_assoc in H. split; [exact H|discriminate].
      * intros H. apply IH in H. destruct H as [H1 H2].
        rewrite <- app_assoc in H1. auto.
    + intros H. apply IH in H. destruct H as [H1 H2]. split; [exact H1|].
      intros Hi. rewrite (H2 Hi), <- app_assoc. reflexivity.
Qed.

Lemma pageLoop_folders (pages : list (option (list RemoteNode)))
      (folders files l : list Entry) :
  pageLoop recurse includeSubfolders basePath pages folders files = Some l ->
  let direct :=
    map (fun n => fileData basePath (node_file n))
        (List.concat (map (fun p => match p with Some c => c | None => [] end)
                     pages)) in
  (exists rest, l = (folders ++ filter isFolder direct) ++ rest) /\
  (includeSubfolders = false ->
   l = (folders ++ filter isFolder direct)
       ++ files ++ filter (fun e => negb (isFolder e)) direct).
Proof.
  revert folders files. induction pages as [|[children|] more IH];
    intros folders files; simpl; [| |discriminate].
  - intros [= <-]. rewrite !app_nil_r. split; [|reflexivity].
    exists files. reflexivity.
  - destruct (forLoop _ _ _ children folders files) as [[fo fi]|] eqn:E;
      [|discriminate].
    apply forLoop_folders in E. destruct E as [E1 E2]. intros H.
    apply IH in H. destruct H as [[rest H1] H2].
    rewrite map_app, !filter_app, app_assoc, <- E1. split.
    + exists rest. exact H1.
    + intros Hi. rewrite (H2 Hi), (E2 Hi), <- !app_assoc. reflexivity.
Qed.

End Loops.

Lemma folders_first_app (fs rest : list Entry) :
  Forall (fun e => isFolder e = true) fs ->
  Forall (fun e => isFolder e = false) rest ->
  folders_first (fs ++ rest).
Proof.
  intros Hfs Hrest i j f e Hi Hj Hf He.
  rewrite Forall_forall in Hfs, Hrest.
  destruct (Nat.lt_ge_cases i (List.length fs)) as [Hlt|Hge].
  - rewrite nth_error_app1 in Hi by exact Hlt.
    apply nth_error_In, Hfs in Hi. congruence.
  - destruct (Nat.lt_ge_cases j (List.length fs)) as [Hlt'|Hge']; [lia|].
    rewrite nth_error_app2 in Hj by exact Hge'.
    apply nth_error_In, Hrest in Hj. congruence.
Qed.

Lemma getAllFilesInFolder_eq (file : DriveFile)
      (firstPage : option (list RemoteNode))
      (nextPages : list (option (list RemoteNode)))
      (includeSubfolders : bool) (basePath : string) :
  getAllFilesInFolder (RNode file firstPage nextPages) includeSubfolders
                      basePath
  = pageLoop (fun child p => getAllFilesInFolder child includeSubfolders p)
             includeSubfolders basePath (firstPage :: nextPages) [] [].
Proof. reflexivity. Qed.

(** C3, amended.  In the list [getAllFilesInFolder] returns, the folders
    listed directly under the enumerated folder come first, in the order
    of the listing, before every other entry; and when the enumeration is
    not recursive, no file entry stands before a folder entry. *)
Theorem getAllFilesInFolder_direct_folders_first
        (folder : RemoteNode) (includeSubfolders : bool) (basePath : string)
        (l : list Entry) :
  getAllFilesInFolder folder includeSubfolders basePath = Some l ->
  (exists rest, l = direct_folders basePath folder ++ rest) /\
  Forall (fun e => isFolder e = true) (direct_folders basePath folder) /\
  (includeSubfolders = false -> folders_first l).
Proof.
  destruct folder as [file firstPage nextPages].
  rewrite getAllFilesInFolder_eq. intros H.
  apply pageLoop_folders in H. cbv zeta in H. rewrite app_nil_l in H.
  destruct H as [H1 H2].
  assert (HF : Forall (fun e => isFolder e = true)
                      (direct_folders basePath
                                      (RNode file firstPage nextPages))).
  { apply Forall_forall. intros e He. apply filter_In in He. apply He. }
  split; [exact H1|]. split; [exact HF|].
  intros Hi. rewrite (H2 Hi). apply folders_first_app; [exact HF|].
  apply Forall_forall. intros e He. apply filter_In in He.
  destruct He as [_ He]. apply negb_true_iff in He. exact He.
Qed.

Lemma getAllFilesInFolder_direct_folders_first_witness :
  getAllFilesInFolder nested_tree true "" <> None /\
  exists l, getAllFilesInFolder nested_tree true "" = Some l /\
            exists rest, l = direct_folders "" nested_tree ++ rest.
Proof.
  split; [discriminate|]. eexists. split; [reflexivity|].
  exact (proj1 (getAllFilesInFolder_direct_folders_first
                  nested_tree true "" _ eq_refl)).
Defined.

End EnumerateFacts.

(** ** compare_folders: the plan *)

Module PlanFacts.
Import Js JsFacts GoogleDrive CompareFolders Notions.

Lemma In_syncActions (c : Comparison) (a : SyncAction) :
  In a (syncActions c) <->
  match a with
  | create file p =>
      In file (additions c) /\ p = (if isFolder file then 1 else 2)%Z
  | update s d r p =>
      In (mkModification s d r) (modifications c)
      /\ p = (if isFolder s then 1 else 2)%Z
  | delete file p =>
      In file (deletions c) /\ p = (if isFolder file then 3 else 2)%Z
  end.
Proof.
  unfold syncActions. rewrite !in_app_iff, !in_map_iff. split.
  - intros [(f & <- & H)|[(m & <- & H)|(f & <- & H)]];
      [auto|destruct m; auto|auto].
  - destruct a as [f p|s d r p|f p]; intros [H ->].
    + left. eauto.
    + right. left. exists (mkModification s d r). auto.
    + right. right. eauto.
Qed.

(** C9.  Every action of the plan comes from the comparison with the
    priority of its class: 1 for the addition or the modification of a
    folder, 2 for the addition, the modification or the deletion of a file,
    3 for the deletion of a folder.  The plan holds the actions of the
    comparison, sorted by non-decreasing priority, those of one priority in
    the order additions, modifications, deletions of the comparison.  So
    the creation of a folder that is an addition stands strictly before the
    creation of a file that is an addition. *)
Theorem generateSyncPlan_order (c : Comparison) :
  let plan := generateSyncPlan c in
  (forall a, In a plan <->
     match a with
     | create file p =>
         In file (additions c) /\ p = (if isFolder file then 1 else 2)%Z
     | update s d r p =>
         In (mkModification s d r) (modifications c)
         /\ p = (if isFolder s then 1 else 2)%Z
     | delete file p =>
         In file (deletions c) /\ p = (if isFolder file then 3 else 2)%Z
     end) /\
  Permutation plan (syncActions c) /\
  StronglySorted (fun a b => (priority a <= priority b)%Z) plan /\
  (forall p, filter (fun a => (priority a =? p)%Z) plan
             = filter (fun a => (priority a =? p)%Z) (syncActions c)) /\
  (forall F f, In F (additions c) -> In f (additions c) ->
     isFolder F = true -> isFolder f = false ->
     In (create F 1) plan /\ In (create f 2) plan /\
     forall i j pF pf,
       nth_error plan i = Some (create F pF) ->
       nth_error plan j = Some (create f pf) -> (i < j)%nat).
Proof.
  intros plan.
  assert (HP : Permutation plan (syncActions c)) by apply (sort_perm priority).
  assert (HS : StronglySorted (fun a b => (priority a <= priority b)%Z) plan)
    by apply (sort_sorted priority).
  assert (HI : forall a, In a plan <-> In a (syncActions c)).
  { intros a. split; apply Permutation_in; [|symmetry]; exact HP. }
  split; [|split; [|split; [|split]]].
  - intros a. rewrite HI. apply In_syncActions.
  - exact HP.
  - exact HS.
  - intros p. apply (sort_stable priority).
  - intros F f HF Hf EF Ef.
    assert (H1 : In (create F 1) plan).
    { apply HI, In_syncActions. rewrite EF. auto. }
    assert (H2 : In (create f 2) plan).
    { apply HI, In_syncActions. rewrite Ef. auto. }
    split; [exact H1|]. split; [exact H2|].
    intros i j pF pf Hi Hj.
    assert (pF = 1%Z).
    { apply nth_error_In, HI, In_syncActions in Hi. rewrite EF in Hi.
      apply Hi. }
    assert (pf = 2%Z).
    { apply nth_error_In, HI, In_syncActions in Hj. rewrite Ef in Hj.
      apply Hj. }
    subst. apply (sorted_nth_lt priority plan i j _ _ HS Hi Hj). simpl. lia.
Qed.

(** The example of the specification: the folder [X] and the file [f] in
    it, both additions. *)
Example plan_folder_then_file :
  let X := mkEntry "1" "X" "X" folderMimeType None None None true in
  let f := mkEntry "2" "f" "X/f" "text/plain" (Some "1") None None false in
  generateSyncPlan (mkComparison [f; X] [] [] []) = [create X 1; create f 2].
Proof. reflexivity. Qed.

End PlanFacts.

(** ** execute_folder_copy: the names of the policy [rename] *)

Module RenameFacts.
Import Js GoogleDrive ExecuteFolderCopy.

Lemma length_append (a b : string) :
  String.length (a ++ b) = (String.length a + String.length b)%nat.
Proof. induction a as [|c a IH]; simpl; [reflexivity|]. rewrite IH. reflexivity. Qed.

Lemma append_inv_head (a b b' : string) : (a ++ b = a ++ b')%string -> b = b'.
Proof.
  induction a as [|c a IH]; simpl; intros H; [exact H|].
  injection H as H. apply IH, H.
Qed.

Lemma append_assoc (a b c : string) :
  ((a ++ b) ++ c = a ++ (b ++ c))%string.
Proof. induction a as [|x a IH]; simpl; [reflexivity|]. rewrite IH. reflexivity. Qed.

Lemma split_nonempty (c : ascii) (s : string) : split c s <> [].
Proof.
  destruct s as [|a s]; simpl; [discriminate|].
  destruct (Ascii.eqb a c); [discriminate|].
  destruct (split c s); discriminate.
Qed.

Lemma split_append (c : ascii) (b r : string) :
  split c (b ++ String c r) = split c b ++ split c r.
Proof.
  induction b as [|a b IH]; simpl.
  - rewrite Ascii.eqb_refl. reflexivity.
  - rewrite IH. destruct (Ascii.eqb a c); [reflexivity|].
    destruct (split c b) as [|h t] eqn:E; [|reflexivity].
    elim (split_nonempty c b E).
Qed.

Lemma split_no_separator (c : ascii) (s : string) :
  includes c s = false -> split c s = [s].
Proof.
  induction s as [|a s IH]; simpl; [reflexivity|].
  intros H. apply orb_false_iff in H. destruct H as [H1 H2].
  rewrite H1, (IH H2). reflexivity.
Qed.

Lemma lastIndexOf_no_separator (c : ascii) (s : string) :
  includes c s = false -> lastIndexOf c s = (-1)%Z.
Proof.
  induction s as [|a s IH]; simpl; [reflexivity|].
  intros H. apply orb_false_iff in H. destruct H as [H1 H2].
  rewrite (IH H2), H1. reflexivity.
Qed.

Lemma lastIndexOf_append (c : ascii) (b e : string) :
  includes c e = false ->
  lastIndexOf c (b ++ String c e) = Z.of_nat (String.length b).
Proof.
  intros He. induction b as [|a b IH].
  - simpl. rewrite (lastIndexOf_no_separator c e He), Ascii.eqb_refl.
    reflexivity.
  - cbn [append lastIndexOf String.length]. rewrite IH.
    destruct (0 <=? Z.of_nat (String.length b))%Z eqn:E; [lia|].
    apply Z.leb_gt in E. lia.
Qed.

Lemma includes_append (c : ascii) (b e : string) :
  includes c (b ++ String c e) = true.
Proof.
  induction b as [|a b IH]; simpl.
  - rewrite Ascii.eqb_refl. reflexivity.
  - rewrite IH. apply orb_true_r.
Qed.

Lemma substring_append (b x : string) :
  String.substring 0 (String.length b) (b ++ x) = b.
Proof.
  induction b as [|a b IH]; simpl.
  - destruct x; reflexivity.
  - rewrite IH. reflexivity.
Qed.

Lemma includes_decompose (c : ascii) (s : string) :
  includes c s = true ->
  exists b e, s = (b ++ String c e)%string /\ includes c e = false.
Proof.
  induction s as [|a s IH]; simpl; [discriminate|].
  destruct (includes c s) eqn:E.
  - intros _. destruct (IH eq_refl) as (b & e & -> & He).
    exists (String a b), e. auto.
  - rewrite orb_false_r. intros H. apply Ascii.eqb_eq in H. subst a.
    exists EmptyString, s. auto.
Qed.

(** The new name of a name [base.ext] whose last part [ext] has no dot. *)
Lemma renamed_with_dot (base ext : string) (timestamp : Z) :
  includes "." ext = false ->
  renamed (base ++ String "." ext) timestamp =
  if String.eqb ext ""
  then (base ++ "_copy_" ++ Number_toString timestamp)%string
  else (base ++ "_copy_" ++ Number_toString timestamp ++ "." ++ ext)%string.
Proof.
  intros He. unfold renamed, pop, substring0.
  rewrite includes_append, split_append, (split_no_separator _ _ He),
    (lastIndexOf_append _ _ _ He), Nat2Z.id, substring_append.
  destruct (split "." base ++ [ext]) as [|h t] eqn:E.
  - destruct (split "." base); discriminate.
  - rewrite <- E, last_last. destruct (String.eqb ext ""); reflexivity.
Qed.

Lemma renamed_without_dot (fileName : string) (timestamp : Z) :
  includes "." fileName = false ->
  renamed fileName timestamp
  = (fileName ++ "_copy_" ++ Number_toString timestamp)%string.
Proof. intros H. unfold renamed. rewrite H. reflexivity. Qed.

Lemma renamed_neq (fileName : string) (timestamp : Z) :
  renamed fileName timestamp <> fileName.
Proof.
  destruct (includes "." fileName) eqn:E.
  - destruct (includes_decompose _ _ E) as (b & e & -> & He).
    rewrite (renamed_with_dot b e timestamp He).
    destruct (String.eqb e ""); intros H; apply append_inv_head in H;
      discriminate.
  - rewrite (renamed_without_dot _ _ E). intros H.
    apply (f_equal String.length) in H. rewrite length_append in H.
    simpl in H. lia.
Qed.

End RenameFacts.

(** ** execute_folder_copy: the text of the queries *)

Module QueryFacts.
Import Js GoogleDrive ExecuteFolderCopy.

Example render_subfolders :
  render (q (subfolders_opts "abc"))
  = "'abc' in parents and mimeType = 'application/vnd.google-apps.folder' and trashed = false".
Proof. reflexivity. Qed.

Example render_candidates (props : Props) :
  render (q (candidates_opts props (Some "abc")))
  = "'abc' in parents and mimeType != 'application/vnd.google-apps.folder' and trashed = false".
Proof. reflexivity. Qed.

Example render_candidates_no_source (props : Props) :
  render (q (candidates_opts props None))
  = "mimeType != 'application/vnd.google-apps.folder' and trashed = false".
Proof. reflexivity. Qed.

Example render_existingFiles :
  render (q (existingFiles_opts "D" ["a.txt"; "it's"]))
  = "(name = 'a.txt' or name = 'it\'s') and 'D' in parents and trashed = false".
Proof. reflexivity. Qed.

End QueryFacts.

(** ** execute_folder_copy: reasoning on the runs *)

Module RunLogic.
Import Js JsFacts GoogleDrive ExecuteFolderCopy Notions.

Section WithStore.
Context {World : Type}.

Lemma wp_ret {A} (a : A) Q (st : State (World := World)) :
  Q (returned a) st -> wp (ret a) Q st.
Proof. exact (fun H => H). Qed.

Lemma wp_bind {A B} (m : M A) (k : A -> M B) Q (st : State (World := World)) :
  wp m (fun o st1 =>
          match o with
          | returned a => wp (k a) Q st1
          | threw message => Q (threw message) st1
          | diverged => Q diverged st1
          end) st ->
  wp (bind m k) Q st.
Proof.
  unfold wp, bind. destruct (m st) as [[a|message|] st1]; simpl; auto.
Qed.

Lemma wp_try_catch {A} (m : M A) (handler : string -> M A) Q
      (st : State (World := World)) :
  wp m (fun o st1 =>
          match o with
          | returned a => Q (returned a) st1
          | threw message => wp (handler message) Q st1
          | diverged => Q diverged st1
          end) st ->
  wp (try_catch m handler) Q st.
Proof.
  unfold wp, try_catch. destruct (m st) as [[a|message|] st1]; simpl; auto.
Qed.

Lemma wp_weaken {A} (m : M A) (Q Q' : Outcome A -> State -> Prop)
      (st : State (World := World)) :
  wp m Q st -> (forall o st', Q o st' -> Q' o st') -> wp m Q' st.
Proof. unfold wp. auto. Qed.

(** [attempt] ends with a value when its argument does not diverge. *)
Lemma wp_attempt {A} (m : M A) Q (st : State (World := World)) :
  wp m (fun o st1 =>
          match o with
          | returned a => Q (returned (ok a)) st1
          | threw message => Q (returned (thrown message)) st1
          | diverged => Q diverged st1
          end) st ->
  wp (attempt m) Q st.
Proof.
  unfold wp, attempt, try_catch, bind, ret.
  destruct (m st) as [[a|message|] st1]; simpl; auto.
Qed.

(** A request adds its record to the requests made, and nothing else
    changes but the store. *)
Lemma wp_request {A} (op : World -> Result A * World)
      (record : Result A -> Call) Q (st : State (World := World)) :
  (forall answer w,
      op (world st) = (answer, w) ->
      Q (match answer with
         | ok a => returned a
         | thrown message => threw message
         end)
        (mkState w (calls st ++ [record answer]) (results st)
                 (folderCache st) (totalProcessed st))) ->
  wp (request op record) Q st.
Proof.
  unfold wp, request. intros H.
  destruct (op (world st)) as [answer w] eqn:E.
  specialize (H answer w eq_refl). destruct answer; exact H.
Qed.

End WithStore.
End RunLogic.

(** ** execute_folder_copy: the replication of the folders *)

Module FolderFacts.
Import Js JsFacts GoogleDrive ExecuteFolderCopy Notions RunLogic.

Lemma snoc_split {A} (l pre post : list A) (c x : A) :
  l ++ [c] = pre ++ x :: post ->
  (pre = l /\ x = c /\ post = [])
  \/ exists post', post = post' ++ [c] /\ l = pre ++ x :: post'.
Proof.
  destruct post as [|y post] using rev_ind.
  - intros H. apply app_inj_tail in H. destruct H as [-> ->]. left. auto.
  - clear IHpost. intros H.
    change (l ++ [c] = pre ++ (x :: post) ++ [y]) in H.
    rewrite app_assoc in H. apply app_inj_tail in H. destruct H as [H1 H2].
    right. exists post. subst. auto.
Qed.

Lemma justified_snoc (l : list Call) (c : Call) :
  justified l ->
  match c with
  | called_createFolder name parentId _ =>
      exists resp,
        In (called_listFilesInPage None (existingFolders_opts parentId)
                                   (ok resp)) l
        /\ get name (name_id_map (files resp)) = None
  | _ => True
  end ->
  justified (l ++ [c]).
Proof.
  intros Hl Hc pre name parentId answer post H.
  apply snoc_split in H. destruct H as [(-> & <- & ->)|(post' & -> & ->)].
  - exact Hc.
  - apply (Hl pre name parentId answer post' eq_refl).
Qed.

Lemma copies_snoc (l : list Call) (c : Call) :
  copies (l ++ [c]) =
  (copies l + match c with
              | called_copyFile _ _ _ (ok _) => 1
              | _ => 0
              end)%nat.
Proof.
  unfold copies. rewrite filter_app, length_app. f_equal.
  destruct c as [| |? ? ? [|]|]; reflexivity.
Qed.

Section WithStore.
Context {World : Type}.
Variable store : RemoteStore World.
Variable props : Props.

Local Abbreviation folder_step := (Notions.folder_step (World := World)).
Local Abbreviation folders_spec := (Notions.folders_spec (World := World)).
Local Abbreviation same_but_cache := (Notions.same_but_cache (World := World)).
Local Abbreviation cache_blind := (Notions.cache_blind (World := World)).

Lemma folder_step_refl st : folder_step st st.
Proof.
  constructor; auto. exists []. rewrite app_nil_r. reflexivity.
Qed.

Lemma folder_step_trans st1 st2 st3 :
  folder_step st1 st2 -> folder_step st2 st3 -> folder_step st1 st3.
Proof.
  intros [[d1 G1] J1 R1 C1 T1] [[d2 G2] J2 R2 C2 T2]. constructor.
  - exists (d1 ++ d2). rewrite G2, G1, app_assoc. reflexivity.
  - auto.
  - congruence.
  - congruence.
  - congruence.
Qed.

Lemma folder_step_In st st' (c : Call) :
  folder_step st st' -> In c (calls st) -> In c (calls st').
Proof.
  intros [[d G] _ _ _ _] H. rewrite G. apply in_or_app. auto.
Qed.

Lemma resolved_from_step st st' r :
  folder_step st st' -> resolved_from (calls st) r ->
  resolved_from (calls st') r.
Proof.
  intros Hs [(p & resp & H1 & H2)|(p & H)].
  - left. exists p, resp. split; [eapply folder_step_In; eassumption|exact H2].
  - right. exists p. eapply folder_step_In; eassumption.
Qed.

(** A listing is a step, whatever its answer. *)
Lemma list_files_step pageToken opts st :
  wp (list_files store pageToken opts)
     (fun o st' =>
        folder_step st st'
        /\ forall resp, o = returned resp ->
             In (called_listFilesInPage pageToken opts (ok resp)) (calls st'))
     st.
Proof.
  apply wp_request. intros answer w _. split.
  - constructor; simpl; auto.
    + eauto.
    + intros H. apply justified_snoc; [exact H|exact I].
    + rewrite copies_snoc. lia.
  - simpl. intros resp H. apply in_or_app. right.
    destruct answer; [|discriminate]. injection H as ->. left. reflexivity.
Qed.

(** The destination of a folder: found in the listing, or created. *)
Lemma find_or_create_step (destParentId : string) (resp : Response)
      (folder : DriveFile) st :
  In (called_listFilesInPage None (existingFolders_opts destParentId)
                             (ok resp)) (calls st) ->
  wp (attempt
        (match get (file_name folder) (name_id_map (files resp)) with
         | Some existingId => ret existingId
         | None => create_folder store (file_name folder) destParentId
         end))
     (fun o st' =>
        folder_step st st'
        /\ exists found, o = returned found
           /\ forall destFolderId path,
               found = ok destFolderId ->
               resolved_from (calls st')
                 (mkFolderRecord (file_id folder) destFolderId
                                 (file_name folder) path))
     st.
Proof.
  intros Hin. apply wp_attempt.
  destruct (get (file_name folder) (name_id_map (files resp))) as [id|] eqn:E.
  - apply wp_ret. split; [apply folder_step_refl|].
    eexists. split; [reflexivity|]. intros d p [= <-].
    left. exists destParentId, resp. auto.
  - apply wp_request. intros answer w _.
    assert (Hs : folder_step st
                   (mkState w
                      (calls st
                       ++ [called_createFolder (file_name folder) destParentId
                                               answer])
                      (results st) (folderCache st) (totalProcessed st))).
    { constructor; simpl; auto.
      - eauto.
      - intros H. apply justified_snoc; [exact H|]. exists resp. auto.
      - rewrite copies_snoc. lia. }
    destruct answer as [id|message]; (split; [exact Hs|]);
      eexists; (split; [reflexivity|]); intros d p [= <-].
    right. exists destParentId. simpl. apply in_or_app. right. left.
    reflexivity.
Qed.

Lemma folderLoop_spec
      (recurse : option string -> string -> string -> M (list FolderRecord))
      (Hrec : forall sourceId destParentId folderPath st,
          wp (recurse sourceId destParentId folderPath) (folders_spec st) st)
      (destParentId folderPath : string) (resp : Response)
      (subfolders : list DriveFile) :
  forall (folders : list FolderRecord) st,
    In (called_listFilesInPage None (existingFolders_opts destParentId)
                               (ok resp)) (calls st) ->
    Forall (resolved_from (calls st)) folders ->
    wp (folderLoop store props recurse destParentId folderPath
                   (name_id_map (files resp)) subfolders folders)
       (folders_spec st) st.
Proof.
  induction subfolders as [|folder rest IH]; intros folders st Hin Hfs.
  - apply wp_ret. split; [apply folder_step_refl|].
    split; [discriminate|]. intros ? [= <-]. exact Hfs.
  - cbn [folderLoop]. apply wp_bind.
    eapply wp_weaken; [apply (find_or_create_step _ _ folder _ Hin)|].
    intros o st1 [Hs1 (found & -> & Hfound)].
    assert (Hfs1 : Forall (resolved_from (calls st1)) folders).
    { eapply Forall_impl; [|exact Hfs]. intros r. apply resolved_from_step.
      exact Hs1. }
    destruct found as [destFolderId|message].
    + apply wp_bind. unfold wp at 1. simpl.
      set (st2 := mkState (world st1) (calls st1) (results st1)
                          (set (file_id folder) destFolderId (folderCache st1))
                          (totalProcessed st1)).
      assert (Hs2 : folder_step st st2).
      { destruct Hs1. constructor; assumption. }
      set (r := mkFolderRecord (file_id folder) destFolderId
                               (file_name folder)
                               (joinPath folderPath (file_name folder))).
      assert (Hfs2 : Forall (resolved_from (calls st2)) (folders ++ [r])).
      { apply Forall_app. split; [exact Hfs1|].
        constructor; [|constructor]. apply Hfound. reflexivity. }
      assert (Hin2 : In (called_listFilesInPage None
                           (existingFolders_opts destParentId) (ok resp))
                        (calls st2)).
      { eapply folder_step_In; eassumption. }
      destruct (includeSubfolders props).
      * apply wp_bind, wp_attempt.
        eapply wp_weaken; [apply Hrec|].
        intros o st3 (Hs3 & Hnt & Hr3).
        assert (Hs23 : folder_step st st3)
          by (eapply folder_step_trans; eassumption).
        destruct o as [subFolders|message|].
        -- eapply wp_weaken.
           ++ apply IH.
              ** eapply folder_step_In; eassumption.
              ** apply Forall_app. split; [|apply Hr3; reflexivity].
                 eapply Forall_impl; [|exact Hfs2]. intros x.
                 apply resolved_from_step. exact Hs3.
           ++ intros o st4 (Hs4 & Hnt4 & Hr4). split; [|auto].
              eapply folder_step_trans; eassumption.
        -- elim (Hnt message). reflexivity.
        -- split; [exact Hs23|]. split; [discriminate|discriminate].
      * eapply wp_weaken; [apply (IH _ st2 Hin2 Hfs2)|].
        intros o st4 (Hs4 & Hnt4 & Hr4). split; [|auto].
        eapply folder_step_trans; eassumption.
    + apply wp_ret. split; [exact Hs1|]. split; [discriminate|].
      intros ? [= <-]. exact Hfs1.
Qed.

Lemma createFolderStructureOptimized_spec (fuel : nat) :
  forall (sourceId : option string) (destParentId folderPath : string) st,
    wp (createFolderStructureOptimized store props fuel sourceId destParentId
                                       folderPath)
       (folders_spec st) st.
Proof.
  assert (Hnil : forall st : State (World := World),
             folders_spec st (returned []) st).
  { intros st. split; [apply folder_step_refl|].
    split; [discriminate|]. intros ? [= <-]. constructor. }
  induction fuel as [|fuel IH]; intros sourceId destParentId folderPath st;
    destruct sourceId as [sourceId|]; simpl; try apply Hnil;
    destruct (String.eqb sourceId ""); try apply Hnil.
  - split; [apply folder_step_refl|]. split; discriminate.
  - apply wp_bind, wp_attempt, wp_bind.
    eapply wp_weaken; [apply list_files_step|].
    intros o st1 [Hs1 _]. destruct o as [subfolders|message|].
    + apply wp_bind. eapply wp_weaken; [apply list_files_step|].
      intros o st2 [Hs2 Hin2].
      assert (Hs12 : folder_step st st2)
        by (eapply folder_step_trans; eassumption).
      destruct o as [existingFolders|message|].
      * apply wp_ret. eapply wp_weaken.
        -- apply (folderLoop_spec _ IH destParentId folderPath
                                  existingFolders).
           ++ apply Hin2. reflexivity.
           ++ constructor.
        -- intros o st3 (Hs3 & Hnt & Hr). split; [|auto].
           eapply folder_step_trans; eassumption.
      * apply wp_ret. split; [exact Hs12|]. split; [discriminate|].
        intros ? [= <-]. constructor.
      * split; [exact Hs12|]. split; discriminate.
    + apply wp_ret. split; [exact Hs1|]. split; [discriminate|].
      intros ? [= <-]. constructor.
    + split; [exact Hs1|]. split; discriminate.
Qed.

Lemma cache_blind_ret {A} (a : A) : cache_blind (ret a).
Proof. intros st st' H. split; [reflexivity|exact H]. Qed.

Lemma cache_blind_bind {A B} (m : M A) (k : A -> M B) :
  cache_blind m -> (forall a, cache_blind (k a)) -> cache_blind (bind m k).
Proof.
  intros Hm Hk st st' H. unfold bind. destruct (Hm st st' H) as [Ho Hs].
  destruct (m st) as [o1 st1], (m st') as [o2 st2]. simpl in Ho, Hs. subst o2.
  destruct o1 as [a| |]; [apply Hk, Hs|auto|auto].
Qed.

Lemma cache_blind_try_catch {A} (m : M A) (handler : string -> M A) :
  cache_blind m -> (forall e, cache_blind (handler e)) ->
  cache_blind (try_catch m handler).
Proof.
  intros Hm Hh st st' H. unfold try_catch. destruct (Hm st st' H) as [Ho Hs].
  destruct (m st) as [o1 st1], (m st') as [o2 st2]. simpl in Ho, Hs. subst o2.
  destruct o1 as [|e|]; [auto|apply Hh, Hs|auto].
Qed.

Lemma cache_blind_attempt {A} (m : M A) :
  cache_blind m -> cache_blind (attempt m).
Proof.
  intros Hm. apply cache_blind_try_catch.
  - apply cache_blind_bind; [exact Hm|]. intros a. apply cache_blind_ret.
  - intros e. apply cache_blind_ret.
Qed.

Lemma cache_blind_request {A} (op : World -> Result A * World)
      (record : Result A -> Call) :
  cache_blind (request op record).
Proof.
  intros st st' (Hw & Hc & Hr & Ht). unfold request. rewrite <- Hw.
  destruct (op (world st)) as [[a|e] w]; simpl; rewrite Hc, Hr, Ht;
    (split; [reflexivity|]); repeat split.
Qed.

Lemma cache_blind_cache_set (k v : string) :
  cache_blind (cache_set (World := World) k v).
Proof. intros st st' H. split; [reflexivity|exact H]. Qed.

Lemma cache_blind_folderLoop
      (recurse : option string -> string -> string -> M (list FolderRecord))
      (Hrec : forall s d p, cache_blind (recurse s d p))
      (destParentId folderPath : string) (existingFolderMap : Map string)
      (subfolders : list DriveFile) :
  forall folders,
    cache_blind (folderLoop store props recurse destParentId folderPath
                            existingFolderMap subfolders folders).
Proof.
  induction subfolders as [|folder rest IH]; intros folders; cbn [folderLoop].
  - apply cache_blind_ret.
  - apply cache_blind_bind.
    + apply cache_blind_attempt.
      destruct (get (file_name folder) existingFolderMap);
        [apply cache_blind_ret|apply cache_blind_request].
    + intros [destFolderId|e]; [|apply cache_blind_ret].
      apply cache_blind_bind; [apply cache_blind_cache_set|]. intros _.
      destruct (includeSubfolders props); [|apply IH].
      apply cache_blind_bind; [apply cache_blind_attempt, Hrec|].
      intros [sub|e]; [apply IH|apply cache_blind_ret].
Qed.

Lemma cache_blind_createFolderStructureOptimized (fuel : nat) :
  forall sourceId destParentId folderPath,
    cache_blind (createFolderStructureOptimized store props fuel sourceId
                                                destParentId folderPath).
Proof.
  induction fuel as [|fuel IH]; intros sourceId destParentId folderPath;
    destruct sourceId as [sourceId|]; simpl; try apply cache_blind_ret;
    destruct (String.eqb sourceId ""); try apply cache_blind_ret.
  - intros st st' H. split; [reflexivity|exact H].
  - apply cache_blind_bind.
    + apply cache_blind_attempt, cache_blind_bind;
        [apply cache_blind_request|].
      intros a. apply cache_blind_bind; [apply cache_blind_request|].
      intros b. apply cache_blind_ret.
    + intros [[subfolders existingFolders]|e]; [|apply cache_blind_ret].
      apply cache_blind_folderLoop. exact IH.
Qed.

Lemma cached_app (a b : list FolderRecord) (c : Map string) :
  cached (a ++ b) c = cached b (cached a c).
Proof. apply fold_left_app. Qed.

(** What a replication that returns has asked and left. *)
Let replicated (sourceId : option string) (destParentId folderPath : string)
    (st : State (World := World)) (o : Outcome (list FolderRecord))
    (st' : State (World := World)) : Prop :=
  (forall e, o <> threw e)
  /\ forall folders,
      o = returned folders ->
      exists delta,
        calls st' = calls st ++ delta
        /\ folder_requests (includeSubfolders props) sourceId destParentId
                           folderPath delta folders
        /\ folderCache st' = cached folders (folderCache st).

Lemma folderLoop_requests
      (recurse : option string -> string -> string -> M (list FolderRecord))
      (Hrec : forall sourceId destParentId folderPath st,
          wp (recurse sourceId destParentId folderPath)
             (replicated sourceId destParentId folderPath st) st)
      (destParentId folderPath : string) (existingFolderMap : Map string)
      (subfolders : list DriveFile) :
  forall (done : list FolderRecord) st,
    wp (folderLoop store props recurse destParentId folderPath
                   existingFolderMap subfolders done)
       (fun o st' =>
          (forall e, o <> threw e)
          /\ forall folders,
              o = returned folders ->
              exists delta new,
                calls st' = calls st ++ delta
                /\ folders = done ++ new
                /\ loop_requests (includeSubfolders props) destParentId
                                 folderPath existingFolderMap subfolders
                                 delta new
                /\ folderCache st' = cached new (folderCache st))
       st.
Proof.
  induction subfolders as [|folder rest IH]; intros done st.
  - apply wp_ret. split; [discriminate|]. intros ? [= <-].
    exists [], []. rewrite !app_nil_r.
    split; [reflexivity|]. split; [reflexivity|].
    split; [constructor|reflexivity].
  - cbn [folderLoop].
    set (record := fun destFolderId =>
                     mkFolderRecord (file_id folder) destFolderId
                                    (file_name folder)
                                    (joinPath folderPath (file_name folder))).
    (* from the placement of [folder] on *)
    assert (Hnext : forall destFolderId own (st1 : State (World := World)),
               calls st1 = calls st ++ own ->
               folderCache st1 = folderCache st ->
               placement existingFolderMap destParentId folder destFolderId
                         own ->
               wp (bind (cache_set (file_id folder) destFolderId)
                        (fun _ =>
                           if includeSubfolders props then
                             bind (attempt
                                     (recurse (Some (file_id folder))
                                        destFolderId
                                        (joinPath folderPath
                                                  (file_name folder))))
                                  (fun sub =>
                                     match sub with
                                     | thrown _ =>
                                         ret (done ++ [record destFolderId])
                                     | ok subFolders =>
                                         folderLoop store props recurse
                                           destParentId folderPath
                                           existingFolderMap rest
                                           ((done ++ [record destFolderId])
                                            ++ subFolders)
                                     end)
                           else
                             folderLoop store props recurse destParentId
                               folderPath existingFolderMap rest
                               (done ++ [record destFolderId])))
                  (fun o st' =>
                     (forall e, o <> threw e)
                     /\ forall folders,
                         o = returned folders ->
                         exists delta new,
                           calls st' = calls st ++ delta
                           /\ folders = done ++ new
                           /\ loop_requests (includeSubfolders props)
                                destParentId folderPath existingFolderMap
                                (folder :: rest) delta new
                           /\ folderCache st' = cached new (folderCache st))
                  st1).
    { intros destFolderId own st1 Hc1 Hk1 Hown.
      apply wp_bind. unfold wp at 1. simpl.
      set (st2 := mkState (world st1) (calls st1) (results st1)
                          (set (file_id folder) destFolderId (folderCache st1))
                          (totalProcessed st1)).
      destruct (includeSubfolders props) eqn:Ei.
      - apply wp_bind, wp_attempt.
        eapply wp_weaken; [apply Hrec|].
        intros o st3 (Hnt3 & Hr3).
        destruct o as [subFolders|message|];
          [|elim (Hnt3 message); reflexivity|split; discriminate].
        destruct (Hr3 _ eq_refl) as (below & Hc3 & Hbelow & Hk3).
        eapply wp_weaken; [apply IH|].
        intros o st4 (Hnt4 & Hr4). split; [exact Hnt4|].
        intros folders ->.
        destruct (Hr4 _ eq_refl) as (l & new & Hc4 & -> & Hl & Hk4).
        exists (own ++ below ++ l),
          (record destFolderId :: subFolders ++ new).
        split; [rewrite Hc4, Hc3; simpl; rewrite Hc1, <- !app_assoc;
                reflexivity|].
        split; [rewrite <- !app_assoc; reflexivity|].
        split; [apply lr_deep; auto|].
        rewrite Hk4, Hk3. simpl. rewrite Hk1, cached_app. reflexivity.
      - eapply wp_weaken; [apply (IH _ st2)|].
        intros o st4 (Hnt4 & Hr4). split; [exact Hnt4|].
        intros folders ->.
        destruct (Hr4 _ eq_refl) as (l & new & Hc4 & -> & Hl & Hk4).
        exists (own ++ l), (record destFolderId :: new).
        split; [rewrite Hc4; simpl; rewrite Hc1, <- !app_assoc;
                reflexivity|].
        split; [rewrite <- !app_assoc; reflexivity|].
        split; [apply lr_flat; auto|].
        rewrite Hk4. simpl. rewrite Hk1. reflexivity. }
    apply wp_bind, wp_attempt.
    destruct (get (file_name folder) existingFolderMap) as [existingId|]
      eqn:Eg.
    + apply wp_ret.
      apply (Hnext existingId []);
        [rewrite app_nil_r; reflexivity|reflexivity|].
      unfold placement. rewrite Eg. auto.
    + apply wp_request. intros answer w _.
      destruct answer as [destFolderId|message].
      * apply (Hnext destFolderId
                 [called_createFolder (file_name folder) destParentId
                                      (ok destFolderId)]);
          [reflexivity|reflexivity|].
        unfold placement. rewrite Eg. reflexivity.
      * apply wp_ret. split; [discriminate|]. intros ? [= <-].
        exists [called_createFolder (file_name folder) destParentId
                                    (thrown message)], [].
        rewrite app_nil_r.
        split; [reflexivity|]. split; [reflexivity|].
        split; [apply lr_create_failed; exact Eg|reflexivity].
Qed.

Lemma createFolderStructureOptimized_replicated (fuel : nat) :
  forall (sourceId : option string) (destParentId folderPath : string) st,
    wp (createFolderStructureOptimized store props fuel sourceId destParentId
                                       folderPath)
       (replicated sourceId destParentId folderPath st) st.
Proof.
  assert (Hnone : forall (st : State (World := World)) sourceId p fp,
             truthy sourceId = false ->
             replicated sourceId p fp st (returned []) st).
  { intros st sourceId p fp Hs. split; [discriminate|].
    intros ? [= <-]. exists []. rewrite app_nil_r.
    split; [reflexivity|]. split; [constructor; exact Hs|reflexivity]. }
  induction fuel as [|fuel IH]; intros sourceId destParentId folderPath st;
    destruct sourceId as [sourceId|]; simpl; try (apply Hnone; reflexivity);
    destruct (String.eqb sourceId "") eqn:Es;
    try (apply Hnone; simpl; rewrite Es; reflexivity).
  - split; discriminate.
  - apply String.eqb_neq in Es.
    apply wp_bind, wp_attempt, wp_bind, wp_request. intros a1 w1 _.
    destruct a1 as [subfolders|message].
    + apply wp_bind, wp_request. intros a2 w2 _. cbn [world calls].
      destruct a2 as [existingFolders|message].
      * apply wp_ret. eapply wp_weaken.
        -- apply (folderLoop_requests _ IH destParentId folderPath
                    (name_id_map (files existingFolders)) _ []).
        -- intros o st3 (Hnt & Hr). split; [exact Hnt|].
           intros folders ->.
           destruct (Hr _ eq_refl) as (l & new & Hc & Hnew & Hl & Hk).
           simpl in Hnew. subst new. cbn [calls folderCache] in Hc, Hk.
           eexists. split; [rewrite Hc, <- !app_assoc; reflexivity|].
           split; [apply fr_listed; assumption|exact Hk].
      * apply wp_ret. split; [discriminate|]. intros ? [= <-].
        eexists. cbn [calls]. split; [rewrite <- app_assoc; reflexivity|].
        split; [apply fr_destination_failed; exact Es|reflexivity].
    + apply wp_ret. split; [discriminate|]. intros ? [= <-].
      eexists. split; [reflexivity|].
      split; [apply fr_source_failed; exact Es|reflexivity].
Qed.

End WithStore.

(** In the loop, a source folder whose name the listing made before the
    loop does not hold opens with a [createFolder] request of that name
    under the destination parent, whatever the loop has created before:
    the map of the listing is the same for every folder of the loop. *)
Lemma loop_requests_absent_name (deep : bool) (parentId folderPath : string)
      (existingFolderMap : Map string) (folder : DriveFile)
      (rest : list DriveFile) (l : list Call) (folders : list FolderRecord) :
  get (file_name folder) existingFolderMap = None ->
  loop_requests deep parentId folderPath existingFolderMap (folder :: rest)
                l folders ->
  exists answer l',
    l = called_createFolder (file_name folder) parentId answer :: l'.
Proof.
  intros Hget H.
  inversion H as [| |? ? ? ? ? ? own ? ? _ Hown|? ? ? ? ? ? own ? ? ? ? _ Hown];
    subst; try (unfold placement in Hown; rewrite Hget in Hown; subst own);
    simpl; eauto.
Qed.

(** C4, as stated, fails: on [twin_drive] one run creates two folders
    named [X] in the folder [D]. *)
Lemma createFolder_twice_same_name :
  let st := snd (run DriveModel.drive twin_props 5 twin_drive) in
  created_folders (calls st) = [("X", "D"); ("X", "D")]
  /\ ~ NoDup (created_folders (calls st))
  /\ map (fun it => file_name (DriveModel.item_file it))
         (filter (fun it => String.eqb (DriveModel.item_parent it) "D")
                 (DriveModel.items (world st)))
     = ["X"; "X"].
Proof.
  vm_compute. split; [reflexivity|]. split; [|reflexivity].
  intros H. inversion H as [|? ? Hn _]. apply Hn. left. reflexivity.
Qed.

(** C4, amended.  In the replication of the folders, a [createFolder]
    request is made only for a name that a listing of the folders of the
    same destination parent, made before it, did not hold; every folder
    processed is given the folder of its name found in such a listing, or
    the folder a [createFolder] request made for it.  A replication that
    returns has made exactly the requests of [folder_requests], in that
    order (none without a source id): the two listings, which end it
    without a record when one fails, then for each source folder in turn no
    request when the listing of the destination parent made before the
    loop holds its name, else one [createFolder] request of its name under
    that parent, whatever was created since (so source siblings of one
    absent name get a request each), and after it the requests for the
    folders it holds when [includeSubfolders] is set; the record of the
    folder has its destination under that parent and the path of its
    parent joined to its name.  [folderCache] then holds one more binding
    for each record, source id to destination id, and it is never looked
    at: the outcome and the requests are the same whatever it holds. *)
Theorem createFolder_only_for_names_not_listed
        {World : Type} (store : RemoteStore World) (props : Props)
        (fuel : nat) (sourceId : option string)
        (destParentId folderPath : string)
        (w : World) (r : ExecutionResult) (cache cache' : Map string)
        (n : nat) :
  let go c :=
    createFolderStructureOptimized store props fuel sourceId destParentId
                                   folderPath (mkState w [] r c n) in
  justified (calls (snd (go cache)))
  /\ (forall folders, fst (go cache) = returned folders ->
        Forall (resolved_from (calls (snd (go cache)))) folders
        /\ folder_requests (includeSubfolders props) sourceId destParentId
                           folderPath (calls (snd (go cache))) folders
        /\ folderCache (snd (go cache)) = cached folders cache)
  /\ fst (go cache) = fst (go cache')
  /\ calls (snd (go cache)) = calls (snd (go cache')).
Proof.
  intros go.
  destruct (createFolderStructureOptimized_spec store props fuel sourceId
              destParentId folderPath (mkState w [] r cache n))
    as (Hs & _ & Hr).
  destruct (createFolderStructureOptimized_replicated store props fuel
              sourceId destParentId folderPath (mkState w [] r cache n))
    as (_ & Hp).
  destruct (cache_blind_createFolderStructureOptimized store props fuel
              sourceId destParentId folderPath
              (mkState w [] r cache n) (mkState w [] r cache' n))
    as (Ho & _ & Hc & _); [repeat split|].
  split; [|split; [|split]].
  - apply (fs_justified _ _ Hs). intros pre ? ? ? post H.
    destruct pre; discriminate.
  - intros folders Hf. split; [apply Hr, Hf|].
    destruct (Hp _ Hf) as (delta & Hd & Hreq & Hk). simpl in Hd.
    unfold go. rewrite Hd. auto.
  - exact Ho.
  - exact Hc.
Qed.

End FolderFacts.

(** ** execute_folder_copy: the copy of the files *)

Module CopyFacts.
Import Js JsFacts GoogleDrive ExecuteFolderCopy Notions RunLogic FolderFacts.

Section WithStore.
Context {World : Type}.
Variable store : RemoteStore World.
Variable props : Props.

Local Abbreviation task_outcome := (Notions.task_outcome props).
Local Abbreviation task_step := (Notions.task_step (World := World)).
Local Abbreviation copy_step := (Notions.copy_step (World := World)).
Local Abbreviation submitted := (Notions.submitted props).
Local Abbreviation copy_call := (Notions.copy_call props).
Local Abbreviation all_covered := (Notions.all_covered props).

Lemma wp_now Q (st : State (World := World)) :
  (forall t w, Date_now store (world st) = (t, w) ->
               Q (returned t)
                 (mkState w (calls st) (results st) (folderCache st)
                          (totalProcessed st))) ->
  wp (now store) Q st.
Proof.
  unfold wp, now. intros H. destruct (Date_now store (world st)) as [t w].
  apply H. reflexivity.
Qed.

Lemma task_step_nil destFolderId st : task_step destFolderId [] st st.
Proof. constructor; auto. rewrite app_nil_r. reflexivity. Qed.

Lemma task_step_app destFolderId d1 d2 st1 st2 st3 :
  task_step destFolderId d1 st1 st2 -> task_step destFolderId d2 st2 st3 ->
  task_step destFolderId (d1 ++ d2) st1 st3.
Proof.
  intros [C1 S1 R1 T1] [C2 S2 R2 T2]. constructor.
  - rewrite C2, C1, app_assoc. reflexivity.
  - apply Forall_app. auto.
  - congruence.
  - congruence.
Qed.

Lemma copy_file_step (fileId newName destFolderId : string) st :
  wp (copy_file store fileId newName destFolderId)
     (fun o st' =>
        exists answer,
          task_step destFolderId
                    [called_copyFile fileId newName destFolderId answer] st st'
          /\ o = match answer with
                 | ok a => returned a
                 | thrown e => threw e
                 end)
     st.
Proof.
  apply wp_request. intros answer w _. exists answer. split; [|reflexivity].
  constructor; simpl; auto. repeat constructor.
Qed.

(** The name a task copies under; what is in [delta] is a deletion. *)
Lemma resolveName_spec (destFolderId : string) (existingFileMap : Map string)
      (file : DriveFile) st :
  wp (resolveName store props existingFileMap file)
     (fun o st' =>
        exists delta,
          task_step destFolderId delta st st' /\ copies delta = 0%nat
          /\ match o with
             | returned (inl value) =>
                 value = skipped_file file
                 /\ conflictResolution props = "skip"
                 /\ has (file_name file) existingFileMap = true
                 /\ delta = []
             | returned (inr fileName) =>
                 (conflictResolution props = "skip" ->
                  has (file_name file) existingFileMap = false)
                 /\ (conflictResolution props = "rename" ->
                     has (file_name file) existingFileMap = true ->
                     exists t w, Date_now store (world st) = (t, w)
                                 /\ fileName = renamed (file_name file) t)
             | threw e =>
                 conflictResolution props = "replace"
                 /\ exists existingId,
                     get (file_name file) existingFileMap = Some existingId
                     /\ In (called_deleteFile existingId (thrown e)) delta
             | diverged => False
             end)
     st.
Proof.
  unfold resolveName, has.
  destruct (get (file_name file) existingFileMap) as [existingId|] eqn:E.
  - destruct (String.eqb (conflictResolution props) "skip") eqn:Eskip.
    { apply String.eqb_eq in Eskip. apply wp_ret. exists [].
      split; [apply task_step_nil|]. auto. }
    apply String.eqb_neq in Eskip.
    destruct (String.eqb (conflictResolution props) "rename") eqn:Erename.
    { apply wp_bind, wp_now. intros t w Ht. apply wp_ret. exists [].
      split; [constructor; simpl; auto; rewrite app_nil_r; reflexivity|].
      split; [reflexivity|]. split; [contradiction|]. eauto. }
    apply String.eqb_neq in Erename.
    destruct (String.eqb (conflictResolution props) "replace") eqn:Ereplace.
    { apply String.eqb_eq in Ereplace. apply wp_bind, wp_request.
      intros answer w _.
      assert (Hs : task_step destFolderId
                     [called_deleteFile existingId answer] st
                     (mkState w
                        (calls st ++ [called_deleteFile existingId answer])
                        (results st) (folderCache st) (totalProcessed st))).
      { constructor; simpl; auto. repeat constructor. }
      destruct answer as [[]|e].
      - apply wp_ret. eexists. split; [exact Hs|]. split; [reflexivity|].
        split; [contradiction|contradiction].
      - eexists. split; [exact Hs|]. split; [reflexivity|].
        split; [exact Ereplace|]. exists existingId. simpl. auto. }
    apply wp_ret. exists []. split; [apply task_step_nil|].
    split; [reflexivity|]. split; contradiction.
  - apply wp_ret. exists []. split; [apply task_step_nil|].
    split; [reflexivity|]. split; [reflexivity|discriminate].
Qed.

(** A task always resolves; it leaves [results] alone; the copy it counts
    is the one request of it that the store carried out. *)
Lemma copyTask_spec (destFolderId : string) (existingFileMap : Map string)
      (file : DriveFile) st :
  wp (copyTask store props destFolderId existingFileMap file)
     (fun o st' =>
        exists value delta,
          o = returned (fulfilled value)
          /\ task_step destFolderId delta st st'
          /\ copies delta = (if is_copied (fulfilled value) then 1 else 0)%nat
          /\ task_outcome destFolderId existingFileMap file value delta)
     st.
Proof.
  unfold copyTask. apply wp_bind, wp_try_catch, wp_bind.
  eapply wp_weaken; [apply (resolveName_spec destFolderId)|].
  intros o st1 (d1 & Hs1 & Hc1 & Ho).
  destruct o as [[early|fileName]|e|]; [| | |contradiction].
  - destruct Ho as (-> & Hskip & Hhas & ->).
    do 2 apply wp_ret. eexists _, []. split; [reflexivity|].
    split; [exact Hs1|]. split; [reflexivity|]. simpl. auto.
  - apply wp_bind. eapply wp_weaken; [apply copy_file_step|].
    intros o st2 (answer & Hs2 & ->).
    pose proof (task_step_app _ _ _ _ _ _ Hs1 Hs2) as Hs.
    destruct answer as [newId|e]; do 2 apply wp_ret; eexists _, _;
      (split; [reflexivity|]); (split; [exact Hs|]);
      (split; [unfold copies in *; rewrite filter_app, length_app, Hc1;
               reflexivity|]); simpl.
    + repeat split. apply in_or_app. right. left. reflexivity.
    + split; [reflexivity|]. left. exists fileName.
      apply in_or_app. right. left. reflexivity.
  - destruct Ho as (Hreplace & existingId & Hget & Hin).
    do 2 apply wp_ret. eexists _, d1. split; [reflexivity|].
    split; [exact Hs1|]. split; [exact Hc1|]. simpl.
    split; [reflexivity|]. right. eauto.
Qed.

Lemma In_app_l {A} (x : A) (l d : list A) : In x l -> In x (l ++ d).
Proof. intros H. apply in_or_app. auto. Qed.

Lemma map_origin_mono destFolderId l d m :
  map_origin destFolderId l m -> map_origin destFolderId (l ++ d) m.
Proof.
  intros [H|(names & resp & H1 & H2)]; [left; exact H|].
  right. exists names, resp. split; [apply In_app_l, H1|exact H2].
Qed.

Lemma submitted_mono destFolderId l d file :
  submitted destFolderId l file -> submitted destFolderId (l ++ d) file.
Proof.
  intros [(n & a & H)|[(Hp & names & resp & H1 & H2)
                      |(Hp & names & resp & i & e & H1 & H2 & H3)]].
  - left. exists n, a. apply In_app_l, H.
  - right. left. split; [exact Hp|]. exists names, resp.
    split; [apply In_app_l, H1|exact H2].
  - right. right. split; [exact Hp|]. exists names, resp, i, e.
    split; [apply In_app_l, H1|]. split; [exact H2|apply In_app_l, H3].
Qed.

Lemma task_outcome_submitted destFolderId l m file value delta :
  map_origin destFolderId l m ->
  task_outcome destFolderId m file value delta ->
  submitted destFolderId (l ++ delta) file.
Proof.
  intros Hm Ho. destruct value as [f|on nn oi ni sz mt|n e]; simpl in Ho.
  - destruct Ho as (_ & Hp & Hhas & ->). right. left. split; [exact Hp|].
    destruct Hm as [->|(names & resp & H1 & ->)]; [discriminate|].
    exists names, resp. split; [apply In_app_l, H1|exact Hhas].
  - destruct Ho as (_ & _ & H). left. exists nn, (ok ni).
    apply in_or_app. auto.
  - destruct Ho as (_ & [(nn & H)|(Hp & i & Hget & H)]).
    + left. exists nn, (thrown e). apply in_or_app. auto.
    + right. right. split; [exact Hp|].
      destruct Hm as [->|(names & resp & H1 & ->)]; [discriminate|].
      exists names, resp, i, e. split; [apply In_app_l, H1|].
      split; [exact Hget|apply in_or_app; auto].
Qed.

Lemma copies_app (l d : list Call) : copies (l ++ d) = (copies l + copies d)%nat.
Proof. unfold copies. rewrite filter_app, length_app. reflexivity. Qed.

(** The tasks of a batch: all resolve, each file is submitted, and the
    copies carried out are those the results report. *)
Lemma copyTasks_spec (destFolderId : string) (existingFileMap : Map string)
      (files : list DriveFile) :
  forall st,
    map_origin destFolderId (calls st) existingFileMap ->
    wp (copyTasks store props destFolderId existingFileMap files)
       (fun o st' =>
          exists rs delta,
            o = returned rs
            /\ task_step destFolderId delta st st'
            /\ copies delta = count_copied rs
            /\ Forall is_fulfilled rs
            /\ List.length rs = List.length files
            /\ Forall (submitted destFolderId (calls st')) files)
       st.
Proof.
  induction files as [|file rest IH]; intros st Hm; cbn [copyTasks].
  - apply wp_ret. exists [], []. split; [reflexivity|].
    split; [apply task_step_nil|]. repeat split; constructor.
  - apply wp_bind. eapply wp_weaken; [apply copyTask_spec|].
    intros o st1 (value & d1 & -> & Hs1 & Hc1 & Ho).
    assert (Hm1 : map_origin destFolderId (calls st1) existingFileMap).
    { rewrite (ts_calls _ _ _ _ Hs1). apply map_origin_mono, Hm. }
    apply wp_bind. eapply wp_weaken; [apply (IH st1 Hm1)|].
    intros o st2 (rs & d2 & -> & Hs2 & Hc2 & Hf & Hlen & Hsub).
    apply wp_ret. exists (fulfilled value :: rs), (d1 ++ d2).
    split; [reflexivity|].
    split; [eapply task_step_app; eassumption|].
    split; [|split; [|split]].
    + rewrite copies_app, Hc1, Hc2. unfold count_copied. simpl.
      destruct value; reflexivity.
    + constructor; [exact I|exact Hf].
    + simpl. rewrite Hlen. reflexivity.
    + constructor; [|exact Hsub].
      rewrite (ts_calls _ _ _ _ Hs2), (ts_calls _ _ _ _ Hs1).
      apply submitted_mono.
      eapply task_outcome_submitted; eassumption.
Qed.

Lemma firstn_add {A} (i n : nat) (l : list A) :
  firstn (i + n) l = firstn i l ++ firstn n (skipn i l).
Proof.
  revert l. induction i as [|i IH]; intros l; [reflexivity|].
  destruct l as [|x l]; simpl.
  - rewrite firstn_nil. reflexivity.
  - rewrite IH. reflexivity.
Qed.

Lemma slice_from (A : Type) (i n : nat) (l : list A) :
  slice i (i + n) l = firstn n (skipn i l).
Proof. unfold slice. replace (i + n - i)%nat with n by lia. reflexivity. Qed.

(** Gathering the results changes nothing; when it ends, all the results
    are there. *)
Lemma limitConcurrency_from_spec (tasks : list Settled) (maxConcurrency : nat)
      (fuel : nat) :
  forall (i : nat) (out : list Settled) (st : State (World := World)),
    out = firstn i tasks ->
    wp (limitConcurrency_from fuel tasks maxConcurrency i out)
       (fun o st' =>
          st' = st /\ (forall e, o <> threw e)
          /\ (forall rs, o = returned rs -> rs = tasks))
       st.
Proof.
  induction fuel as [|fuel IH]; intros i out st Hout;
    cbn [limitConcurrency_from];
    destruct (i <? List.length tasks)%nat eqn:E.
  - repeat split; discriminate.
  - apply Nat.ltb_ge in E. apply wp_ret. repeat split; [discriminate|].
    intros rs [= <-]. rewrite Hout. apply firstn_all2, E.
  - apply IH. rewrite firstn_add, slice_from, Hout. reflexivity.
  - apply Nat.ltb_ge in E. apply wp_ret. repeat split; [discriminate|].
    intros rs [= <-]. rewrite Hout. apply firstn_all2, E.
Qed.

Lemma copyFileBatch_spec (fuel : nat) (files : list DriveFile)
      (destFolderId : string) (existingFileMap : Map string) st :
  map_origin destFolderId (calls st) existingFileMap ->
  wp (copyFileBatch store props fuel files destFolderId existingFileMap)
     (fun o st' =>
        exists delta,
          task_step destFolderId delta st st'
          /\ (forall e, o <> threw e)
          /\ forall rs, o = returned rs ->
               copies delta = count_copied rs
               /\ Forall is_fulfilled rs
               /\ List.length rs = List.length files
               /\ Forall (submitted destFolderId (calls st')) files)
     st.
Proof.
  intros Hm. unfold copyFileBatch, limitConcurrency. apply wp_bind.
  eapply wp_weaken; [apply (copyTasks_spec _ _ _ _ Hm)|].
  intros o st1 (rs & delta & -> & Hs & Hc & Hf & Hlen & Hsub).
  eapply wp_weaken; [apply limitConcurrency_from_spec; reflexivity|].
  intros o st2 (-> & Hnt & Hrs). exists delta. split; [exact Hs|].
  split; [exact Hnt|]. intros rs' ->. rewrite (Hrs _ eq_refl). auto.
Qed.

Lemma copy_step_same shape st st' :
  calls st' = calls st -> results st' = results st ->
  copy_step shape st st'.
Proof.
  intros Hc Hr. constructor; rewrite ?Hc, ?Hr; auto.
  - exists []. rewrite app_nil_r. auto.
  - exists []. rewrite app_nil_r. auto.
Qed.

Lemma copy_step_refl shape st : copy_step shape st st.
Proof. apply copy_step_same; reflexivity. Qed.

Lemma copy_step_trans shape st1 st2 st3 :
  copy_step shape st1 st2 -> copy_step shape st2 st3 ->
  copy_step shape st1 st3.
Proof.
  intros [(d1 & G1 & S1) F1 C1 A1 B1 (e1 & E1 & X1)]
         [(d2 & G2 & S2) F2 C2 A2 B2 (e2 & E2 & X2)].
  constructor; try congruence; try lia.
  - exists (d1 ++ d2). rewrite G2, G1, app_assoc. split; [reflexivity|].
    apply Forall_app. auto.
  - exists (e1 ++ e2). rewrite E2, E1, app_assoc. split; [reflexivity|].
    apply Forall_app. auto.
Qed.

Lemma copy_step_weaken (shape shape' : Call -> Prop) st st' :
  (forall c, shape c -> shape' c) ->
  copy_step shape st st' -> copy_step shape' st st'.
Proof.
  intros H [(d & G & S) F C A B E]. constructor; auto.
  exists d. split; [exact G|]. eapply Forall_impl; [|exact S]. exact H.
Qed.

Lemma copy_step_calls shape st st' :
  copy_step shape st st' ->
  exists delta, calls st' = calls st ++ delta /\ Forall shape delta.
Proof. intros [H _ _ _ _ _]. exact H. Qed.

Lemma wp_update_results (f : ExecutionResult -> ExecutionResult) Q
      (st : State (World := World)) :
  Q (returned tt)
    (mkState (world st) (calls st) (f (results st)) (folderCache st)
             (totalProcessed st)) ->
  wp (update_results f) Q st.
Proof. exact (fun H => H). Qed.

(** The loop over the results of a batch: a copy is counted and its
    record kept; the result of a task that failed leaves no trace. *)
Lemma processResults_spec (copyResults : list Settled) :
  Forall is_fulfilled copyResults ->
  forall (processedResults : list TaskValue) (st : State (World := World)),
    wp (processResults copyResults processedResults)
       (fun o st' =>
          (exists values, o = returned values)
          /\ world st' = world st /\ calls st' = calls st
          /\ totalProcessed st' = totalProcessed st
          /\ results st'
             = mkExecutionResult
                 (foldersCreated (results st))
                 (filesCopied (results st) + count_copied copyResults)
                 (errors (results st))
                 (copiedFiles (results st) ++ copied_values copyResults)
                 (createdFolders (results st)))
       st.
Proof.
  induction 1 as [|result rest Hr _ IH]; intros processedResults st.
  - apply wp_ret. split; [eauto|]. repeat split.
    unfold count_copied. simpl. rewrite Nat.add_0_r, app_nil_r.
    destruct (results st); reflexivity.
  - cbn [processResults]. apply wp_bind.
    destruct result as [value|reason]; [|contradiction].
    unfold processResult.
    destruct value as [f|a b c d e f|n e]; simpl.
    + apply wp_ret. eapply wp_weaken; [apply IH|].
      intros o st' (Hv & Hw & Hc & Ht & Hres). auto.
    + apply wp_bind, wp_update_results, wp_ret.
      eapply wp_weaken; [apply IH|].
      intros o st' (Hv & Hw & Hc & Ht & Hres).
      split; [exact Hv|]. repeat split; try assumption.
      rewrite Hres. simpl. unfold count_copied. simpl.
      rewrite <- app_assoc. f_equal. lia.
    + apply wp_ret. eapply wp_weaken; [apply IH|].
      intros o st' (Hv & Hw & Hc & Ht & Hres). auto.
Qed.

Lemma length_copied_values (rs : list Settled) :
  List.length (copied_values rs) = count_copied rs.
Proof.
  unfold count_copied. induction rs as [|[[f|a b c d e f|n e]|reason] rs IH];
    simpl; auto.
Qed.

(** The processor of a batch. *)
Lemma processBatch_spec (fuel : nat)
      (destFolderId : string) (existingFileMap : Map string)
      (batch : list DriveFile) (batchIndex : nat) st :
  map_origin destFolderId (calls st) existingFileMap ->
  wp (processBatch store props fuel destFolderId existingFileMap batch
                   batchIndex)
     (fun o st' =>
        (forall e, o <> threw e)
        /\ (forall values, o = returned values ->
              copy_step (task_call destFolderId) st st'
              /\ Forall (submitted destFolderId (calls st')) batch))
     st.
Proof.
  intros Hm. unfold processBatch. apply wp_bind.
  eapply wp_weaken; [apply (copyFileBatch_spec _ _ _ _ _ Hm)|].
  intros o st1 (delta & Hs & Hnt & Hrs).
  destruct o as [rs|e|].
  - destruct (Hrs rs eq_refl) as (Hc & Hf & Hlen & Hsub).
    apply wp_bind. eapply wp_weaken; [apply (processResults_spec _ Hf)|].
    intros o st2 ((values & ->) & Hw2 & Hc2 & Ht2 & Hr2).
    apply wp_bind. unfold wp at 1. simpl. apply wp_ret.
    split; [discriminate|]. intros _ _. simpl. split.
    + destruct Hs as [C S R T].
      constructor; simpl; rewrite ?Hc2, ?Hr2, ?C, ?R, ?copies_app; simpl;
        rewrite ?length_app, ?length_copied_values; auto; try lia.
      * exists delta. auto.
      * exists []. rewrite app_nil_r. auto.
    + rewrite Hc2. exact Hsub.
  - elim (Hnt e). reflexivity.
  - split; discriminate.
Qed.

Lemma wp_delay (ms : Z) Q (st : State (World := World)) :
  Q (returned tt)
    (mkState (setTimeout store ms (world st)) (calls st) (results st)
             (folderCache st) (totalProcessed st)) ->
  wp (delay store ms) Q st.
Proof. exact (fun H => H). Qed.

Lemma Forall_submitted_mono destFolderId l d (files : list DriveFile) :
  Forall (submitted destFolderId l) files ->
  Forall (submitted destFolderId (l ++ d)) files.
Proof. apply Forall_impl. intros f. apply submitted_mono. Qed.

(** The batches of a page, from index [i] on: when the loop ends, every
    file from [i] on has been submitted. *)
Lemma processInBatches_from_spec (fuel0 : nat) (destFolderId : string)
      (existingFileMap : Map string) (items : list DriveFile)
      (batchSize : nat) (fuel : nat) :
  forall (i : nat) (out : list TaskValue) st,
    map_origin destFolderId (calls st) existingFileMap ->
    wp (processInBatches_from store fuel items batchSize
          (processBatch store props fuel0 destFolderId existingFileMap) i out)
       (fun o st' =>
          (forall e, o <> threw e)
          /\ (forall values, o = returned values ->
                copy_step (task_call destFolderId) st st'
                /\ Forall (submitted destFolderId (calls st'))
                          (skipn i items)))
       st.
Proof.
  induction fuel as [|fuel IH]; intros i out st Hm;
    cbn [processInBatches_from];
    destruct (i <? List.length items)%nat eqn:E;
    try (apply Nat.ltb_ge in E; apply wp_ret; split; [discriminate|];
         intros _ _; split; [apply copy_step_refl|];
         rewrite (skipn_all2 items E); constructor).
  - split; discriminate.
  - apply wp_bind.
    eapply wp_weaken; [apply (processBatch_spec _ _ _ _ _ _ Hm)|].
    intros o st1 (Hnt & Hret). destruct o as [batchResults|e|];
      [|elim (Hnt e); reflexivity|split; discriminate].
    destruct (Hret _ eq_refl) as (Hs1 & Hsub1).
    apply wp_bind.
    assert (Hk : forall st1' : State (World := World),
               calls st1' = calls st1 -> results st1' = results st1 ->
               wp (processInBatches_from store fuel items batchSize
                     (processBatch store props fuel0 destFolderId
                                   existingFileMap)
                     (i + batchSize) (out ++ batchResults))
                  (fun o st' =>
                     (forall e, o <> threw e)
                     /\ (forall values, o = returned values ->
                           copy_step (task_call destFolderId) st st'
                           /\ Forall (submitted destFolderId (calls st'))
                                     (skipn i items)))
                  st1').
    { intros st1' Hc Hr.
      destruct (copy_step_calls _ _ _ Hs1) as (d1 & G1 & _).
      eapply wp_weaken.
      - apply IH. rewrite Hc, G1. apply map_origin_mono, Hm.
      - intros o st2 (Hnt2 & Hret2). split; [exact Hnt2|].
        intros values ->. destruct (Hret2 _ eq_refl) as (Hs2 & Hsub2).
        destruct (copy_step_calls _ _ _ Hs2) as (d2 & G2 & _).
        split.
        + eapply copy_step_trans; [exact Hs1|].
          eapply copy_step_trans; [|exact Hs2].
          apply copy_step_same; assumption.
        + rewrite <- (firstn_skipn batchSize (skipn i items)).
          apply Forall_app. split.
          * rewrite G2, Hc. apply Forall_submitted_mono.
            rewrite <- slice_from. exact Hsub1.
          * rewrite skipn_skipn, Nat.add_comm. exact Hsub2. }
    destruct (i + batchSize <? List.length items)%nat.
    + apply wp_delay. apply Hk; reflexivity.
    + apply wp_ret. apply Hk; reflexivity.
Qed.

Lemma list_files_copy_step (shape : Call -> Prop) pageToken opts st :
  (forall answer, shape (called_listFilesInPage pageToken opts answer)) ->
  wp (list_files store pageToken opts)
     (fun o st' =>
        exists answer,
          o = match answer with
              | ok resp => returned resp
              | thrown e => threw e
              end
          /\ calls st' = calls st
                         ++ [called_listFilesInPage pageToken opts answer]
          /\ copy_step shape st st')
     st.
Proof.
  intros Hshape. apply wp_request. intros answer w _. exists answer.
  split; [reflexivity|]. split; [reflexivity|].
  constructor; simpl; auto.
  - eexists. split; [reflexivity|]. constructor; [apply Hshape|constructor].
  - rewrite copies_snoc. lia.
  - exists []. rewrite app_nil_r. auto.
Qed.

Lemma getExistingFiles_spec (destFolderId : string) (fileNames : list string)
      st :
  wp (getExistingFiles store destFolderId fileNames)
     (fun o st' =>
        exists existingFileMap,
          o = returned existingFileMap
          /\ copy_step (inner_call destFolderId) st st'
          /\ map_origin destFolderId (calls st') existingFileMap)
     st.
Proof.
  unfold getExistingFiles. destruct (List.length fileNames =? 0)%nat.
  - apply wp_ret. exists []. split; [reflexivity|].
    split; [apply copy_step_refl|]. left. reflexivity.
  - apply wp_try_catch, wp_bind.
    eapply wp_weaken;
      [apply (list_files_copy_step (inner_call destFolderId))|].
    + intros answer. simpl. eauto.
    + intros o st1 (answer & -> & Hc & Hs). destruct answer as [resp|e].
      * apply wp_ret. eexists. split; [reflexivity|]. split; [exact Hs|].
        right. exists fileNames, resp. split; [|reflexivity].
        rewrite Hc. apply in_or_app. right. left. reflexivity.
      * apply wp_ret. exists []. split; [reflexivity|]. split; [exact Hs|].
        left. reflexivity.
Qed.

Lemma inner_call_not_candidates sourceId destFolderId pageToken resp
      (delta : list Call) :
  Forall (inner_call destFolderId) delta ->
  ~ In (called_listFilesInPage pageToken (candidates_opts props sourceId)
                               (ok resp)) delta.
Proof.
  intros HF Hin. rewrite Forall_forall in HF. specialize (HF _ Hin).
  simpl in HF. destruct HF as [names H].
  apply (f_equal q) in H. simpl in H. unfold candidates_query in H.
  destruct sourceId as [id|]; [destruct (String.eqb id "")|]; discriminate.
Qed.

Lemma task_call_inner_call destFolderId (c : Call) :
  task_call destFolderId c -> inner_call destFolderId c.
Proof. destruct c; simpl; auto. contradiction. Qed.

Lemma inner_call_copy_call sourceId destFolderId (c : Call) :
  inner_call destFolderId c -> copy_call sourceId destFolderId c.
Proof. destruct c; simpl; auto. Qed.

Lemma all_covered_snoc_other sourceId destFolderId l (c : Call) :
  (forall pageToken resp,
      c <> called_listFilesInPage pageToken (candidates_opts props sourceId)
                                  (ok resp)) ->
  all_covered sourceId destFolderId l ->
  all_covered sourceId destFolderId (l ++ [c]).
Proof.
  intros Hc Hl pageToken resp Hin. apply in_app_or in Hin.
  destruct Hin as [Hin|[Hin|[]]].
  - apply Forall_submitted_mono, (Hl _ _ Hin).
  - elim (Hc pageToken resp). exact Hin.
Qed.

(** One page of candidates. *)
Lemma copyFilesPage_spec (fuel : nat) (sourceId : option string)
      (destFolderId : string) (pageToken : option string) st :
  wp (copyFilesPage store props fuel sourceId destFolderId pageToken)
     (fun o st' =>
        o <> diverged ->
        copy_step (copy_call sourceId destFolderId) st st'
        /\ (all_covered sourceId destFolderId (calls st) ->
            all_covered sourceId destFolderId (calls st')))
     st.
Proof.
  unfold copyFilesPage. apply wp_bind.
  eapply wp_weaken;
    [apply (list_files_copy_step (copy_call sourceId destFolderId))|].
  { intros answer. simpl. auto. }
  intros o st1 (answer & -> & Hc1 & Hs1). destruct answer as [filesPage|e].
  - (* the page is there *)
    assert (Hcov : forall (st3 : State (World := World)) d,
               calls st3 = calls st1 ++ d ->
               Forall (inner_call destFolderId) d ->
               Forall (submitted destFolderId (calls st3))
                      (filesToProcess props filesPage) ->
               all_covered sourceId destFolderId (calls st) ->
               all_covered sourceId destFolderId (calls st3)).
    { intros st3 d Hc3 Hd Hsub Hold tok resp Hin.
      rewrite Hc3, Hc1 in Hin. apply in_app_or in Hin.
      destruct Hin as [Hin|Hin];
        [|elim (inner_call_not_candidates _ _ _ _ _ Hd Hin)].
      apply in_app_or in Hin. destruct Hin as [Hin|[Hin|[]]].
      - rewrite Hc3, Hc1, <- app_assoc. apply Forall_submitted_mono.
        apply (Hold _ _ Hin).
      - injection Hin as _ <-. exact Hsub. }
    apply wp_bind.
    destruct (0 <? List.length (filesToProcess props filesPage))%nat eqn:E.
    + apply wp_bind. eapply wp_weaken; [apply getExistingFiles_spec|].
      intros o st2 (existingFileMap & -> & Hs2 & Hm2).
      apply wp_bind. unfold processInBatches.
      eapply wp_weaken; [apply (processInBatches_from_spec _ _ _ _ _ _ _ _ _ Hm2)|].
      intros o st3 (Hnt & Hret).
      destruct o as [values|e|];
        [|elim (Hnt e); reflexivity|intros H; elim H; reflexivity].
      destruct (Hret _ eq_refl) as (Hs3 & Hsub). simpl in Hsub.
      do 2 apply wp_ret. intros _.
      assert (Hs23 : copy_step (inner_call destFolderId) st1 st3).
      { eapply copy_step_trans; [exact Hs2|].
        eapply copy_step_weaken; [|exact Hs3]. apply task_call_inner_call. }
      split.
      * eapply copy_step_trans; [exact Hs1|].
        eapply copy_step_weaken; [|exact Hs23]. apply inner_call_copy_call.
      * destruct (copy_step_calls _ _ _ Hs23) as (d & Hd1 & Hd2).
        apply (Hcov st3 d Hd1 Hd2 Hsub).
    + do 2 apply wp_ret. intros _. split; [exact Hs1|].
      apply (Hcov st1 []); [rewrite app_nil_r; reflexivity|constructor|].
      apply Nat.ltb_ge in E.
      destruct (filesToProcess props filesPage); [constructor|simpl in E; lia].
  - (* the listing failed *)
    intros _. split; [exact Hs1|]. rewrite Hc1.
    apply all_covered_snoc_other. discriminate.
Qed.

Lemma wp_push_error (e : ErrorRecord) Q (st : State (World := World)) :
  Q (returned tt)
    (mkState (world st) (calls st)
       (mkExecutionResult (foldersCreated (results st))
          (filesCopied (results st)) (errors (results st) ++ [e])
          (copiedFiles (results st)) (createdFolders (results st)))
       (folderCache st) (totalProcessed st)) ->
  wp (push_error e) Q st.
Proof. exact (fun H => H). Qed.

(** The pages of candidates of one folder. *)
Lemma copyFilesOptimized_from_spec (sourceId : option string)
      (destFolderId : string) (fuel : nat) :
  forall (pageToken : option string) st,
    wp (copyFilesOptimized_from store props fuel sourceId destFolderId
                                pageToken)
       (fun o st' =>
          (forall e, o <> threw e)
          /\ (o <> diverged ->
              copy_step (copy_call sourceId destFolderId) st st'
              /\ (all_covered sourceId destFolderId (calls st) ->
                  all_covered sourceId destFolderId (calls st'))))
       st.
Proof.
  induction fuel as [|fuel IH]; intros pageToken st;
    cbn [copyFilesOptimized_from].
  - split; [discriminate|]. intros H. elim H. reflexivity.
  - apply wp_bind, wp_try_catch, wp_bind.
    eapply wp_weaken; [apply copyFilesPage_spec|].
    intros o st1 Hpage. destruct o as [next|e|].
    + destruct (Hpage ltac:(discriminate)) as (Hs1 & Hcov1).
      apply wp_ret. cbv beta iota. destruct (truthy next).
      * eapply wp_weaken; [apply IH|].
        intros o st2 (Hnt & Hret). split; [exact Hnt|]. intros Hnd.
        destruct (Hret Hnd) as (Hs2 & Hcov2). split; [|auto].
        eapply copy_step_trans; eassumption.
      * apply wp_ret. split; [discriminate|]. auto.
    + destruct (Hpage ltac:(discriminate)) as (Hs1 & Hcov1).
      apply wp_bind, wp_push_error. do 2 apply wp_ret.
      split; [discriminate|]. intros _. split; [|exact Hcov1].
      eapply copy_step_trans; [exact Hs1|].
      constructor; simpl; auto.
      * exists []. rewrite app_nil_r. auto.
      * eexists. split; [reflexivity|]. constructor; [|constructor].
        eexists. reflexivity.
    + split; [discriminate|]. intros H. elim H. reflexivity.
Qed.

Lemma copyFilesOptimized_spec (fuel : nat) (sourceId : option string)
      (destFolderId : string) st :
  wp (copyFilesOptimized store props fuel sourceId destFolderId)
     (fun o st' =>
        (forall e, o <> threw e)
        /\ (o <> diverged ->
            copy_step (copy_call sourceId destFolderId) st st'
            /\ (all_covered sourceId destFolderId (calls st) ->
                all_covered sourceId destFolderId (calls st'))))
     st.
Proof.
  unfold copyFilesOptimized. apply wp_bind. unfold wp at 1. simpl.
  apply wp_bind. eapply wp_weaken; [apply copyFilesOptimized_from_spec|].
  intros o st1 (Hnt & Hret). destruct o as [[]|e|].
  - unfold wp. simpl. split; [discriminate|]. intros _.
    destruct (Hret ltac:(discriminate)) as (Hs & Hcov). split; [|exact Hcov].
    eapply copy_step_trans; [|exact Hs]. apply copy_step_same; reflexivity.
  - elim (Hnt e). reflexivity.
  - split; [discriminate|]. intros H. elim H. reflexivity.
Qed.





End WithStore.
End CopyFacts.

(** ** execute_folder_copy: the run *)

Module RunFacts.
Import Js JsFacts GoogleDrive ExecuteFolderCopy Notions RunLogic FolderFacts CopyFacts.

Section WithStore.
Context {World : Type}.
Variable store : RemoteStore World.
Variable props : Props.

Local Abbreviation tripped := (Notions.tripped store).
Local Abbreviation count_inv := (Notions.count_inv (World := World)).
Local Abbreviation copy_step := (Notions.copy_step (World := World)).
Local Abbreviation folder_step := (Notions.folder_step (World := World)).
Local Abbreviation phase := (Notions.phase store).

Lemma copy_step_inv shape st st' :
  copy_step shape st st' -> count_inv st -> count_inv st'.
Proof.
  intros [_ F C A B (errs & E & X)] (I1 & I2 & I3 & I4).
  unfold count_inv. rewrite A, B, E. repeat split; try lia.
  apply Forall_app. auto.
Qed.

Lemma folder_step_inv st st' :
  folder_step st st' -> count_inv st -> count_inv st'.
Proof.
  intros [_ _ R C _] H. unfold count_inv in *. rewrite R, C. exact H.
Qed.

Lemma phase_ret {A} startTime (a : A) : phase startTime (ret a).
Proof. intros st. apply wp_ret. split; [discriminate|auto]. Qed.

Lemma phase_bind {A B} startTime (m : M A) (k : A -> M B) :
  phase startTime m -> (forall a, phase startTime (k a)) ->
  phase startTime (bind m k).
Proof.
  intros Hm Hk st. apply wp_bind. eapply wp_weaken; [apply Hm|].
  intros o st1 (Ht & Hi). destruct o as [a|e|].
  - eapply wp_weaken; [apply Hk|]. intros o st2 (Ht2 & Hi2).
    split; [exact Ht2|]. intros Hnd I. apply (Hi2 Hnd), Hi; [discriminate|].
    exact I.
  - split.
    + intros e' [= <-]. apply Ht. reflexivity.
    + intros _. apply Hi. discriminate.
  - split; [discriminate|]. intros H. elim H. reflexivity.
Qed.

Lemma phase_checkTimeout startTime : phase startTime (checkTimeout store startTime).
Proof.
  intros st. unfold wp.
  destruct (checkTimeout store startTime st) as [o st'] eqn:E. simpl.
  assert (H := E). unfold checkTimeout, bind, now, throw, ret in H.
  destruct (Date_now store (world st)) as [t w].
  destruct (t - startTime >? timeoutMs)%Z; injection H as <- <-.
  - split; [|intros _ I; exact I]. intros e [= <-]. split; [reflexivity|].
    exists st. rewrite E. auto.
  - split; [discriminate|]. intros _ I. exact I.
Qed.

Lemma phase_copyFilesOptimized startTime fuel sourceId destFolderId :
  phase startTime (copyFilesOptimized store props fuel sourceId destFolderId).
Proof.
  intros st. eapply wp_weaken; [apply copyFilesOptimized_spec|].
  intros o st' (Hnt & Hret). split.
  - intros e ->. elim (Hnt e). reflexivity.
  - intros Hnd. apply (copy_step_inv _ _ _ (proj1 (Hret Hnd))).
Qed.

Lemma phase_createFolderStructureOptimized startTime fuel sourceId
      destParentId folderPath :
  phase startTime
        (createFolderStructureOptimized store props fuel sourceId destParentId
                                        folderPath).
Proof.
  intros st. eapply wp_weaken; [apply createFolderStructureOptimized_spec|].
  intros o st' (Hs & Hnt & _). split.
  - intros e ->. elim (Hnt e). reflexivity.
  - intros _. apply (folder_step_inv _ _ Hs).
Qed.

Lemma phase_delay startTime (ms : Z) : phase startTime (delay store ms).
Proof. intros st. apply wp_delay. split; [discriminate|auto]. Qed.

Lemma phase_copySubfolders startTime fuel (folders : list FolderRecord) :
  phase startTime (copySubfolders store props fuel startTime folders).
Proof.
  induction folders as [|folder rest IH]; cbn [copySubfolders].
  - apply phase_ret.
  - apply phase_bind; [apply phase_checkTimeout|]. intros _.
    apply phase_bind; [apply phase_copyFilesOptimized|]. intros _.
    apply phase_bind; [apply phase_delay|]. intros _. exact IH.
Qed.

Lemma phase_copyAll startTime fuel :
  phase startTime (copyAll store props fuel startTime).
Proof.
  unfold copyAll.
  destruct (preserveStructure props && truthy (sourceFolderId props)).
  - apply phase_bind; [apply phase_checkTimeout|]. intros _.
    apply phase_bind; [apply phase_createFolderStructureOptimized|].
    intros folders. apply phase_bind.
    { intros st. apply wp_update_results. split; [discriminate|].
      intros _ (I1 & I2 & I3 & I4). unfold count_inv. simpl.
      rewrite length_map. auto. }
    intros _. apply phase_bind; [apply phase_checkTimeout|]. intros _.
    apply phase_bind; [apply phase_copyFilesOptimized|]. intros _.
    apply phase_bind; [apply phase_checkTimeout|]. intros _.
    apply phase_copySubfolders.
  - apply phase_bind; [apply phase_checkTimeout|]. intros _.
    apply phase_bind; [apply phase_copyFilesOptimized|]. intros _.
    apply phase_ret.
Qed.

Lemma count_inv_initial (w : World) :
  count_inv (mkState w [] empty_results [] 0).
Proof. repeat split; constructor. Qed.

(** The end of [run], in its [try] block and in its [catch]: the clock is
    read, the result is built from [results]. *)
Lemma wp_finish (build : Z -> ExecutionResult -> Z -> RunResult)
      (startTime : Z) Q (st : State (World := World)) :
  (forall st' duration timestamp,
      calls st' = calls st -> results st' = results st ->
      Q (returned (build duration (results st) timestamp)) st') ->
  wp (bind (duration_since store startTime)
           (fun duration =>
              bind get_results
                   (fun r =>
                      bind (now store)
                           (fun timestamp =>
                              ret (build duration r timestamp)))))
     Q st.
Proof.
  intros H. apply wp_bind. unfold duration_since.
  apply wp_bind, wp_now. intros t2 w2 _. apply wp_ret.
  apply wp_bind. unfold wp at 1. simpl.
  apply wp_bind, wp_now. intros t3 w3 _. apply wp_ret.
  apply H; reflexivity.
Qed.

(** [run] from the end of its [try] block on. *)
Lemma wp_run_from (fuel : nat) Q (st : State (World := World)) :
  (forall startTime w1,
      Date_now store (world st) = (startTime, w1) ->
      wp (copyAll store props fuel startTime)
         (fun o st1 =>
            match o with
            | returned _ =>
                forall st' duration timestamp,
                  calls st' = calls st1 -> results st' = results st1 ->
                  Q (returned
                       (run_success (summary_text (results st1) duration)
                          duration
                          (statistics (foldersCreated (results st1))
                             (filesCopied (results st1))
                             (List.length (errors (results st1)))
                             (batchSize props) (maxConcurrency props))
                          (details (slice 0 100 (copiedFiles (results st1)))
                             (createdFolders (results st1))
                             (slice 0 50 (errors (results st1))))
                          timestamp))
                    st'
            | threw message =>
                forall st' duration timestamp,
                  calls st' = calls st1 -> results st' = results st1 ->
                  Q (returned
                       (run_failure message
                          (partialResults (foldersCreated (results st1))
                             (filesCopied (results st1))
                             (List.length (errors (results st1))))
                          duration timestamp))
                    st'
            | diverged => Q diverged st1
            end)
         (mkState w1 (calls st) (results st) (folderCache st)
                  (totalProcessed st))) ->
  wp (run_from store props fuel) Q st.
Proof.
  intros H. unfold run_from. apply wp_bind, wp_now.
  intros startTime w1 Hnow. apply wp_try_catch, wp_bind.
  eapply wp_weaken; [apply (H _ _ Hnow)|].
  intros o st1 Ho. destruct o as [[]|message|].
  - apply (wp_finish
             (fun duration r timestamp =>
                run_success (summary_text r duration) duration
                  (statistics (foldersCreated r) (filesCopied r)
                     (List.length (errors r))
                     (batchSize props) (maxConcurrency props))
                  (details (slice 0 100 (copiedFiles r)) (createdFolders r)
                           (slice 0 50 (errors r)))
                  timestamp)).
    exact Ho.
  - apply (wp_finish
             (fun duration r timestamp =>
                run_failure message
                  (partialResults (foldersCreated r) (filesCopied r)
                                  (List.length (errors r)))
                  duration timestamp)).
    exact Ho.
  - exact Ho.
Qed.

(** [run] never throws: what its [try] block throws, its [catch] turns
    into a result. *)
Lemma run_never_throws (fuel : nat) (w : World) (e : string) :
  fst (run store props fuel w) <> threw e.
Proof.
  revert e. unfold run.
  apply (wp_run_from fuel (fun o _ => forall e, o <> threw e)).
  intros startTime w1 _. unfold wp.
  destruct (copyAll store props fuel startTime _) as [[[]|message|] st1];
    simpl; intros; discriminate.
Qed.

End WithStore.

(** C5, as stated, fails: on [slow_drive] the deadline check after the
    copy of the files of the root trips; the result is a failure with the
    three counters, and the record of the copied file, which [results]
    holds, is not in it. *)
Lemma timeout_result_without_records :
  let out := run DriveModel.drive slow_props 5 slow_drive in
  fst out = returned (run_failure timeoutMessage (partialResults 0 1 0)
                                  300 300000)
  /\ copiedFiles (results (snd out))
     = [copied_file "a.txt" "a.txt" "1" "new0" (Some "1") "text/plain"]
  /\ (forall r, fst out = returned r ->
        returned_lists r
        <> Some (copiedFiles (results (snd out)),
                 createdFolders (results (snd out)),
                 errors (results (snd out)))).
Proof.
  vm_compute. split; [reflexivity|]. split; [reflexivity|].
  intros r [= <-]. discriminate.
Qed.

(** C5, amended.  When the [try] block of [run] is left by an error, a
    deadline check has tripped: the error is the timeout, [run] returns a
    result with [success: false] and that error, and the counters of the
    result (folders created, files copied, number of errors) are those of
    [results] as the check that tripped found it, where the files counted
    are the copies the store had made until then, one record each.  The
    lists of records stay in [results]; the result does not carry them. *)
Theorem run_timeout_partial_counts
        {World : Type} (store : RemoteStore World) (props : Props)
        (fuel : nat) (w w1 : World) (startTime : Z) (e : string)
        (st1 : State (World := World)) :
  Date_now store w = (startTime, w1) ->
  copyAll store props fuel startTime (mkState w1 [] empty_results [] 0)
  = (threw e, st1) ->
  e = timeoutMessage
  /\ (exists stc,
         checkTimeout store startTime stc = (threw timeoutMessage, st1)
         /\ results stc = results st1 /\ calls stc = calls st1
         /\ count_inv stc)
  /\ exists duration timestamp st',
      run store props fuel w
      = (returned
           (run_failure timeoutMessage
              (partialResults (foldersCreated (results st1))
                              (filesCopied (results st1))
                              (List.length (errors (results st1))))
              duration timestamp),
         st')
      /\ results st' = results st1 /\ calls st' = calls st1
      /\ returned_lists
           (run_failure timeoutMessage
              (partialResults (foldersCreated (results st1))
                              (filesCopied (results st1))
                              (List.length (errors (results st1))))
              duration timestamp) = None.
Proof.
  intros Hnow Hcopy.
  pose proof (phase_copyAll store props startTime fuel
                            (mkState w1 [] empty_results [] 0)) as H.
  unfold wp in H. rewrite Hcopy in H. cbn [fst snd] in H.
  destruct H as (Ht & Hi).
  destruct (Ht e eq_refl) as (-> & stc & Hc & Hr & Hl).
  split; [reflexivity|]. split.
  - exists stc. split; [exact Hc|]. split; [exact Hr|]. split; [exact Hl|].
    assert (I : count_inv st1)
      by (apply Hi; [discriminate|apply count_inv_initial]).
    unfold count_inv in *. rewrite Hr, Hl. exact I.
  - assert (G : wp (run_from store props fuel)
                   (fun o st' =>
                      exists duration timestamp,
                        o = returned
                              (run_failure timeoutMessage
                                 (partialResults
                                    (foldersCreated (results st1))
                                    (filesCopied (results st1))
                                    (List.length (errors (results st1))))
                                 duration timestamp)
                        /\ results st' = results st1
                        /\ calls st' = calls st1)
                   (mkState w [] empty_results [] 0)).
    { apply wp_run_from. simpl. intros startTime' w1' Hnow'.
      rewrite Hnow in Hnow'. injection Hnow' as <- <-.
      unfold wp. rewrite Hcopy. simpl. intros st' duration timestamp H1 H2.
      exists duration, timestamp. auto. }
    unfold wp in G. destruct G as (duration & timestamp & G1 & G2 & G3).
    exists duration, timestamp, (snd (run store props fuel w)).
    split; [|auto]. unfold run. rewrite <- G1. apply surjective_pairing.
Qed.

Lemma run_timeout_partial_counts_witness :
  exists duration timestamp st',
    run DriveModel.drive slow_props 5 slow_drive
    = (returned (run_failure timeoutMessage (partialResults 0 1 0)
                             duration timestamp), st').
Proof.
  destruct (copyAll DriveModel.drive slow_props 5 0
                    (mkState slow_drive [] empty_results [] 0))
    as [o st1] eqn:E.
  pose proof E as E'. vm_compute in E'. injection E' as <- Hst.
  destruct (run_timeout_partial_counts DriveModel.drive slow_props 5
              slow_drive slow_drive 0 _ st1 eq_refl E)
    as (_ & _ & duration & timestamp & st' & H & _).
  exists duration, timestamp, st'. rewrite H, <- Hst. reflexivity.
Defined.


Section WithStore.
Context {World : Type}.
Variable store : RemoteStore World.
Variable props : Props.




End WithStore.



(** Whenever [run] returns, the counters of [results] are right. *)
Lemma run_count_inv {World : Type} (store : RemoteStore World)
      (props : Props) (fuel : nat) (w : World) (r : RunResult)
      (st' : State (World := World)) :
  run store props fuel w = (returned r, st') -> count_inv st'.
Proof.
  intros Hrun.
  assert (G : wp (run_from store props fuel)
                 (fun o st' => o <> diverged -> count_inv st')
                 (mkState w [] empty_results [] 0)).
  { apply wp_run_from. simpl. intros startTime w1 _.
    eapply wp_weaken; [apply (phase_copyAll store props)|].
    intros o st1 (_ & Hi).
    assert (Hfin : o <> diverged ->
                   forall st2 : State (World := World),
                     calls st2 = calls st1 -> results st2 = results st1 ->
                     count_inv st2).
    { intros Hnd st2 Hc Hr. unfold count_inv. rewrite Hc, Hr.
      apply Hi; [exact Hnd|]. apply count_inv_initial. }
    destruct o as [[]|e|].
    - intros st2 d t Hc Hr _. apply Hfin; [discriminate|exact Hc|exact Hr].
    - intros st2 d t Hc Hr _. apply Hfin; [discriminate|exact Hc|exact Hr].
    - intros H. elim H. reflexivity. }
  unfold wp in G. fold (run store props fuel w) in G. rewrite Hrun in G.
  apply G. discriminate.
Qed.

(** C6 at a failing input.  On [refusing_drive] the copy of [a.txt] throws;
    the task catches the error and the file [b.txt] of the same batch is
    copied, but the error is recorded nowhere: [results.errors] is empty
    at the end and the run reports no error. *)
Theorem failed_copy_not_recorded :
  let out := run DriveModel.drive refusing_props 5 refusing_drive in
  fst out
  = returned
      (run_success "Successfully copied 1 files and created 0 folders in 0s"
         0 (statistics 0 1 0 20 5)
         (details [copied_file "b.txt" "b.txt" "2" "new0" (Some "1")
                               "text/plain"] [] [])
         0)
  /\ errors (results (snd out)) = []
  /\ filter (fun c => match c with
                      | called_copyFile _ _ _ _ => true
                      | _ => false
                      end) (calls (snd out))
     = [called_copyFile "1" "a.txt" "D"
          (thrown "The user does not have sufficient permissions for this file.");
        called_copyFile "2" "b.txt" "D" (ok "new0")].
Proof. vm_compute. repeat split. Qed.

(** The errors a run records are listing errors, never the error of a
    copy. *)
Lemma run_errors_are_listing_errors {World : Type} (store : RemoteStore World)
      (props : Props) (fuel : nat) (w : World) (r : RunResult)
      (st' : State (World := World)) :
  run store props fuel w = (returned r, st') ->
  Forall is_batch_error (errors (results st')).
Proof. intros H. apply (run_count_inv _ _ _ _ _ _ H). Qed.

(** C7 at a failing input.  On [eleven_drive], under the policy [skip],
    the existence query asks for the first ten names only; the eleventh
    file, whose name is in the destination, is copied, and the
    destination ends with two files of that name. *)
Theorem skip_copies_eleventh_collision :
  let st := snd (run DriveModel.drive eleven_props 5 eleven_drive) in
  In (called_listFilesInPage None
        (existingFiles_opts "D"
           ["n0"; "n1"; "n2"; "n3"; "n4"; "n5"; "n6"; "n7"; "n8"; "n9";
            "n10"])
        (ok (mkResponse (Some []) None)))
     (calls st)
  /\ q (existingFiles_opts "D"
          ["n0"; "n1"; "n2"; "n3"; "n4"; "n5"; "n6"; "n7"; "n8"; "n9";
           "n10"])
     = [name_among ["n0"; "n1"; "n2"; "n3"; "n4"; "n5"; "n6"; "n7"; "n8";
                    "n9"];
        in_parents "D"; not_trashed]
  /\ In (called_copyFile "s10" "n10" "D" (ok "new10")) (calls st)
  /\ map (fun it => file_id (DriveModel.item_file it))
         (filter (fun it =>
                    String.eqb (DriveModel.item_parent it) "D"
                    && String.eqb (file_name (DriveModel.item_file it)) "n10")
                 (DriveModel.items (world st)))
     = ["d"; "new10"].
Proof.
  vm_compute. split; [|split; [reflexivity|split; [|reflexivity]]];
    repeat (first [left; reflexivity|right]).
Qed.

Section WithStore.
Context {World : Type}.
Variable store : RemoteStore World.
Variable props : Props.

(** Under the policy [skip], a file whose name is in the map of the
    existing names is not copied: its task asks nothing of the store. *)
Lemma skip_known_name_not_copied (destFolderId : string)
      (existingFileMap : Map string) (file : DriveFile)
      (st : State (World := World)) :
  conflictResolution props = "skip" ->
  has (file_name file) existingFileMap = true ->
  copyTask store props destFolderId existingFileMap file st
  = (returned (fulfilled (skipped_file file)), st).
Proof.
  intros Hp Hh. unfold copyTask, resolveName, bind, try_catch, ret.
  unfold has in Hh.
  destruct (get (file_name file) existingFileMap); [|discriminate].
  rewrite Hp. reflexivity.
Qed.

End WithStore.

End RunFacts.

(** ** execute_folder_copy: the names under the policy [rename] *)

Module ConflictFacts.
Import Js JsFacts GoogleDrive ExecuteFolderCopy Notions RunLogic RenameFacts.

(** C8, as stated, fails: on [clash_drive] the name made for the copy of
    [a.txt] is [a_copy_5.txt], which is in the set of existing names that
    the existence query gave. *)
Lemma renamed_hits_existing_name :
  let st := snd (run DriveModel.drive clash_props 5 clash_drive) in
  let existing :=
    mkResponse
      (Some [mkDriveFile "3" "a.txt" "text/plain" (Some "1") None None;
             mkDriveFile "4" "a_copy_5.txt" "text/plain" (Some "1") None None])
      None in
  In (called_listFilesInPage None
        (existingFiles_opts "D" ["a.txt"; "a_copy_5.txt"]) (ok existing))
     (calls st)
  /\ has "a.txt" (name_id_map (files existing)) = true
  /\ renamed "a.txt" 5 = "a_copy_5.txt"
  /\ has (renamed "a.txt" 5) (name_id_map (files existing)) = true
  /\ In (called_copyFile "1" "a_copy_5.txt" "D" (ok "new0")) (calls st).
Proof.
  vm_compute. repeat split; repeat (first [left; reflexivity|right]).
Qed.

(** C8, amended.  Under the policy [rename], the copy of a file whose name
    is in the set of existing names is asked under the name [renamed]
    makes from the name and the current time.  That name differs from the
    name of the file; for a name [base.ext] whose last part [ext] is not
    empty it is [base_copy_<time>.ext], so the extension is kept; for a
    name without dot it is [name_copy_<time>]. *)
Theorem renamed_differs_keeps_extension
        {World : Type} (store : RemoteStore World) (props : Props)
        (destFolderId : string) (existingFileMap : Map string)
        (file : DriveFile) (st : State (World := World)) :
  let fileName := file_name file in
  (forall t, renamed fileName t <> fileName)
  /\ (forall t base ext,
        fileName = (base ++ "." ++ ext)%string ->
        includes "." ext = false -> ext <> "" ->
        renamed fileName t
        = (base ++ "_copy_" ++ Number_toString t ++ "." ++ ext)%string)
  /\ (forall t, includes "." fileName = false ->
                renamed fileName t
                = (fileName ++ "_copy_" ++ Number_toString t)%string)
  /\ (conflictResolution props = "rename" ->
      has fileName existingFileMap = true ->
      exists t w answer,
        Date_now store (world st) = (t, w)
        /\ calls (snd (copyTask store props destFolderId existingFileMap
                                file st))
           = calls st
             ++ [called_copyFile (file_id file) (renamed fileName t)
                                 destFolderId answer]).
Proof.
  intros fileName. split; [|split; [|split]].
  - intros t. apply renamed_neq.
  - intros t base ext -> He Hne.
    change (base ++ "." ++ ext)%string with (base ++ String "." ext)%string.
    rewrite (renamed_with_dot base ext t He).
    apply String.eqb_neq in Hne. rewrite Hne. reflexivity.
  - intros t H. apply renamed_without_dot, H.
  - intros Hp Hh. unfold has in Hh.
    unfold copyTask, resolveName, bind, try_catch, ret, now, copy_file,
      request. fold fileName.
    destruct (get fileName existingFileMap) as [existingId|]; [|discriminate].
    rewrite Hp. simpl.
    destruct (Date_now store (world st)) as [t w]. simpl.
    destruct (copyFile store (file_id file) (renamed fileName t) destFolderId
                       w) as [answer w'] eqn:E.
    exists t, w, answer. split; [reflexivity|].
    destruct answer; reflexivity.
Qed.

End ConflictFacts.

(** * Further properties *)

(** ** compare_folders: the comparison, the plan, the enumeration and the
    run *)

Module CompareMore.
Import Js JsFacts GoogleDrive CompareFolders Notions MoreNotions.

Lemma set_fresh {V} (k : string) (v : V) (m : Map V) :
  ~ In k (keys m) -> set k v m = m ++ [(k, v)].
Proof.
  induction m as [|[k0 v0] m IH]; simpl; intros H; [reflexivity|].
  destruct (String.eqb k0 k) eqn:E.
  - apply String.eqb_eq in E. elim H. auto.
  - rewrite IH; [reflexivity|]. intros Hin. apply H. auto.
Qed.

Lemma index_distinct {A} (key : A -> string) (l : list A) (m : Map A) :
  NoDup (keys m ++ map key l) ->
  index key l m = m ++ map (fun x => (key x, x)) l.
Proof.
  revert m. induction l as [|x l IH]; intros m H.
  - simpl. rewrite app_nil_r. reflexivity.
  - rewrite index_cons.
    assert (Hx : ~ In (key x) (keys m)).
    { intros Hin. simpl in H. apply NoDup_remove_2 in H. apply H.
      apply in_or_app. auto. }
    rewrite (set_fresh _ _ _ Hx), IH.
    + rewrite <- app_assoc. reflexivity.
    + unfold keys in *. rewrite map_app, <- app_assoc. exact H.
Qed.

Lemma get_In_distinct {V} (k : string) (v : V) (m : Map V) :
  NoDup (keys m) -> In (k, v) m -> get k m = Some v.
Proof.
  induction m as [|[k0 v0] m IH]; simpl; [intros _ []|].
  intros Hnd [H|H].
  - inversion H; subst. rewrite String.eqb_refl. reflexivity.
  - inversion Hnd as [|? ? Hn Hd]; subst.
    destruct (String.eqb k0 k) eqn:E; [|auto].
    apply String.eqb_eq in E. subst k0. elim Hn.
    apply (in_map fst) in H. exact H.
Qed.

Section WithDate.
Variable Date_parse : string -> option Z.

Lemma option_string_eqb_refl (a : option string) :
  option_string_eqb a a = true.
Proof. destruct a; simpl; [apply String.eqb_refl|reflexivity]. Qed.

Lemma isFileModified_same (e : Entry) (cc : bool) :
  isFileModified Date_parse e e cc = None.
Proof.
  unfold isFileModified, reasons.
  assert (H : num_gt (newDate Date_parse (modifiedTime e))
                     (newDate Date_parse (modifiedTime e)) = false).
  { unfold num_gt. destruct (newDate _ _); [apply Z.ltb_irrefl|reflexivity]. }
  rewrite H, !option_string_eqb_refl. simpl.
  destruct (cc && truthy (md5Checksum e) && truthy (md5Checksum e));
    reflexivity.
Qed.

Lemma classify_fold_same (dm : Map Entry) (cc : bool) (m : Map Entry)
      (c : Comparison) :
  (forall kv, In kv m -> get (fst kv) dm = Some (snd kv)) ->
  fold_left (classify Date_parse dm cc) m c
  = mkComparison (additions c) (modifications c) (deletions c)
                 (unchanged c ++ map snd m).
Proof.
  revert c. induction m as [|kv m IH]; intros c H; simpl.
  - rewrite app_nil_r. destruct c; reflexivity.
  - rewrite IH by (intros; apply H; right; assumption).
    unfold classify. rewrite (H kv (or_introl eq_refl)).
    rewrite isFileModified_same. simpl. rewrite <- app_assoc. reflexivity.
Qed.

Lemma classify_fold_new (cc : bool) (m : Map Entry) (c : Comparison) :
  fold_left (classify Date_parse [] cc) m c
  = mkComparison (additions c ++ map snd m) (modifications c) (deletions c)
                 (unchanged c).
Proof.
  revert c. induction m as [|kv m IH]; intros c; simpl.
  - rewrite app_nil_r. destruct c; reflexivity.
  - rewrite IH. simpl. rewrite <- app_assoc. reflexivity.
Qed.

Lemma classifyDeletion_fold_kept (sm m : Map Entry) (c : Comparison) :
  (forall kv, In kv m -> has (fst kv) sm = true) ->
  fold_left (classifyDeletion sm) m c = c.
Proof.
  revert c. induction m as [|kv m IH]; intros c H; simpl; [reflexivity|].
  unfold classifyDeletion at 2. rewrite (H kv (or_introl eq_refl)). simpl.
  apply IH. intros; apply H; right; assumption.
Qed.

Lemma classifyDeletion_fold_gone (m : Map Entry) (c : Comparison) :
  fold_left (classifyDeletion []) m c
  = mkComparison (additions c) (modifications c) (deletions c ++ map snd m)
                 (unchanged c).
Proof.
  revert c. induction m as [|kv m IH]; intros c; simpl.
  - rewrite app_nil_r. destruct c; reflexivity.
  - rewrite IH. simpl. rewrite <- app_assoc. reflexivity.
Qed.

Lemma index_paths_distinct (A : list Entry) :
  NoDup (map path A) ->
  index path A [] = map (fun e => (path e, e)) A
  /\ map snd (index path A []) = A.
Proof.
  intros H. rewrite index_distinct by exact H. simpl. split; [reflexivity|].
  rewrite map_map. simpl. apply map_id.
Qed.

End WithDate.

(** X1.  A list of entries with distinct paths compared with itself is
    unchanged throughout: [compareFiles] puts every entry, in the order of
    the list, in [unchanged] and leaves the three other buckets empty,
    whatever the dates are and whether the checksums are compared or
    not. *)
Theorem compareFiles_same (Date_parse : string -> option Z)
        (A : list Entry) (compareContent : bool) :
  NoDup (map path A) ->
  compareFiles Date_parse A A compareContent = mkComparison [] [] [] A.
Proof.
  intros H. unfold compareFiles.
  change (fold_left (fun m file => set (path file) file m) A [])
    with (index path A []).
  destruct (index_paths_distinct A H) as [_ Hv].
  assert (Hnd := NoDup_keys_index path A [] (NoDup_nil _)).
  rewrite classify_fold_same.
  - rewrite classifyDeletion_fold_kept.
    + simpl. rewrite Hv. reflexivity.
    + intros kv Hin. apply has_true_keys. apply (in_map fst) in Hin. exact Hin.
  - intros [k v] Hin. apply get_In_distinct; assumption.
Qed.

Lemma compareFiles_same_witness :
  compareFiles (fun _ => None) some_entries some_entries true
  = mkComparison [] [] [] some_entries.
Proof.
  apply (compareFiles_same (fun _ => None) some_entries true).
  repeat constructor; simpl; intuition discriminate.
Defined.

(** X2.  Against an empty destination list every entry of a source list
    with distinct paths is an addition, and against an empty source list
    every entry of such a destination list is a deletion; the order of the
    list is kept and no other bucket is filled. *)
Theorem compareFiles_empty_side (Date_parse : string -> option Z)
        (A : list Entry) (compareContent : bool) :
  NoDup (map path A) ->
  compareFiles Date_parse A [] compareContent = mkComparison A [] [] []
  /\ compareFiles Date_parse [] A compareContent = mkComparison [] [] A [].
Proof.
  intros H. unfold compareFiles.
  change (fold_left (fun m file => set (path file) file m) A [])
    with (index path A []).
  destruct (index_paths_distinct A H) as [_ Hv].
  split.
  - simpl. rewrite classify_fold_new. simpl. rewrite Hv. reflexivity.
  - simpl. rewrite classifyDeletion_fold_gone. simpl. rewrite Hv. reflexivity.
Qed.

Lemma compareFiles_empty_side_witness :
  compareFiles (fun _ => None) some_entries [] false
  = mkComparison some_entries [] [] []
  /\ compareFiles (fun _ => None) [] some_entries false
     = mkComparison [] [] some_entries [].
Proof.
  apply (compareFiles_empty_side (fun _ => None) some_entries false).
  repeat constructor; simpl; intuition discriminate.
Defined.

(** ** The plan *)

Lemma length_plan (c : Comparison) :
  List.length (generateSyncPlan c)
  = (List.length (additions c) + List.length (modifications c)
     + List.length (deletions c))%nat.
Proof.
  unfold generateSyncPlan.
  rewrite (Permutation_length (sort_perm priority (syncActions c))).
  unfold syncActions. rewrite !length_app, !length_map. lia.
Qed.

(** X3.  The plan has one action for each addition, each modification
    and each deletion of the comparison and none for the unchanged
    entries: its length is the sum of the three counts, and a comparison
    with unchanged entries only gives the empty plan. *)
Theorem generateSyncPlan_length (c : Comparison) :
  List.length (generateSyncPlan c)
  = (List.length (additions c) + List.length (modifications c)
     + List.length (deletions c))%nat
  /\ generateSyncPlan (mkComparison [] [] [] (unchanged c)) = [].
Proof. split; [apply length_plan|reflexivity]. Qed.

Lemma priority_in_plan (c : Comparison) (a : SyncAction) :
  In a (generateSyncPlan c) ->
  match a with
  | delete file _ => priority a = (if isFolder file then 3 else 2)%Z
  | _ => (priority a <= 2)%Z
  end.
Proof.
  intros H.
  apply (Permutation_in _ (sort_perm priority (syncActions c))) in H.
  apply PlanFacts.In_syncActions in H.
  destruct a as [f p|s d r p|f p]; destruct H as [_ ->]; simpl.
  - destruct (isFolder f); lia.
  - destruct (isFolder s); lia.
  - reflexivity.
Qed.

(** X4.  The deletion of a folder stands after every other kind of action
    in the plan: after every creation, every update and every deletion of
    a file.  So the files of a folder to delete are deleted before the
    folder is. *)
Theorem generateSyncPlan_folder_deletions_last
        (c : Comparison) (i j : nat) (a : SyncAction) (F : Entry) (p : Z) :
  nth_error (generateSyncPlan c) i = Some a ->
  nth_error (generateSyncPlan c) j = Some (delete F p) ->
  isFolder F = true ->
  (forall f q, a = delete f q -> isFolder f = false) ->
  (i < j)%nat.
Proof.
  intros Hi Hj HF Ha.
  assert (HS : StronglySorted (fun a b => (priority a <= priority b)%Z)
                              (generateSyncPlan c))
    by apply (sort_sorted priority).
  apply (sorted_nth_lt priority _ i j _ _ HS Hi Hj).
  apply nth_error_In, priority_in_plan in Hi, Hj.
  rewrite HF in Hj. rewrite Hj.
  destruct a as [f q|s d r q|f q]; try lia.
  rewrite (Ha f q eq_refl) in Hi. lia.
Qed.

Lemma generateSyncPlan_folder_deletions_last_witness :
  generateSyncPlan some_changes
  = [create (entry_of "new.txt" false "1") 2;
     delete (entry_of "old/x.txt" false "1") 2;
     delete (entry_of "old" true "0") 3]
  /\ (1 < 2)%nat.
Proof.
  split; [reflexivity|].
  apply (generateSyncPlan_folder_deletions_last some_changes 1 2
           (delete (entry_of "old/x.txt" false "1") 2)
           (entry_of "old" true "0") 3);
    try reflexivity.
  intros f q [= <- _]. reflexivity.
Defined.

(** ** The enumeration *)

Section Flat.
Variable recurse : RemoteNode -> string -> option (list Entry).
Variable basePath : string.

Lemma forLoop_flat (children : list RemoteNode) (folders files : list Entry) :
  forLoop recurse false basePath children folders files
  = Some (folders
          ++ filter isFolder
               (map (fun n => fileData basePath (node_file n)) children),
          files
          ++ filter (fun e => negb (isFolder e))
               (map (fun n => fileData basePath (node_file n)) children)).
Proof.
  revert folders files. induction children as [|child rest IH];
    intros folders files.
  - simpl. rewrite !app_nil_r. reflexivity.
  - cbn [forLoop map filter].
    destruct (isFolder (fileData basePath (node_file child))) eqn:E;
      cbn [negb]; rewrite IH, <- app_assoc; reflexivity.
Qed.

Lemma pageLoop_flat (pages : list (option (list RemoteNode)))
      (folders files : list Entry) :
  pageLoop recurse false basePath pages folders files
  = if forallb is_some pages then
      let direct :=
        map (fun n => fileData basePath (node_file n))
            (List.concat (map (fun p => match p with Some c => c | None => [] end)
                              pages)) in
      Some ((folders ++ filter isFolder direct)
            ++ files ++ filter (fun e => negb (isFolder e)) direct)
    else None.
Proof.
  revert folders files. induction pages as [|[children|] more IH];
    intros folders files; cbn [pageLoop forallb is_some andb];
    [| |reflexivity].
  - simpl. rewrite !app_nil_r. reflexivity.
  - rewrite forLoop_flat, IH. destruct (forallb is_some more); [|reflexivity].
    cbv zeta. cbn [map List.concat]. rewrite map_app, !filter_app, <- !app_assoc.
    reflexivity.
Qed.

End Flat.

(** X5.  An enumeration that is not recursive returns exactly the items
    listed directly under the folder, all pages together: first those that
    are folders, then the others, each group in the order of the listing.
    It is rejected when the request for one of the pages fails, and then
    only. *)
Theorem getAllFilesInFolder_flat (file : DriveFile)
        (firstPage : option (list RemoteNode))
        (nextPages : list (option (list RemoteNode))) (basePath : string) :
  let folder := RNode file firstPage nextPages in
  let direct := direct_entries basePath folder in
  getAllFilesInFolder folder false basePath
  = if forallb is_some (firstPage :: nextPages)
    then Some (filter isFolder direct
               ++ filter (fun e => negb (isFolder e)) direct)
    else None.
Proof.
  cbv zeta. rewrite EnumerateFacts.getAllFilesInFolder_eq, pageLoop_flat.
  reflexivity.
Qed.

Lemma RemoteNode_induction (P : RemoteNode -> Prop) :
  (forall file firstPage nextPages,
      Forall (page_all P) (firstPage :: nextPages) ->
      P (RNode file firstPage nextPages)) ->
  forall n, P n.
Proof.
  intros H.
  refine (fix IH (n : RemoteNode) : P n :=
            match n with
            | RNode file firstPage nextPages =>
                H file firstPage nextPages _
            end).
  assert (Hl : forall l : list RemoteNode, Forall P l -> Forall P l)
    by auto.
  assert (Hpage : forall page, page_all P page).
  2:{ clear Hl. constructor; [apply Hpage|].
      induction nextPages; constructor; [apply Hpage|assumption]. }
  clear Hl.
  refine (fun page =>
            match page with
            | Some children =>
                (fix go (l : list RemoteNode) : Forall P l :=
                   match l with
                   | [] => Forall_nil _
                   | c :: l' => Forall_cons c (IH c) (go l')
                   end) children
            | None => I
            end).
Qed.

Section Reach.
Variable recurse : RemoteNode -> string -> option (list Entry).
Variable includeSubfolders : bool.
Variable basePath : string.

(** What an entry gathered from the items [cs] is: the entry of one of
    them, or an entry of the enumeration of one that is a folder. *)
Let gathered (cs : list RemoteNode) (e : Entry) : Prop :=
  exists c,
    In c cs
    /\ (e = fileData basePath (node_file c)
        \/ (includeSubfolders = true /\ folder_node c = true
            /\ exists sub,
                recurse c (joinPath basePath (file_name (node_file c)))
                = Some sub
                /\ In e sub)).

(** Every item of [cs] has its entry in [l], and the enumeration of each
    that is a folder is in [l] too. *)
Let covers (cs : list RemoteNode) (l : list Entry) : Prop :=
  forall c,
    In c cs ->
    In (fileData basePath (node_file c)) l
    /\ (includeSubfolders = true -> folder_node c = true ->
        exists sub,
          recurse c (joinPath basePath (file_name (node_file c))) = Some sub
          /\ incl sub l).

Lemma forLoop_gathered (cs : list RemoteNode) :
  forall folders files folders' files',
    forLoop recurse includeSubfolders basePath cs folders files
    = Some (folders', files') ->
    forall e, In e (folders' ++ files') ->
              In e (folders ++ files) \/ gathered cs e.
Proof.
  induction cs as [|c rest IH]; intros folders files folders' files'.
  - simpl. intros [= <- <-] e He. auto.
  - cbn [forLoop]. cbv zeta.
    change (isFolder (fileData basePath (node_file c))) with (folder_node c).
    change (path (fileData basePath (node_file c)))
      with (joinPath basePath (file_name (node_file c))).
    assert (Hrest : forall e, gathered rest e -> gathered (c :: rest) e).
    { intros e (x & Hx & H). exists x. split; [right; exact Hx|exact H]. }
    assert (Hhere : gathered (c :: rest)
                             (fileData basePath (node_file c))).
    { exists c. split; [left; reflexivity|left; reflexivity]. }
    destruct (folder_node c) eqn:Ef.
    + destruct includeSubfolders eqn:Ei.
      * destruct (recurse c _) as [sub|] eqn:Er; [|discriminate].
        intros H e He. destruct (IH _ _ _ _ H e He) as [Hin|Hg]; [|auto].
        rewrite !in_app_iff in Hin. rewrite in_app_iff.
        destruct Hin as [[Hin|[<-|[]]]|[Hin|Hin]]; auto.
        right. exists c. split; [left; reflexivity|]. right.
        split; [reflexivity|]. split; [exact Ef|]. exists sub. auto.
      * intros H e He. destruct (IH _ _ _ _ H e He) as [Hin|Hg]; [|auto].
        rewrite !in_app_iff in Hin. rewrite in_app_iff.
        destruct Hin as [[Hin|[<-|[]]]|Hin]; auto.
    + intros H e He. destruct (IH _ _ _ _ H e He) as [Hin|Hg]; [|auto].
      rewrite !in_app_iff in Hin. rewrite in_app_iff.
      destruct Hin as [Hin|[Hin|[<-|[]]]]; auto.
Qed.

Lemma forLoop_covers (cs : list RemoteNode) :
  forall folders files folders' files',
    forLoop recurse includeSubfolders basePath cs folders files
    = Some (folders', files') ->
    incl (folders ++ files) (folders' ++ files')
    /\ covers cs (folders' ++ files').
Proof.
  induction cs as [|c rest IH]; intros folders files folders' files'.
  - simpl. intros [= <- <-]. split; [apply incl_refl|]. intros c [].
  - cbn [forLoop]. cbv zeta.
    change (isFolder (fileData basePath (node_file c))) with (folder_node c).
    change (path (fileData basePath (node_file c)))
      with (joinPath basePath (file_name (node_file c))).
    assert (Hstep : forall fo fi (sub : option (list Entry)),
               forLoop recurse includeSubfolders basePath rest fo fi
               = Some (folders', files') ->
               incl (folders ++ files) (fo ++ fi) ->
               In (fileData basePath (node_file c)) (fo ++ fi) ->
               (includeSubfolders = true -> folder_node c = true ->
                exists sub,
                  recurse c (joinPath basePath (file_name (node_file c)))
                  = Some sub
                  /\ incl sub (fo ++ fi)) ->
               incl (folders ++ files) (folders' ++ files')
               /\ covers (c :: rest) (folders' ++ files')).
    { intros fo fi _ H Hincl Hc Hsub. destruct (IH _ _ _ _ H) as (H1 & H2).
      split; [eapply incl_tran; eassumption|].
      intros x [<-|Hx]; [|apply H2, Hx]. split; [apply H1, Hc|].
      intros Hi Hf. destruct (Hsub Hi Hf) as (sub & Hr & Hs).
      exists sub. split; [exact Hr|]. eapply incl_tran; eassumption. }
    destruct (folder_node c) eqn:Ef.
    + destruct includeSubfolders eqn:Ei.
      * destruct (recurse c _) as [sub|] eqn:Er; [|discriminate].
        intros H. apply (Hstep _ _ None H).
        -- intros e. rewrite !in_app_iff. tauto.
        -- rewrite !in_app_iff. simpl. tauto.
        -- intros _ _. exists sub. split; [reflexivity|].
           intros e. rewrite !in_app_iff. tauto.
      * intros H. apply (Hstep _ _ None H).
        -- intros e. rewrite !in_app_iff. tauto.
        -- rewrite !in_app_iff. simpl. tauto.
        -- discriminate.
    + intros H. apply (Hstep _ _ None H).
      * intros e. rewrite !in_app_iff. tauto.
      * rewrite !in_app_iff. simpl. tauto.
      * discriminate.
Qed.

Lemma pageLoop_gathered (pages : list (option (list RemoteNode))) :
  forall folders files l,
    pageLoop recurse includeSubfolders basePath pages folders files = Some l ->
    forall e, In e l -> In e (folders ++ files) \/ gathered (items_of pages) e.
Proof.
  induction pages as [|[cs|] more IH]; intros folders files l;
    cbn [pageLoop]; [| |discriminate].
  - intros [= <-] e He. auto.
  - destruct (forLoop _ _ _ cs folders files) as [[fo fi]|] eqn:E;
      [|discriminate].
    intros H e He. unfold items_of. cbn [map List.concat].
    assert (G : forall a b, gathered a e \/ gathered b e ->
                            gathered (a ++ b) e).
    { intros a b [(c & Hc & Hg)|(c & Hc & Hg)]; exists c;
        (split; [apply in_or_app; auto|exact Hg]). }
    destruct (IH _ _ _ H e He) as [Hin|Hg]; [|right; apply G; auto].
    destruct (forLoop_gathered _ _ _ _ _ E e Hin) as [Hin'|Hg]; auto.
Qed.

Lemma pageLoop_covers (pages : list (option (list RemoteNode))) :
  forall folders files l,
    pageLoop recurse includeSubfolders basePath pages folders files = Some l ->
    incl (folders ++ files) l /\ covers (items_of pages) l.
Proof.
  induction pages as [|[cs|] more IH]; intros folders files l;
    cbn [pageLoop]; [| |discriminate].
  - intros [= <-]. split; [apply incl_refl|]. intros c [].
  - destruct (forLoop _ _ _ cs folders files) as [[fo fi]|] eqn:E;
      [|discriminate].
    intros H. destruct (IH _ _ _ H) as (H1 & H2).
    destruct (forLoop_covers _ _ _ _ _ E) as (H3 & H4).
    split; [eapply incl_tran; eassumption|].
    intros c Hc. unfold items_of in Hc. cbn [map List.concat] in Hc.
    apply in_app_or in Hc. destruct Hc as [Hc|Hc]; [|apply H2, Hc].
    destruct (H4 c Hc) as (H5 & H6). split; [apply H1, H5|].
    intros Hi Hf. destruct (H6 Hi Hf) as (sub & Hr & Hs).
    exists sub. split; [exact Hr|]. eapply incl_tran; eassumption.
Qed.

End Reach.

Lemma In_items_of (P : RemoteNode -> Prop)
      (pages : list (option (list RemoteNode))) (c : RemoteNode) :
  Forall (page_all P) pages -> In c (items_of pages) -> P c.
Proof.
  induction 1 as [|[cs|] more Hp _ IH]; simpl.
  - intros [].
  - unfold items_of. cbn [map List.concat]. intros Hc.
    apply in_app_or in Hc. destruct Hc as [Hc|Hc]; [|apply IH, Hc].
    simpl in Hp. rewrite Forall_forall in Hp. apply Hp, Hc.
  - exact IH.
Qed.

Section Paths.
Variable includeSubfolders : bool.

(** Every entry of an enumeration is the entry of an item, reached
    through folders. *)
Lemma getAllFilesInFolder_reached (n : RemoteNode) :
  forall basePath l,
    getAllFilesInFolder n includeSubfolders basePath = Some l ->
    forall e,
      In e l ->
      exists chain item,
        leads n chain item
        /\ (includeSubfolders = false -> chain = [])
        /\ e = entry_at basePath chain item.
Proof.
  induction n as [file firstPage nextPages H] using RemoteNode_induction.
  intros basePath l. rewrite EnumerateFacts.getAllFilesInFolder_eq.
  intros Hl e He.
  destruct (pageLoop_gathered _ _ _ _ _ _ _ Hl e He)
    as [[]|(c & Hc & [->|(Hi & Hf & sub & Hsub & Hin)])].
  - exists [], c. split; [constructor; exact Hc|]. auto.
  - destruct (In_items_of _ _ _ H Hc _ _ Hsub e Hin)
      as (chain & item & Hleads & _ & ->).
    exists (c :: chain), item. split; [constructor; assumption|].
    split; [congruence|reflexivity].
Qed.

(** Every item reached through folders has its entry in the
    enumeration. *)
Lemma getAllFilesInFolder_reaches (n : RemoteNode) (chain : list RemoteNode)
      (item : RemoteNode) :
  leads n chain item ->
  (includeSubfolders = false -> chain = []) ->
  forall basePath l,
    getAllFilesInFolder n includeSubfolders basePath = Some l ->
    In (entry_at basePath chain item) l.
Proof.
  induction 1 as [folder item Hc|folder sub chain item Hc Hf _ IH];
    intros Hflat basePath l; destruct folder as [file firstPage nextPages];
    rewrite EnumerateFacts.getAllFilesInFolder_eq; intros Hl;
    destruct (pageLoop_covers _ _ _ _ _ _ _ Hl) as (_ & Hcov).
  - apply (Hcov item Hc).
  - destruct includeSubfolders eqn:Ei;
      [|specialize (Hflat eq_refl); discriminate].
    destruct (Hcov sub Hc) as (_ & Hsub).
    destruct (Hsub eq_refl Hf) as (subl & Hr & Hincl).
    apply Hincl. apply (IH ltac:(discriminate) _ _ Hr).
Qed.

End Paths.

(** X6.  An enumeration that returns gives exactly the entries of the
    items that the listings lead to: the items listed under the folder,
    all pages together, and, when the enumeration is recursive, the items
    listed under those of them that are folders, and so on.  The path of
    the entry of an item is [basePath], the names of the folders that
    lead to it, in order, and its name, joined by [joinPath] (with an
    empty [basePath], as [run] passes it, the path of a direct item is its
    name); the other fields are those of the item, and the entry is marked
    as a folder exactly when its type is the one of the folders. *)
Theorem getAllFilesInFolder_paths (folder : RemoteNode)
        (includeSubfolders : bool) (basePath : string) (l : list Entry) :
  getAllFilesInFolder folder includeSubfolders basePath = Some l ->
  forall e,
    (In e l
     <-> exists chain item,
           leads folder chain item
           /\ (includeSubfolders = false -> chain = [])
           /\ e = entry_at basePath chain item)
    /\ (In e l -> isFolder e = String.eqb (mimeType e) folderMimeType).
Proof.
  intros Hl e.
  assert (H : In e l ->
              exists chain item,
                leads folder chain item
                /\ (includeSubfolders = false -> chain = [])
                /\ e = entry_at basePath chain item)
    by apply (getAllFilesInFolder_reached _ _ _ _ Hl).
  split; [split; [exact H|]|].
  - intros (chain & item & Hleads & Hflat & ->).
    apply (getAllFilesInFolder_reaches _ _ _ _ Hleads Hflat _ _ Hl).
  - intros He. destruct (H He) as (chain & item & _ & _ & ->). reflexivity.
Qed.

Lemma getAllFilesInFolder_paths_witness :
  exists l,
    getAllFilesInFolder nested_tree true "" = Some l
    /\ map path l = ["X"; "a.txt"; "X/Y"]
    /\ forall e,
        (In e l
         <-> exists chain item,
               leads nested_tree chain item
               /\ (true = false -> chain = [])
               /\ e = entry_at "" chain item)
        /\ (In e l -> isFolder e = String.eqb (mimeType e) folderMimeType).
Proof.
  eexists. split; [reflexivity|]. split; [reflexivity|].
  exact (getAllFilesInFolder_paths nested_tree true "" _ eq_refl).
Defined.

(** ** The action *)

Section Counts.
Variable Date_parse : string -> option Z.

Lemma classify_fold_counts (dm : Map Entry) (cc : bool) (m : Map Entry)
      (c : Comparison) :
  let c' := fold_left (classify Date_parse dm cc) m c in
  (List.length (additions c') + List.length (modifications c')
   + List.length (unchanged c')
   = List.length (additions c) + List.length (modifications c)
     + List.length (unchanged c) + List.length m)%nat
  /\ (List.length (modifications c') + List.length (unchanged c')
      = List.length (modifications c) + List.length (unchanged c)
        + List.length (filter (fun k => has k dm) (keys m)))%nat
  /\ deletions c' = deletions c.
Proof.
  revert c. induction m as [|kv m IH]; intros c; cbn [fold_left].
  - cbv zeta. simpl. repeat split; lia.
  - specialize (IH (classify Date_parse dm cc c kv)). cbv zeta in *.
    destruct IH as (IH1 & IH2 & IH3). rewrite IH1, IH2, IH3.
    unfold classify, keys. cbn [map filter List.length]. unfold has.
    destruct (get (fst kv) dm) as [d|];
      [destruct (isFileModified Date_parse (snd kv) d cc)|];
      cbn [additions modifications deletions unchanged List.length];
      rewrite ?length_app; cbn [List.length]; repeat split; lia.
Qed.

Lemma classifyDeletion_fold_counts (sm m : Map Entry) (c : Comparison) :
  let c' := fold_left (classifyDeletion sm) m c in
  additions c' = additions c /\ modifications c' = modifications c
  /\ unchanged c' = unchanged c
  /\ (List.length (deletions c')
      = List.length (deletions c)
        + List.length (filter (fun k => negb (has k sm)) (keys m)))%nat.
Proof.
  revert c. induction m as [|kv m IH]; intros c; cbn [fold_left].
  - cbv zeta. simpl. repeat split; lia.
  - specialize (IH (classifyDeletion sm c kv)). cbv zeta in *.
    destruct IH as (IH1 & IH2 & IH3 & IH4). rewrite IH1, IH2, IH3, IH4.
    unfold classifyDeletion, keys. cbn [map filter List.length].
    destruct (negb (has (fst kv) sm));
      cbn [additions modifications deletions unchanged List.length];
      rewrite ?length_app; cbn [List.length]; repeat split; lia.
Qed.

Lemma common_keys {V} (a b : Map V) :
  NoDup (keys a) -> NoDup (keys b) ->
  List.length (filter (fun k => has k b) (keys a))
  = List.length (filter (fun k => has k a) (keys b)).
Proof.
  intros Ha Hb. apply Permutation_length, NoDup_Permutation.
  - apply NoDup_filter, Ha.
  - apply NoDup_filter, Hb.
  - intros k. rewrite !filter_In, !has_true_keys. tauto.
Qed.

Lemma length_index_le {A} (key : A -> string) (l : list A) :
  (List.length (index key l []) <= List.length l)%nat.
Proof.
  assert (H : forall m : Map A,
             (List.length (index key l m)
              <= List.length m + List.length l)%nat).
  { induction l as [|x l IH]; intros m.
    - simpl. lia.
    - rewrite index_cons. specialize (IH (set (key x) x m)).
      assert (List.length (set (key x) x m) <= S (List.length m))%nat.
      { clear. induction m as [|[k0 v0] m IHm]; simpl; [lia|].
        destruct (String.eqb k0 (key x)); simpl; lia. }
      simpl. lia. }
  apply (H []).
Qed.

(** The counts of the four buckets against the two maps. *)
Lemma compareFiles_counts (A B : list Entry) (cc : bool) :
  let c := compareFiles Date_parse A B cc in
  (List.length (additions c) + List.length (modifications c)
   + List.length (unchanged c)
   = List.length (index path A []))%nat
  /\ (List.length (deletions c) + List.length (modifications c)
      + List.length (unchanged c)
      = List.length (index path B []))%nat.
Proof.
  unfold compareFiles.
  change (fold_left (fun m file => set (path file) file m) A [])
    with (index path A []).
  change (fold_left (fun m file => set (path file) file m) B [])
    with (index path B []).
  cbv zeta.
  destruct (classifyDeletion_fold_counts (index path A []) (index path B [])
              (fold_left (classify Date_parse (index path B []) cc)
                         (index path A []) (mkComparison [] [] [] [])))
    as (D1 & D2 & D3 & D4).
  destruct (classify_fold_counts (index path B []) cc (index path A [])
              (mkComparison [] [] [] [])) as (C1 & C2 & C3).
  cbv zeta in *. rewrite D1, D2, D3, D4, C3. simpl in C1, C2. split.
  - rewrite C1. reflexivity.
  - rewrite <- Nat.add_assoc, C2. simpl.
    rewrite (common_keys (index path A []) (index path B []))
      by (apply NoDup_keys_index; constructor).
    rewrite Nat.add_comm, filter_length. unfold keys. apply length_map.
Qed.

End Counts.

(** X7.  The statistics of a comparison add up.  The additions, the
    modifications and the unchanged entries together are at most the
    entries enumerated in the source folder, and exactly as many when no
    two of these share a path; the deletions, the modifications and the
    unchanged entries are, in the same way, the entries of the destination
    folder; and the plan has one action for each addition, modification
    and deletion. *)
Theorem run_statistics_add_up
        (Date_parse : string -> option Z) (props : CompareRun.Props)
        (source destination : RemoteNode) (comparisonTime : string)
        (out : CompareRun.Output) :
  CompareRun.run Date_parse props source destination comparisonTime
  = Some out ->
  exists sourceFiles destFiles,
    getAllFilesInFolder source (CompareRun.includeSubfolders props) ""
    = Some sourceFiles
    /\ getAllFilesInFolder destination (CompareRun.includeSubfolders props) ""
       = Some destFiles
    /\ match CompareRun.statistics out with
       | CompareRun.stats sf df a m d u total =>
           sf = List.length sourceFiles /\ df = List.length destFiles
           /\ (a + m + u <= sf)%nat /\ (d + m + u <= df)%nat
           /\ total = (a + m + d)%nat
           /\ (NoDup (map path sourceFiles) -> (a + m + u)%nat = sf)
           /\ (NoDup (map path destFiles) -> (d + m + u)%nat = df)
       end.
Proof.
  unfold CompareRun.run.
  destruct (getAllFilesInFolder source _ "") as [sourceFiles|];
    [|discriminate].
  destruct (getAllFilesInFolder destination _ "") as [destFiles|];
    [|discriminate].
  intros [= <-]. exists sourceFiles, destFiles.
  split; [reflexivity|]. split; [reflexivity|].
  cbn [CompareRun.statistics].
  destruct (compareFiles_counts Date_parse sourceFiles destFiles
              (CompareRun.compareContent props)) as [HA HB].
  cbv zeta in HA, HB. rewrite HA, HB.
  split; [reflexivity|]. split; [reflexivity|].
  split; [apply length_index_le|]. split; [apply length_index_le|].
  split; [apply length_plan|].
  split; intros Hnd; rewrite (proj1 (index_paths_distinct _ Hnd));
    apply length_map.
Qed.

Lemma run_statistics_add_up_witness :
  exists out,
    CompareRun.run (fun _ => None) (CompareRun.mkProps "S" "D" true false)
                   nested_tree nested_tree "2024-01-01T00:00:00.000Z"
    = Some out
    /\ CompareRun.statistics out = CompareRun.stats 3 3 0 0 0 3 0
    /\ exists sourceFiles destFiles,
        getAllFilesInFolder nested_tree true "" = Some sourceFiles
        /\ getAllFilesInFolder nested_tree true "" = Some destFiles
        /\ match CompareRun.statistics out with
           | CompareRun.stats sf df a m d u total =>
               sf = List.length sourceFiles /\ df = List.length destFiles
               /\ (a + m + u <= sf)%nat /\ (d + m + u <= df)%nat
               /\ total = (a + m + d)%nat
               /\ (NoDup (map path sourceFiles) -> (a + m + u)%nat = sf)
               /\ (NoDup (map path destFiles) -> (d + m + u)%nat = df)
           end.
Proof.
  eexists. split; [reflexivity|]. split; [reflexivity|].
  exact (run_statistics_add_up (fun _ => None)
           (CompareRun.mkProps "S" "D" true false)
           nested_tree nested_tree "2024-01-01T00:00:00.000Z" _ eq_refl).
Defined.

Section Sides.
Variable Date_parse : string -> option Z.

Lemma classify_fold_additions (dm : Map Entry) (cc : bool) (m : Map Entry)
      (c : Comparison) :
  additions (fold_left (classify Date_parse dm cc) m c)
  = additions c ++ map snd (filter (fun kv => negb (has (fst kv) dm)) m).
Proof.
  revert c. induction m as [|kv m IH]; intros c; cbn [fold_left filter].
  - simpl. rewrite app_nil_r. reflexivity.
  - rewrite IH. unfold classify, has.
    destruct (get (fst kv) dm) as [d|];
      [destruct (isFileModified Date_parse (snd kv) d cc)|];
      cbn [additions negb map]; rewrite <- ?app_assoc; reflexivity.
Qed.

Lemma classifyDeletion_fold_deletions (sm m : Map Entry) (c : Comparison) :
  deletions (fold_left (classifyDeletion sm) m c)
  = deletions c ++ map snd (filter (fun kv => negb (has (fst kv) sm)) m).
Proof.
  revert c. induction m as [|kv m IH]; intros c; cbn [fold_left filter].
  - simpl. rewrite app_nil_r. reflexivity.
  - rewrite IH. unfold classifyDeletion.
    destruct (negb (has (fst kv) sm));
      cbn [deletions map]; rewrite <- ?app_assoc; reflexivity.
Qed.

End Sides.

(** X27.  Swapping the two sides of a comparison swaps its additions and
    its deletions: the entries that [compareFiles] reports as additions
    from A to B are, in the same order, the ones it reports as deletions
    from B to A, and the other way round, whatever the dates and the
    checksum flag are. *)
Theorem compareFiles_swap_sides
        (Date_parse Date_parse' : string -> option Z) (A B : list Entry)
        (compareContent compareContent' : bool) :
  additions (compareFiles Date_parse A B compareContent)
  = deletions (compareFiles Date_parse' B A compareContent')
  /\ deletions (compareFiles Date_parse A B compareContent)
     = additions (compareFiles Date_parse' B A compareContent').
Proof.
  unfold compareFiles.
  change (fold_left (fun m file => set (path file) file m) A [])
    with (index path A []).
  change (fold_left (fun m file => set (path file) file m) B [])
    with (index path B []).
  rewrite !classifyDeletion_fold_deletions.
  rewrite !(proj1 (classifyDeletion_fold_counts _ _ _)).
  rewrite !(proj2 (proj2 (classify_fold_counts _ _ _ _ _))).
  rewrite !classify_fold_additions. split; reflexivity.
Qed.

End CompareMore.

(** ** execute_folder_copy: the loops over batches *)

Module BatchFacts.
Import Js JsFacts GoogleDrive ExecuteFolderCopy Notions MoreNotions RunLogic
       CopyFacts.

Section WithStore.
Context {World : Type}.
Variable store : RemoteStore World.

Lemma processInBatches_from_pure {T R} (f : T -> R) (items : list T)
      (batchSize : nat) :
  (1 <= batchSize)%nat ->
  forall (fuel i : nat) (out : list R) (st : State (World := World)),
    (List.length items - i <= fuel)%nat ->
    out = map f (firstn i items) ->
    wp (processInBatches_from store fuel items batchSize
          (fun batch _ => ret (map f batch)) i out)
       (fun o st' =>
          o = returned (map f items)
          /\ calls st' = calls st /\ results st' = results st)
       st.
Proof.
  intros Hb. induction fuel as [|fuel IH]; intros i out st Hfuel Hout;
    cbn [processInBatches_from];
    destruct (i <? List.length items)%nat eqn:E;
    try (apply Nat.ltb_ge in E; apply wp_ret;
         rewrite Hout, (firstn_all2 items E); auto).
  - apply Nat.ltb_lt in E. lia.
  - apply Nat.ltb_lt in E. apply wp_bind, wp_ret, wp_bind.
    assert (Hk : forall st1 : State (World := World),
               calls st1 = calls st -> results st1 = results st ->
               wp (processInBatches_from store fuel items batchSize
                     (fun batch _ => ret (map f batch)) (i + batchSize)
                     (out ++ map f (slice i (i + batchSize) items)))
                  (fun o st' =>
                     o = returned (map f items)
                     /\ calls st' = calls st /\ results st' = results st)
                  st1).
    { intros st1 Hc Hr. eapply wp_weaken.
      - apply IH; [lia|].
        rewrite firstn_add, slice_from, map_app, Hout. reflexivity.
      - intros o st' (Ho & Hc' & Hr'). split; [exact Ho|]. split; congruence. }
    destruct (i + batchSize <? List.length items)%nat.
    + apply wp_delay. apply Hk; reflexivity.
    + apply wp_ret. apply Hk; reflexivity.
Qed.

Lemma limitConcurrency_from_ends (tasks : list Settled) (maxConcurrency : nat)
      (st : State (World := World)) :
  (1 <= maxConcurrency)%nat ->
  forall (fuel i : nat) (out : list Settled),
    (List.length tasks - i <= fuel)%nat ->
    out = firstn i tasks ->
    limitConcurrency_from fuel tasks maxConcurrency i out st
    = (returned tasks, st).
Proof.
  intros Hm. induction fuel as [|fuel IH]; intros i out Hfuel Hout;
    cbn [limitConcurrency_from];
    destruct (i <? List.length tasks)%nat eqn:E;
    try (apply Nat.ltb_ge in E; unfold ret;
         rewrite Hout, (firstn_all2 tasks E); reflexivity).
  - apply Nat.ltb_lt in E. lia.
  - apply Nat.ltb_lt in E. apply IH; [lia|].
    rewrite firstn_add, slice_from, Hout. reflexivity.
Qed.

Lemma processInBatches_from_zero {T R} (items : list T)
      (processor : list T -> nat -> M (list R)) :
  items <> [] ->
  (forall batch i (st : State (World := World)),
      exists r, fst (processor batch i st) = returned r) ->
  forall (fuel : nat) (out : list R) (st : State (World := World)),
    fst (processInBatches_from store fuel items 0 processor 0 out st)
    = diverged.
Proof.
  intros Hne Hp.
  assert (E : (0 <? List.length items)%nat = true).
  { destruct items; [contradiction|reflexivity]. }
  induction fuel as [|fuel IH]; intros out st;
    cbn [processInBatches_from]; rewrite E; [reflexivity|].
  unfold bind at 1.
  destruct (Hp (slice 0 (0 + 0) items) 0%nat st) as [r Hr].
  destruct (processor (slice 0 (0 + 0) items) 0%nat st) as [o st1].
  simpl in Hr. subst o. unfold bind at 1. cbn [Nat.add]. rewrite E.
  unfold delay. apply IH.
Qed.

Lemma limitConcurrency_from_zero (tasks : list Settled)
      (st : State (World := World)) :
  tasks <> [] ->
  forall (fuel : nat) (out : list Settled),
    limitConcurrency_from fuel tasks 0 0 out st = (diverged, st).
Proof.
  intros Hne.
  assert (E : (0 <? List.length tasks)%nat = true).
  { destruct tasks; [contradiction|reflexivity]. }
  induction fuel as [|fuel IH]; intros out;
    cbn [limitConcurrency_from]; rewrite E; [reflexivity|].
  apply IH.
Qed.

End WithStore.

(** X8.  With a batch size of at least one, [processInBatches] ends (the
    fuel of the loop being the number of items) and hands every item to
    the processor once, in order: for a processor that maps its batch
    item by item, the result is the map of the whole list.  It asks
    nothing of the store and leaves [results] alone. *)
Theorem processInBatches_covers_items
        {World : Type} (store : RemoteStore World) {T R : Type} (f : T -> R)
        (items : list T) (batchSize fuel : nat)
        (st : State (World := World)) :
  (1 <= batchSize)%nat -> (List.length items <= fuel)%nat ->
  let out := processInBatches store fuel items batchSize
                              (fun batch _ => ret (map f batch)) st in
  fst out = returned (map f items)
  /\ calls (snd out) = calls st /\ results (snd out) = results st.
Proof.
  intros Hb Hfuel.
  apply (processInBatches_from_pure store f items batchSize Hb fuel 0 [] st);
    [lia|reflexivity].
Qed.

Lemma processInBatches_covers_items_witness :
  fst (processInBatches DriveModel.drive 5 ["a"; "b"; "c"; "d"; "e"] 2
         (fun batch _ => ret (map String.length batch))
         (mkState twin_drive [] empty_results [] 0))
  = returned [1; 1; 1; 1; 1]%nat.
Proof.
  apply (processInBatches_covers_items DriveModel.drive String.length
           ["a"; "b"; "c"; "d"; "e"] 2 5
           (mkState twin_drive [] empty_results [] 0));
    simpl; lia.
Defined.

(** X9.  With a concurrency of at least one, [limitConcurrency] ends (the
    fuel being the number of tasks) and returns the settled results of
    all the tasks, in the order of the tasks; nothing else changes. *)
Theorem limitConcurrency_gathers_all
        {World : Type} (tasks : list Settled) (maxConcurrency fuel : nat)
        (st : State (World := World)) :
  (1 <= maxConcurrency)%nat -> (List.length tasks <= fuel)%nat ->
  limitConcurrency fuel tasks maxConcurrency st = (returned tasks, st).
Proof.
  intros Hm Hfuel. apply limitConcurrency_from_ends; [exact Hm|lia|reflexivity].
Qed.

Lemma limitConcurrency_gathers_all_witness :
  limitConcurrency 3 [rejected "x"; rejected "y"; rejected "z"] 2
                   (mkState twin_drive [] empty_results [] 0)
  = (returned [rejected "x"; rejected "y"; rejected "z"],
     mkState twin_drive [] empty_results [] 0).
Proof.
  apply (limitConcurrency_gathers_all
           [rejected "x"; rejected "y"; rejected "z"] 2 3
           (mkState twin_drive [] empty_results [] 0));
    simpl; lia.
Defined.

(** X10.  With a batch size of zero the loop of [processInBatches] does
    not advance: on a list that is not empty it never ends, however long
    it runs, when the processor returns each time; and so does the loop of
    [limitConcurrency] with a concurrency of zero. *)
Theorem zero_step_never_ends
        {World : Type} (store : RemoteStore World) {T R : Type}
        (items : list T) (processor : list T -> nat -> M (list R))
        (tasks : list Settled) (fuel : nat) (st : State (World := World)) :
  items <> [] -> tasks <> [] ->
  (forall batch i (st : State (World := World)),
      exists r, fst (processor batch i st) = returned r) ->
  fst (processInBatches store fuel items 0 processor st) = diverged
  /\ limitConcurrency fuel tasks 0 st = (diverged, st).
Proof.
  intros Hi Ht Hp. split.
  - apply processInBatches_from_zero; assumption.
  - apply limitConcurrency_from_zero, Ht.
Qed.

Lemma zero_step_never_ends_witness :
  fst (processInBatches DriveModel.drive 1000 ["a"] 0
         (fun batch _ => ret (map String.length batch))
         (mkState twin_drive [] empty_results [] 0))
  = diverged.
Proof.
  apply (zero_step_never_ends DriveModel.drive ["a"]
           (fun batch _ => ret (map String.length batch))
           [rejected "x"] 1000 (mkState twin_drive [] empty_results [] 0)).
  - discriminate.
  - discriminate.
  - intros batch i st. eexists. reflexivity.
Defined.

End BatchFacts.

(** ** execute_folder_copy: the tasks and the conflict policies *)

Module TaskFacts.
Import Js JsFacts GoogleDrive ExecuteFolderCopy Notions MoreNotions RunLogic
       RenameFacts CopyFacts.

Lemma has_name_id_map (files : option (list DriveFile)) (n : string) :
  has n (name_id_map files) = true
  <-> exists f, In f (match files with Some l => l | None => [] end)
                /\ file_name f = n.
Proof.
  unfold name_id_map, Map_of.
  set (l := match files with Some l => l | None => [] end). clearbody l.
  assert (H : forall m : Map string,
             In n (keys (fold_left (fun m e => set (fst e) (snd e) m)
                                   (map (fun f => (file_name f, file_id f)) l)
                                   m))
             <-> In n (keys m) \/ exists f, In f l /\ file_name f = n).
  { induction l as [|x l IH]; intros m; simpl.
    - split; [auto|]. intros [H|(f & [] & _)]. exact H.
    - rewrite IH, keys_set. split.
      + intros [[->|H]|(f & H1 & H2)]; eauto.
      + intros [H|(f & [<-|H1] & H2)]; eauto. }
  rewrite has_true_keys, H. simpl. split; [intros [[]|H']; exact H'|auto].
Qed.

(** X11.  An existence query is one request at most, and never an error
    of the action: for no name [getExistingFiles] asks nothing and
    returns the empty map; otherwise it asks the store once, and a query
    that fails gives the empty map, as if the destination held none of the
    names.  The map has the names of the files the store answered with,
    and only those. *)
Theorem getExistingFiles_one_query
        {World : Type} (store : RemoteStore World) (destFolderId : string)
        (fileNames : list string) (st : State (World := World)) :
  let out := getExistingFiles store destFolderId fileNames st in
  match fileNames with
  | [] => out = (returned [], st)
  | _ :: _ =>
      exists answer,
        calls (snd out)
        = calls st
          ++ [called_listFilesInPage None
                (existingFiles_opts destFolderId fileNames) answer]
        /\ results (snd out) = results st
        /\ match answer with
           | ok resp =>
               fst out = returned (name_id_map (files resp))
               /\ forall n,
                   has n (name_id_map (files resp)) = true
                   <-> exists f,
                       In f (match files resp with Some l => l | None => [] end)
                       /\ file_name f = n
           | thrown _ => fst out = returned []
           end
  end.
Proof.
  destruct fileNames as [|n0 names]; [reflexivity|].
  cbv zeta. unfold getExistingFiles. cbn [List.length Nat.eqb].
  unfold try_catch, bind, ret, list_files, request.
  destruct (listFilesInPage store None
              (existingFiles_opts destFolderId (n0 :: names)) (world st))
    as [answer w].
  exists answer. destruct answer as [resp|e]; simpl.
  - split; [reflexivity|]. split; [reflexivity|]. split; [reflexivity|].
    intros n. apply has_name_id_map.
  - auto.
Qed.

Lemma copyTask_plain
      {World : Type} (store : RemoteStore World) (props : Props)
      (destFolderId : string) (existingFileMap : Map string)
      (file : DriveFile) (st : State (World := World)) :
  has (file_name file) existingFileMap = false
  \/ unknown_policy (conflictResolution props) ->
  exists answer,
    calls (snd (copyTask store props destFolderId existingFileMap file st))
    = calls st
      ++ [called_copyFile (file_id file) (file_name file) destFolderId answer]
    /\ results (snd (copyTask store props destFolderId existingFileMap file
                              st))
       = results st
    /\ fst (copyTask store props destFolderId existingFileMap file st)
       = returned (fulfilled (copy_value file (file_name file) answer)).
Proof.
  intros H.
  assert (E : resolveName store props existingFileMap file st
              = (returned (inr (file_name file)), st)).
  { unfold resolveName, has in *.
    destruct (get (file_name file) existingFileMap) as [existingId|];
      [|reflexivity].
    destruct H as [H|(H1 & H2 & H3)]; [discriminate|].
    apply String.eqb_neq in H1, H2, H3. rewrite H1, H2, H3. reflexivity. }
  unfold copyTask, bind, try_catch. rewrite E.
  unfold ret, copy_file, request.
  destruct (copyFile store (file_id file) (file_name file) destFolderId
                     (world st)) as [answer w].
  exists answer. destruct answer; simpl; auto.
Qed.

(** X12.  A file whose name is not in the map of the existing names, or
    any file under a policy that is none of [skip], [rename] and
    [replace], is copied under its own name: its task makes one request,
    the copy into the destination folder, and resolves to the record of
    the copy, or to a [file_copy_error] with the message of the store. *)
Theorem copyTask_plain_copy
        {World : Type} (store : RemoteStore World) (props : Props)
        (destFolderId : string) (existingFileMap : Map string)
        (file : DriveFile) (st : State (World := World)) :
  has (file_name file) existingFileMap = false
  \/ unknown_policy (conflictResolution props) ->
  let out := copyTask store props destFolderId existingFileMap file st in
  exists answer,
    calls (snd out)
    = calls st
      ++ [called_copyFile (file_id file) (file_name file) destFolderId answer]
    /\ results (snd out) = results st
    /\ fst out = returned (fulfilled (copy_value file (file_name file) answer)).
Proof. apply copyTask_plain. Qed.

Lemma copyTask_plain_copy_witness :
  let st := mkState replace_drive [] empty_results [] 0 in
  let out := copyTask DriveModel.drive replace_props "D" [] a_txt st in
  exists answer,
    calls (snd out)
    = calls st ++ [called_copyFile "1" "a.txt" "D" answer]
    /\ results (snd out) = results st
    /\ fst out = returned (fulfilled (copy_value a_txt "a.txt" answer)).
Proof.
  exact (copyTask_plain_copy DriveModel.drive replace_props "D" [] a_txt
           (mkState replace_drive [] empty_results [] 0)
           (or_introl eq_refl)).
Defined.

(** The results of one task are gathered in one round. *)
Lemma limitConcurrency_one {World : Type} (fuel m : nat) (r : Settled)
      (st : State (World := World)) :
  limitConcurrency (S fuel) [r] (S m) st = (returned [r], st).
Proof.
  unfold limitConcurrency. cbn [limitConcurrency_from List.length].
  change (0 <? 1)%nat with true. cbv iota.
  assert (E : (0 + S m <? 1)%nat = false) by (apply Nat.ltb_ge; lia).
  destruct fuel; cbn [limitConcurrency_from List.length]; rewrite E;
    unfold slice, ret; simpl; rewrite firstn_nil; reflexivity.
Qed.

(** X13.  Under the policy [replace], a batch of one file whose name is
    in the map first asks the store to delete the file found under that
    name.  When the deletion fails no copy is asked and the task resolves
    to a [file_copy_error] with the message of the deletion.  When it
    succeeds the copy is asked next, under the name of the file, and the
    task resolves to the record of the copy or to a [file_copy_error] with
    the message of the copy.  These are all the requests of the batch,
    [results] is untouched, and the store is left as the last of these
    requests left it: after a deletion that succeeded and a copy that
    failed, as the deletion and the refused copy left it. *)
Theorem copyFileBatch_replace_deletes_first
        {World : Type} (store : RemoteStore World) (props : Props)
        (fuel : nat) (destFolderId : string) (existingFileMap : Map string)
        (file : DriveFile) (existingId : string)
        (st : State (World := World)) :
  conflictResolution props = "replace" ->
  get (file_name file) existingFileMap = Some existingId ->
  (1 <= fuel)%nat ->
  (1 <= maxConcurrency props)%nat ->
  let out := copyFileBatch store props fuel [file] destFolderId
                           existingFileMap st in
  let deletion := deleteFile store existingId (world st) in
  let copy := copyFile store (file_id file) (file_name file) destFolderId
                       (snd deletion) in
  results (snd out) = results st
  /\ match fst deletion with
     | thrown e =>
         calls (snd out)
         = calls st ++ [called_deleteFile existingId (thrown e)]
         /\ fst out
            = returned [fulfilled (file_copy_error (file_name file) e)]
         /\ world (snd out) = snd deletion
     | ok _ =>
         calls (snd out)
         = calls st
           ++ [called_deleteFile existingId (ok tt);
               called_copyFile (file_id file) (file_name file) destFolderId
                               (fst copy)]
         /\ fst out
            = returned [fulfilled (copy_value file (file_name file)
                                              (fst copy))]
         /\ world (snd out) = snd copy
     end.
Proof.
  intros Hp Hget Hfuel Hmax. cbv zeta.
  destruct fuel as [|fuel]; [lia|].
  destruct (maxConcurrency props) as [|m] eqn:Em; [lia|].
  unfold copyFileBatch. rewrite Em.
  unfold copyTasks, copyTask, resolveName. rewrite Hget, Hp.
  cbn [String.eqb Ascii.eqb Bool.eqb].
  unfold try_catch, bind, ret, delete_file, copy_file, request.
  destruct (deleteFile store existingId (world st)) as [[[]|e] w];
    cbn [fst snd world calls results].
  - destruct (copyFile store (file_id file) (file_name file) destFolderId w)
      as [answer w'].
    rewrite <- app_assoc.
    destruct answer; cbn [fst snd world calls results];
      rewrite limitConcurrency_one; simpl; auto.
  - rewrite limitConcurrency_one. simpl. auto.
Qed.

Lemma copyFileBatch_replace_deletes_first_witness :
  let st := mkState lossy_drive [] empty_results [] 0 in
  let out := copyFileBatch DriveModel.drive replace_props 1 [a_txt] "D"
                           [("a.txt", "2")] st in
  let deletion := deleteFile DriveModel.drive "2" (world st) in
  let copy := copyFile DriveModel.drive "1" "a.txt" "D" (snd deletion) in
  (results (snd out) = results st
   /\ match fst deletion with
      | thrown e =>
          calls (snd out) = calls st ++ [called_deleteFile "2" (thrown e)]
          /\ fst out = returned [fulfilled (file_copy_error "a.txt" e)]
          /\ world (snd out) = snd deletion
      | ok _ =>
          calls (snd out)
          = calls st
            ++ [called_deleteFile "2" (ok tt);
                called_copyFile "1" "a.txt" "D" (fst copy)]
          /\ fst out
             = returned [fulfilled (copy_value a_txt "a.txt" (fst copy))]
          /\ world (snd out) = snd copy
      end)
  /\ fst out
     = returned
         [fulfilled
            (file_copy_error "a.txt"
               "The user does not have sufficient permissions for this file.")]
  /\ filter (fun it => String.eqb (DriveModel.item_parent it) "D")
            (DriveModel.items (world (snd out)))
     = [].
Proof.
  split.
  - exact (copyFileBatch_replace_deletes_first DriveModel.drive replace_props
             1 "D" [("a.txt", "2")] a_txt "2"
             (mkState lossy_drive [] empty_results [] 0) eq_refl eq_refl
             (le_n 1) (le_S _ _ (le_S _ _ (le_S _ _ (le_S _ _ (le_n 1)))))).
  - split; reflexivity.
Defined.

Section Skip.
Context {World : Type}.
Variable store : RemoteStore World.
Variable props : Props.

Lemma copyTasks_skip (destFolderId : string) (existingFileMap : Map string)
      (files : list DriveFile) :
  conflictResolution props = "skip" ->
  forall st : State (World := World),
    wp (copyTasks store props destFolderId existingFileMap files)
       (fun o st' =>
          exists delta,
            calls st' = calls st ++ delta
            /\ forallb is_copy_request delta = true
            /\ copy_requests delta
               = map (fun f => (file_id f, file_name f, destFolderId))
                     (filter (fun f => negb (has (file_name f) existingFileMap))
                             files))
       st.
Proof.
  intros Hp. induction files as [|file rest IH]; intros st; cbn [copyTasks].
  - apply wp_ret. exists []. rewrite app_nil_r. auto.
  - apply wp_bind. cbn [filter].
    destruct (has (file_name file) existingFileMap) eqn:Eh; cbn [negb].
    + unfold wp at 1.
      rewrite (RunFacts.skip_known_name_not_copied store props destFolderId
                 existingFileMap file st Hp Eh). cbn [fst snd].
      apply wp_bind. eapply wp_weaken; [apply IH|].
      intros o st' (delta & H1 & H2 & H3).
      destruct o as [rs|e|]; [apply wp_ret| |]; exists delta; auto.
    + destruct (copyTask_plain store props destFolderId existingFileMap
                  file st (or_introl Eh)) as (answer & Hc & _ & Ho).
      unfold wp at 1.
      destruct (copyTask store props destFolderId existingFileMap file st)
        as [o st1]. cbn [fst snd] in *. subst o.
      apply wp_bind. eapply wp_weaken; [apply IH|].
      intros o st' (delta & H1 & H2 & H3).
      assert (G : exists delta0,
                 calls st' = calls st ++ delta0
                 /\ forallb is_copy_request delta0 = true
                 /\ copy_requests delta0
                    = (file_id file, file_name file, destFolderId)
                      :: map (fun f => (file_id f, file_name f, destFolderId))
                           (filter (fun f =>
                                      negb (has (file_name f) existingFileMap))
                                   rest)).
      { exists (called_copyFile (file_id file) (file_name file) destFolderId
                                answer :: delta).
        rewrite H1, Hc, <- app_assoc. split; [reflexivity|].
        split; [exact H2|]. simpl. rewrite H3. reflexivity. }
      destruct o as [rs|e|]; [apply wp_ret| |]; exact G.
Qed.

End Skip.

(** X14.  Under the policy [skip], a batch asks the store for the copies
    of the files whose names are not in the map of the existing names,
    each under its own name and into the destination folder, in the order
    of the batch, and for nothing else: the files whose names are in the
    map are left out, and nothing is deleted. *)
Theorem copyFileBatch_skip_requests
        {World : Type} (store : RemoteStore World) (props : Props)
        (fuel : nat) (files : list DriveFile) (destFolderId : string)
        (existingFileMap : Map string) (st : State (World := World)) :
  conflictResolution props = "skip" ->
  let st' := snd (copyFileBatch store props fuel files destFolderId
                                existingFileMap st) in
  exists delta,
    calls st' = calls st ++ delta
    /\ forallb is_copy_request delta = true
    /\ copy_requests delta
       = map (fun f => (file_id f, file_name f, destFolderId))
             (filter (fun f => negb (has (file_name f) existingFileMap)) files).
Proof.
  intros Hp. cbv zeta.
  apply (wp_bind (copyTasks store props destFolderId existingFileMap files)
           (fun tasks => limitConcurrency fuel tasks (maxConcurrency props))
           (fun _ st' =>
              exists delta,
                calls st' = calls st ++ delta
                /\ forallb is_copy_request delta = true
                /\ copy_requests delta
                   = map (fun f => (file_id f, file_name f, destFolderId))
                         (filter (fun f =>
                                    negb (has (file_name f) existingFileMap))
                                 files))).
  eapply wp_weaken; [apply (copyTasks_skip store props _ _ _ Hp)|].
  intros o st1 H. destruct o as [rs|e|]; [|exact H|exact H].
  eapply wp_weaken; [apply limitConcurrency_from_spec; reflexivity|].
  intros o st2 (-> & _). exact H.
Qed.

Lemma copyFileBatch_skip_requests_witness :
  exists delta,
    calls (snd (copyFileBatch DriveModel.drive skip_props 5 [a_txt; b_txt] "D"
                  [("a.txt", "2")]
                  (mkState replace_drive [] empty_results [] 0)))
    = delta
    /\ copy_requests delta = [("3", "b.txt", "D")].
Proof.
  destruct (copyFileBatch_skip_requests DriveModel.drive skip_props 5
              [a_txt; b_txt] "D" [("a.txt", "2")]
              (mkState replace_drive [] empty_results [] 0) eq_refl)
    as (delta & H1 & _ & H3).
  exists delta. split; [exact H1|exact H3].
Defined.

Lemma append_inv_tail (a b c : string) :
  (a ++ c = b ++ c)%string -> a = b.
Proof.
  revert b. induction a as [|x a IH]; intros b H.
  - destruct b as [|y b]; [reflexivity|].
    apply (f_equal String.length) in H. simpl in H.
    rewrite length_append in H. lia.
  - destruct b as [|y b].
    + apply (f_equal String.length) in H. simpl in H.
      rewrite length_append in H. lia.
    + simpl in H. injection H as -> H. f_equal. apply IH, H.
Qed.

Lemma Number_toString_inj (a b : Z) :
  Number_toString a = Number_toString b -> a = b.
Proof.
  unfold Number_toString. intros H.
  apply DecimalZ.to_int_inj.
  assert (Hn : forall z, Z.to_int z <> Decimal.Pos Decimal.Nil
                         /\ Z.to_int z <> Decimal.Neg Decimal.Nil).
  { intros z. split; intros Hz;
      assert (H0 : z = 0%Z)
        by (rewrite <- (DecimalZ.of_to z), Hz; reflexivity);
      subst z; vm_compute in Hz; discriminate. }
  pose proof (DecimalString.NilZero.isi (Z.to_int a)
                (proj1 (Hn a)) (proj2 (Hn a))) as Ha.
  pose proof (DecimalString.NilZero.isi (Z.to_int b)
                (proj1 (Hn b)) (proj2 (Hn b))) as Hb.
  rewrite H in Ha. congruence.
Qed.

(** X15.  The names of the policy [rename] at two different times are
    different, so two copies of one file made at different milliseconds
    do not collide; and a name that ends with a dot loses that dot: the
    copy of [base.] is named [base_copy_<time>]. *)
Theorem renamed_times_and_trailing_dot :
  (forall fileName t t', renamed fileName t = renamed fileName t' -> t = t')
  /\ (forall base t,
        renamed (base ++ ".") t
        = (base ++ "_copy_" ++ Number_toString t)%string).
Proof.
  split.
  - intros fileName t t'. unfold renamed.
    destruct (negb (String.eqb _ "")); intros H;
      do 2 apply append_inv_head in H.
    + apply append_inv_tail in H. apply Number_toString_inj, H.
    + apply Number_toString_inj, H.
  - intros base t.
    change (base ++ ".")%string with (base ++ String "." "")%string.
    rewrite (renamed_with_dot base "" t eq_refl). reflexivity.
Qed.

Section Settled.
Context {World : Type}.
Variable store : RemoteStore World.
Variable props : Props.

Lemma copyTasks_about (destFolderId : string) (existingFileMap : Map string)
      (files : list DriveFile) :
  forall st : State (World := World),
    wp (copyTasks store props destFolderId existingFileMap files)
       (fun o _ => exists rs, o = returned rs /\ Forall2 about files rs)
       st.
Proof.
  induction files as [|file rest IH]; intros st; cbn [copyTasks].
  - apply wp_ret. exists []. split; [reflexivity|constructor].
  - apply wp_bind. eapply wp_weaken; [apply copyTask_spec|].
    intros o st1 (value & d1 & -> & _ & _ & Ho).
    apply wp_bind. eapply wp_weaken; [apply IH|].
    intros o st2 (rs & -> & Hrs). apply wp_ret.
    exists (fulfilled value :: rs). split; [reflexivity|].
    constructor; [|exact Hrs].
    destruct value as [f|a b c d e f|n e]; simpl in *; tauto.
Qed.

End Settled.

(** X28.  Every task of a batch resolves: with a concurrency of at least
    one, [copyFileBatch] returns (the fuel of the gathering loop being the
    number of files) one settled result for each file of the batch, in
    the order of the batch, and each of them is fulfilled with a value
    about its file: the file skipped, the record of its copy, or a
    [file_copy_error] with its name.  No result is rejected. *)
Theorem copyFileBatch_settles_every_file
        {World : Type} (store : RemoteStore World) (props : Props)
        (fuel : nat) (files : list DriveFile) (destFolderId : string)
        (existingFileMap : Map string) (st : State (World := World)) :
  (1 <= maxConcurrency props)%nat -> (List.length files <= fuel)%nat ->
  exists rs,
    fst (copyFileBatch store props fuel files destFolderId existingFileMap st)
    = returned rs
    /\ Forall2 about files rs.
Proof.
  intros Hm Hfuel.
  apply (wp_bind (copyTasks store props destFolderId existingFileMap files)
           (fun tasks => limitConcurrency fuel tasks (maxConcurrency props))
           (fun o _ => exists rs, o = returned rs /\ Forall2 about files rs)).
  eapply wp_weaken; [apply copyTasks_about|].
  intros o st1 (rs & -> & Hrs). unfold wp, limitConcurrency.
  rewrite (BatchFacts.limitConcurrency_from_ends rs (maxConcurrency props)
             st1 Hm fuel 0 []);
    [exists rs; auto|pose proof (Forall2_length Hrs); lia|reflexivity].
Qed.

Lemma copyFileBatch_settles_every_file_witness :
  exists rs,
    fst (copyFileBatch DriveModel.drive skip_props 2 [a_txt; b_txt] "D"
           [("a.txt", "2")] (mkState replace_drive [] empty_results [] 0))
    = returned rs
    /\ Forall2 about [a_txt; b_txt] rs.
Proof.
  apply (copyFileBatch_settles_every_file DriveModel.drive skip_props 2
           [a_txt; b_txt] "D" [("a.txt", "2")]
           (mkState replace_drive [] empty_results [] 0));
    simpl; lia.
Defined.

End TaskFacts.

(** ** execute_folder_copy: the requests and the errors of a run *)

Module TraceFacts.
Import Js JsFacts GoogleDrive ExecuteFolderCopy Notions MoreNotions RunLogic
       FolderFacts CopyFacts RunFacts.

Lemma failed_listings_app (a b : list Call) :
  failed_listings (a ++ b) = failed_listings a ++ failed_listings b.
Proof.
  induction a as [|c a IH]; [reflexivity|].
  destruct c as [tok opts [resp|e]| | |]; simpl; try exact IH.
  destruct (lists_candidates opts); simpl; rewrite IH; reflexivity.
Qed.

Lemma failed_listings_none (shape : Call -> Prop) (delta : list Call) :
  (forall tok opts e,
      shape (called_listFilesInPage tok opts (thrown e)) ->
      lists_candidates opts = false) ->
  Forall shape delta -> failed_listings delta = [].
Proof.
  intros Hs. induction 1 as [|c delta Hc _ IH]; [reflexivity|].
  destruct c as [tok opts [resp|e]| | |]; simpl; try exact IH.
  rewrite (Hs _ _ _ Hc). exact IH.
Qed.

Lemma task_calls_silent destFolderId (delta : list Call) :
  Forall (task_call destFolderId) delta -> failed_listings delta = [].
Proof. apply failed_listings_none. intros tok opts e []. Qed.

Lemma folder_calls_silent (delta : list Call) :
  Forall folder_call delta -> failed_listings delta = [].
Proof.
  apply failed_listings_none.
  intros tok opts e [_ [[s ->]|[d ->]]]; reflexivity.
Qed.

Lemma lists_candidates_opts (props : Props) (sourceId : option string) :
  lists_candidates (candidates_opts props sourceId) = true.
Proof.
  unfold lists_candidates, candidates_opts, candidates_query. simpl.
  destruct sourceId as [id|]; [destruct (String.eqb id "")|]; reflexivity.
Qed.

Section WithStore.
Context {World : Type}.
Variable store : RemoteStore World.
Variable props : Props.

Local Abbreviation silent := (MoreNotions.silent (World := World)).
Local Abbreviation errors_inv := (MoreNotions.errors_inv (World := World)).
Local Abbreviation replication := (MoreNotions.replication (World := World)).
Local Abbreviation task_step := (Notions.task_step (World := World)).

Lemma silent_refl st : silent st st.
Proof. split; [|reflexivity]. exists []. rewrite app_nil_r. auto. Qed.

Lemma silent_same st st' :
  calls st' = calls st -> errors (results st') = errors (results st) ->
  silent st st'.
Proof.
  intros Hc Hr. split; [|exact Hr]. exists []. rewrite app_nil_r. auto.
Qed.

Lemma silent_trans st1 st2 st3 :
  silent st1 st2 -> silent st2 st3 -> silent st1 st3.
Proof.
  intros [(d1 & C1 & F1) E1] [(d2 & C2 & F2) E2]. split; [|congruence].
  exists (d1 ++ d2). rewrite C2, C1, app_assoc, failed_listings_app, F1, F2.
  auto.
Qed.

Lemma silent_inv st st' : silent st st' -> errors_inv st -> errors_inv st'.
Proof.
  intros [(d & C & F) E] H. unfold errors_inv, MoreNotions.errors_inv in *.
  rewrite E, C, failed_listings_app, F, app_nil_r. exact H.
Qed.

Lemma task_step_silent destFolderId delta st st' :
  task_step destFolderId delta st st' -> silent st st'.
Proof.
  intros [C S R T]. split; [|rewrite R; reflexivity].
  exists delta. split; [exact C|]. eapply task_calls_silent, S.
Qed.

Lemma replication_refl st : replication st st.
Proof. split; [|reflexivity]. exists []. rewrite app_nil_r. auto. Qed.

Lemma replication_trans st1 st2 st3 :
  replication st1 st2 -> replication st2 st3 -> replication st1 st3.
Proof.
  intros [(d1 & C1 & F1) E1] [(d2 & C2 & F2) E2]. split; [|congruence].
  exists (d1 ++ d2). rewrite C2, C1, app_assoc. split; [reflexivity|].
  apply Forall_app. auto.
Qed.

Lemma replication_silent st st' : replication st st' -> silent st st'.
Proof.
  intros [(d & C & F) E]. split; [|rewrite E; reflexivity].
  exists d. split; [exact C|]. apply folder_calls_silent, F.
Qed.

(** *** The replication of the folders *)

Lemma request_replication {A} (op : World -> Result A * World)
      (record : Result A -> Call) st :
  (forall answer, folder_call (record answer)) ->
  wp (request op record) (fun _ st' => replication st st') st.
Proof.
  intros H. apply wp_request. intros answer w _.
  assert (G : replication st
                (mkState w (calls st ++ [record answer]) (results st)
                         (folderCache st) (totalProcessed st))).
  { split; [|reflexivity]. eexists. split; [reflexivity|].
    constructor; [apply H|constructor]. }
  destruct answer; exact G.
Qed.

Lemma folderLoop_replication
      (recurse : option string -> string -> string -> M (list FolderRecord))
      (Hrec : forall sourceId destParentId folderPath st,
          wp (recurse sourceId destParentId folderPath)
             (fun _ st' => replication st st') st)
      (destParentId folderPath : string) (existingFolderMap : Map string)
      (subfolders : list DriveFile) :
  forall (folders : list FolderRecord) st,
    wp (folderLoop store props recurse destParentId folderPath
                   existingFolderMap subfolders folders)
       (fun _ st' => replication st st') st.
Proof.
  induction subfolders as [|folder rest IH]; intros folders st.
  - apply wp_ret, replication_refl.
  - cbn [folderLoop]. apply wp_bind, wp_attempt.
    assert (H1 : wp (match get (file_name folder) existingFolderMap with
                     | Some existingId => ret existingId
                     | None => create_folder store (file_name folder)
                                             destParentId
                     end)
                    (fun _ st' => replication st st') st).
    { destruct (get (file_name folder) existingFolderMap).
      - apply wp_ret, replication_refl.
      - apply request_replication. intros answer. exact I. }
    eapply wp_weaken; [exact H1|]. intros o st1 Hs1.
    destruct o as [destFolderId|e|]; [|apply wp_ret; exact Hs1|exact Hs1].
    apply wp_bind. unfold wp at 1. simpl.
    set (st2 := mkState (world st1) (calls st1) (results st1)
                        (set (file_id folder) destFolderId (folderCache st1))
                        (totalProcessed st1)).
    assert (Hs2 : replication st st2) by exact Hs1.
    destruct (includeSubfolders props).
    + apply wp_bind, wp_attempt. eapply wp_weaken; [apply Hrec|].
      intros o st3 Hs3.
      assert (Hs : replication st st3)
        by (eapply replication_trans; eassumption).
      destruct o as [sub|e|]; [|apply wp_ret; exact Hs|exact Hs].
      eapply wp_weaken; [apply IH|]. intros o st4 Hs4.
      eapply replication_trans; eassumption.
    + eapply wp_weaken; [apply IH|]. intros o st4 Hs4.
      eapply replication_trans; eassumption.
Qed.

Lemma createFolderStructureOptimized_replication (fuel : nat) :
  forall (sourceId : option string) (destParentId folderPath : string) st,
    wp (createFolderStructureOptimized store props fuel sourceId destParentId
                                       folderPath)
       (fun _ st' => replication st st') st.
Proof.
  induction fuel as [|fuel IH]; intros sourceId destParentId folderPath st;
    destruct sourceId as [sourceId|]; simpl;
    try (apply wp_ret, replication_refl);
    destruct (String.eqb sourceId ""); try (apply wp_ret, replication_refl).
  - apply replication_refl.
  - apply wp_bind, wp_attempt, wp_bind.
    eapply wp_weaken.
    { apply (request_replication _ _ st). intros answer. simpl.
      split; [reflexivity|]. left. eauto. }
    intros o st1 Hs1.
    destruct o as [subfolders|e|]; [|apply wp_ret; exact Hs1|exact Hs1].
    apply wp_bind. eapply wp_weaken.
    { apply (request_replication _ _ st1). intros answer. simpl.
      split; [reflexivity|]. right. eauto. }
    intros o st2 Hs2.
    assert (Hs : replication st st2)
      by (eapply replication_trans; eassumption).
    destruct o as [existingFolders|e|]; [|apply wp_ret; exact Hs|exact Hs].
    apply wp_ret. eapply wp_weaken; [apply (folderLoop_replication _ IH)|].
    intros o st3 Hs3. eapply replication_trans; eassumption.
Qed.

(** *** The copies *)

Lemma copyTasks_quiet (destFolderId : string) (existingFileMap : Map string)
      (files : list DriveFile) :
  forall st,
    wp (copyTasks store props destFolderId existingFileMap files)
       (fun o st' =>
          silent st st'
          /\ exists rs, o = returned rs /\ Forall is_fulfilled rs
                        /\ List.length rs = List.length files)
       st.
Proof.
  induction files as [|file rest IH]; intros st; cbn [copyTasks].
  - apply wp_ret. split; [apply silent_refl|]. exists []. auto.
  - apply wp_bind. eapply wp_weaken; [apply copyTask_spec|].
    intros o st1 (value & d1 & -> & Hs1 & _).
    apply wp_bind. eapply wp_weaken; [apply IH|].
    intros o st2 (Hs2 & rs & -> & Hf & Hlen). apply wp_ret. split.
    + eapply silent_trans; [eapply task_step_silent; exact Hs1|exact Hs2].
    + exists (fulfilled value :: rs). split; [reflexivity|].
      split; [constructor; [exact I|exact Hf]|]. simpl. rewrite Hlen.
      reflexivity.
Qed.

Lemma processBatch_quiet (fuel : nat) (destFolderId : string)
      (existingFileMap : Map string) (batch : list DriveFile)
      (batchIndex : nat) st :
  wp (processBatch store props fuel destFolderId existingFileMap batch
                   batchIndex)
     (fun o st' => silent st st' /\ (forall e, o <> threw e))
     st.
Proof.
  unfold processBatch, copyFileBatch. apply wp_bind, wp_bind.
  eapply wp_weaken; [apply copyTasks_quiet|].
  intros o st1 (Hs1 & rs & -> & Hf & Hlen).
  eapply wp_weaken;
    [apply (limitConcurrency_from_spec rs (maxConcurrency props) fuel 0 []);
     reflexivity|].
  intros o st2 (-> & Hnt & Hrs).
  destruct o as [rs'|e|].
  - rewrite (Hrs _ eq_refl). apply wp_bind.
    eapply wp_weaken; [apply (processResults_spec _ Hf)|].
    intros o st3 ((values & ->) & _ & Hc3 & _ & Hr3).
    apply wp_bind. unfold wp at 1. simpl. apply wp_ret.
    split; [|discriminate].
    eapply silent_trans; [exact Hs1|].
    apply silent_same; simpl; [exact Hc3|]. rewrite Hr3. reflexivity.
  - elim (Hnt e). reflexivity.
  - split; [exact Hs1|discriminate].
Qed.

Lemma processBatch_ends (fuel : nat) (destFolderId : string)
      (existingFileMap : Map string) (batch : list DriveFile)
      (batchIndex : nat) st :
  (1 <= maxConcurrency props)%nat -> (List.length batch <= fuel)%nat ->
  wp (processBatch store props fuel destFolderId existingFileMap batch
                   batchIndex)
     (fun o _ => exists values, o = returned values) st.
Proof.
  intros Hm Hfuel. unfold processBatch, copyFileBatch. apply wp_bind, wp_bind.
  eapply wp_weaken; [apply copyTasks_quiet|].
  intros o st1 (_ & rs & -> & Hf & Hlen).
  unfold wp at 1, limitConcurrency.
  rewrite (BatchFacts.limitConcurrency_from_ends rs (maxConcurrency props)
             st1 Hm fuel 0 []) by (lia || reflexivity).
  cbn [fst snd]. apply wp_bind.
  eapply wp_weaken; [apply (processResults_spec _ Hf)|].
  intros o st3 ((values & ->) & _). apply wp_bind. unfold wp at 1. simpl.
  apply wp_ret. eauto.
Qed.

Lemma wp_conj {A} (m : M A) (Q1 Q2 : Outcome A -> State -> Prop)
      (st : State (World := World)) :
  wp m Q1 st -> wp m Q2 st -> wp m (fun o st' => Q1 o st' /\ Q2 o st') st.
Proof. unfold wp. auto. Qed.

Lemma length_slice {A} (i n : nat) (l : list A) :
  (List.length (slice i (i + n) l) <= List.length l)%nat.
Proof. rewrite slice_from, length_firstn, length_skipn. lia. Qed.

Lemma processInBatches_from_quiet (fuel0 : nat) (destFolderId : string)
      (existingFileMap : Map string) (items : list DriveFile)
      (batchSize : nat) (fuel : nat) :
  forall (i : nat) (out : list TaskValue) st,
    wp (processInBatches_from store fuel items batchSize
          (processBatch store props fuel0 destFolderId existingFileMap) i out)
       (fun o st' =>
          silent st st' /\ (forall e, o <> threw e)
          /\ ((1 <= maxConcurrency props)%nat -> (1 <= batchSize)%nat ->
              (List.length items <= fuel0)%nat ->
              (List.length items - i <= fuel)%nat -> o <> diverged))
       st.
Proof.
  induction fuel as [|fuel IH]; intros i out st;
    cbn [processInBatches_from];
    destruct (i <? List.length items)%nat eqn:E;
    try (apply wp_ret; split; [apply silent_refl|];
         split; [discriminate|]; intros; discriminate).
  - split; [apply silent_refl|]. split; [discriminate|].
    apply Nat.ltb_lt in E. intros. lia.
  - apply Nat.ltb_lt in E. apply wp_bind.
    destruct (Nat.le_gt_cases 1 (maxConcurrency props)) as [Hm|Hm];
      [destruct (Nat.le_gt_cases (List.length items) fuel0) as [Hf0|Hf0]|].
    2,3: eapply wp_weaken; [apply processBatch_quiet|];
         intros o st1 (Hs1 & Hnt1);
         (destruct o as [batchResults|e|];
          [|elim (Hnt1 e); reflexivity
           |split; [exact Hs1|]; split; [discriminate|]; intros; lia]).
    1: eapply wp_weaken;
         [apply wp_conj;
          [apply processBatch_quiet
          |apply (processBatch_ends fuel0 destFolderId existingFileMap
                    (slice i (i + batchSize) items) i st Hm);
           pose proof (length_slice i batchSize items); lia]|];
       intros o st1 ((Hs1 & Hnt1) & (batchResults & ->)).
    all: apply wp_bind;
      assert (Hk : forall st1' : State (World := World),
                 calls st1' = calls st1 -> results st1' = results st1 ->
                 wp (processInBatches_from store fuel items batchSize
                       (processBatch store props fuel0 destFolderId
                                     existingFileMap)
                       (i + batchSize) (out ++ batchResults))
                    (fun o st' =>
                       silent st st' /\ (forall e, o <> threw e)
                       /\ ((1 <= maxConcurrency props)%nat ->
                           (1 <= batchSize)%nat ->
                           (List.length items <= fuel0)%nat ->
                           (List.length items - i <= S fuel)%nat ->
                           o <> diverged))
                    st1')
        by (intros st1' Hc Hr; eapply wp_weaken; [apply IH|];
            intros o st2 (Hs2 & Hnt2 & Hd2);
            split;
            [eapply silent_trans; [exact Hs1|];
             eapply silent_trans; [|exact Hs2];
             apply silent_same; [exact Hc|rewrite Hr; reflexivity]|];
            split; [exact Hnt2|]; intros; apply Hd2; try assumption; lia);
      (destruct (i + batchSize <? List.length items)%nat;
       [apply wp_delay|apply wp_ret]; apply Hk; reflexivity).
Qed.

Lemma getExistingFiles_quiet (destFolderId : string) (fileNames : list string)
      st :
  wp (getExistingFiles store destFolderId fileNames)
     (fun o st' => silent st st' /\ exists m, o = returned m) st.
Proof.
  unfold getExistingFiles. destruct (List.length fileNames =? 0)%nat.
  - apply wp_ret. split; [apply silent_refl|eauto].
  - apply wp_try_catch, wp_bind, wp_request. intros answer w _.
    assert (Hs : silent st
                   (mkState w
                      (calls st
                       ++ [called_listFilesInPage None
                             (existingFiles_opts destFolderId fileNames)
                             answer])
                      (results st) (folderCache st) (totalProcessed st))).
    { split; [|reflexivity]. eexists. split; [reflexivity|].
      destruct answer; reflexivity. }
    destruct answer as [resp|e]; apply wp_ret; split; eauto.
Qed.

(** One page of candidates: the only error that leaves it is the one of
    its listing. *)
Lemma copyFilesPage_quiet (fuel : nat) (sourceId : option string)
      (destFolderId : string) (pageToken : option string) st :
  wp (copyFilesPage store props fuel sourceId destFolderId pageToken)
     (fun o st' =>
        match o with
        | threw e =>
            calls st'
            = calls st
              ++ [called_listFilesInPage pageToken
                    (candidates_opts props sourceId) (thrown e)]
            /\ results st' = results st
        | _ => silent st st'
        end
        /\ ((1 <= batchSize props)%nat -> (1 <= maxConcurrency props)%nat ->
            (forall resp w,
                listFilesInPage store pageToken
                                (candidates_opts props sourceId) (world st)
                = (ok resp, w) ->
                (List.length (filesToProcess props resp) <= fuel)%nat) ->
            o <> diverged))
     st.
Proof.
  unfold copyFilesPage. apply wp_bind, wp_request. intros answer w Hw.
  set (st1 := mkState w
                (calls st
                 ++ [called_listFilesInPage pageToken
                       (candidates_opts props sourceId) answer])
                (results st) (folderCache st) (totalProcessed st)).
  destruct answer as [filesPage|e].
  - assert (Hs1 : silent st st1).
    { split; [|reflexivity]. eexists. split; reflexivity. }
    apply wp_bind.
    destruct (0 <? List.length (filesToProcess props filesPage))%nat.
    + apply wp_bind. eapply wp_weaken; [apply getExistingFiles_quiet|].
      intros o st2 (Hs2 & existingFileMap & ->).
      apply wp_bind. unfold processInBatches.
      eapply wp_weaken; [apply processInBatches_from_quiet|].
      intros o st3 (Hs3 & Hnt & Hd).
      assert (Hs : silent st st3).
      { eapply silent_trans; [exact Hs1|].
        eapply silent_trans; eassumption. }
      destruct o as [values|e|]; [|elim (Hnt e); reflexivity|].
      * do 2 apply wp_ret. split; [exact Hs|discriminate].
      * split; [exact Hs|]. intros Hb Hm Hfuel.
        specialize (Hfuel _ _ Hw). intros _.
        apply Hd; try assumption; try lia. reflexivity.
    + do 2 apply wp_ret. split; [exact Hs1|discriminate].
  - split; [split; reflexivity|discriminate].
Qed.

Local Abbreviation keeps_errors := (MoreNotions.keeps_errors (World := World)).

Lemma keeps_ret {A} (a : A) : keeps_errors (ret a).
Proof. intros st H. exact H. Qed.

Lemma keeps_bind {A B} (m : M A) (k : A -> M B) :
  keeps_errors m -> (forall a, keeps_errors (k a)) -> keeps_errors (bind m k).
Proof.
  intros Hm Hk st H. specialize (Hm st H). unfold bind.
  destruct (m st) as [[a|e|] st1]; simpl in *; [apply Hk, Hm|exact Hm|exact Hm].
Qed.

Lemma keeps_try_catch {A} (m : M A) (handler : string -> M A) :
  keeps_errors m -> (forall e, keeps_errors (handler e)) ->
  keeps_errors (try_catch m handler).
Proof.
  intros Hm Hh st H. specialize (Hm st H). unfold try_catch.
  destruct (m st) as [[a|e|] st1]; simpl in *; [exact Hm|apply Hh, Hm|exact Hm].
Qed.

Lemma keeps_silent {A} (m : M A) :
  (forall st, wp m (fun _ st' => silent st st') st) -> keeps_errors m.
Proof. intros Hm st H. eapply silent_inv; [apply Hm|exact H]. Qed.

Lemma keeps_now : keeps_errors (now store).
Proof.
  apply keeps_silent. intros st. apply wp_now. intros t w _.
  apply silent_same; reflexivity.
Qed.

Lemma keeps_delay (ms : Z) : keeps_errors (delay store ms).
Proof.
  apply keeps_silent. intros st. apply wp_delay.
  apply silent_same; reflexivity.
Qed.

Lemma keeps_checkTimeout startTime :
  keeps_errors (checkTimeout store startTime).
Proof.
  unfold checkTimeout. apply keeps_bind; [apply keeps_now|]. intros t.
  destruct (t - startTime >? timeoutMs)%Z; [|apply keeps_ret].
  intros st H. exact H.
Qed.

Lemma keeps_copyFilesOptimized_from (sourceId : option string)
      (destFolderId : string) (fuel : nat) :
  forall pageToken,
    keeps_errors (copyFilesOptimized_from store props fuel sourceId
                                          destFolderId pageToken).
Proof.
  induction fuel as [|fuel IH]; intros pageToken;
    cbn [copyFilesOptimized_from].
  - intros st H. exact H.
  - apply keeps_bind.
    + intros st H.
      pose proof (copyFilesPage_quiet fuel sourceId destFolderId pageToken st)
        as Hp.
      unfold wp in Hp. unfold try_catch, bind at 1.
      destruct (copyFilesPage store props fuel sourceId destFolderId
                              pageToken st) as [[next|e|] st1];
        cbn [fst snd] in *; destruct Hp as [Hp _].
      * eapply silent_inv; eassumption.
      * destruct Hp as [Hc Hr].
        unfold errors_inv, MoreNotions.errors_inv in *. simpl.
        rewrite Hc, Hr, failed_listings_app, map_app, H. simpl.
        rewrite lists_candidates_opts. reflexivity.
      * eapply silent_inv; eassumption.
    + intros [next|]; [|apply keeps_ret].
      destruct (truthy next); [apply IH|apply keeps_ret].
Qed.

Lemma keeps_copyFilesOptimized (fuel : nat) (sourceId : option string)
      (destFolderId : string) :
  keeps_errors (copyFilesOptimized store props fuel sourceId destFolderId).
Proof.
  unfold copyFilesOptimized. apply keeps_bind; [intros st H; exact H|].
  intros _. apply keeps_bind; [apply keeps_copyFilesOptimized_from|].
  intros _ st H. exact H.
Qed.

Lemma keeps_copySubfolders (fuel : nat) (startTime : Z)
      (folders : list FolderRecord) :
  keeps_errors (copySubfolders store props fuel startTime folders).
Proof.
  induction folders as [|folder rest IH]; cbn [copySubfolders].
  - apply keeps_ret.
  - apply keeps_bind; [apply keeps_checkTimeout|]. intros _.
    apply keeps_bind; [apply keeps_copyFilesOptimized|]. intros _.
    apply keeps_bind; [apply keeps_delay|]. intros _. exact IH.
Qed.

Lemma keeps_copyAll (fuel : nat) (startTime : Z) :
  keeps_errors (copyAll store props fuel startTime).
Proof.
  unfold copyAll.
  destruct (preserveStructure props && truthy (sourceFolderId props)).
  - apply keeps_bind; [apply keeps_checkTimeout|]. intros _.
    apply keeps_bind.
    { apply keeps_silent. intros st. eapply wp_weaken;
        [apply createFolderStructureOptimized_replication|].
      intros o st'. apply replication_silent. }
    intros folders. apply keeps_bind; [intros st H; exact H|]. intros _.
    apply keeps_bind; [apply keeps_checkTimeout|]. intros _.
    apply keeps_bind; [apply keeps_copyFilesOptimized|]. intros _.
    apply keeps_bind; [apply keeps_checkTimeout|]. intros _.
    apply keeps_copySubfolders.
  - apply keeps_bind; [apply keeps_checkTimeout|]. intros _.
    apply keeps_bind; [apply keeps_copyFilesOptimized|]. intros _.
    apply keeps_ret.
Qed.

Lemma keeps_finish (build : Z -> ExecutionResult -> Z -> RunResult)
      (startTime : Z) :
  keeps_errors
    (bind (duration_since store startTime)
          (fun duration =>
             bind get_results
                  (fun r =>
                     bind (now store)
                          (fun timestamp =>
                             ret (build duration r timestamp))))).
Proof.
  apply keeps_bind.
  { unfold duration_since. apply keeps_bind; [apply keeps_now|].
    intros t. apply keeps_ret. }
  intros duration. apply keeps_bind; [intros st H; exact H|]. intros r.
  apply keeps_bind; [apply keeps_now|]. intros t. apply keeps_ret.
Qed.

Lemma keeps_run_from (fuel : nat) : keeps_errors (run_from store props fuel).
Proof.
  unfold run_from. apply keeps_bind; [apply keeps_now|]. intros startTime.
  apply keeps_try_catch.
  - apply keeps_bind; [apply keeps_copyAll|]. intros _.
    apply (keeps_finish
             (fun duration r timestamp =>
                run_success (summary_text r duration) duration
                  (statistics (foldersCreated r) (filesCopied r)
                     (List.length (errors r))
                     (batchSize props) (maxConcurrency props))
                  (details (slice 0 100 (copiedFiles r)) (createdFolders r)
                           (slice 0 50 (errors r)))
                  timestamp)).
  - intros message.
    apply (keeps_finish
             (fun duration r timestamp =>
                run_failure message
                  (partialResults (foldersCreated r) (filesCopied r)
                                  (List.length (errors r)))
                  duration timestamp)).
Qed.

End WithStore.

(** X16.  The replication of the folders never throws, whatever the
    store answers, and it leaves [results] alone.  All it asks of the
    store is the first page of the folders of a source folder or of a
    destination folder, and the creation of folders: no file is copied or
    deleted by it.  For a source id that is missing or empty it asks
    nothing and returns no folder. *)
Theorem createFolderStructureOptimized_requests
        {World : Type} (store : RemoteStore World) (props : Props)
        (fuel : nat) (sourceId : option string)
        (destParentId folderPath : string) (st : State (World := World)) :
  let out := createFolderStructureOptimized store props fuel sourceId
                                            destParentId folderPath st in
  (forall e, fst out <> threw e)
  /\ results (snd out) = results st
  /\ (exists delta,
         calls (snd out) = calls st ++ delta /\ Forall folder_call delta)
  /\ (truthy sourceId = false -> out = (returned [], st)).
Proof.
  cbv zeta.
  pose proof (createFolderStructureOptimized_spec store props fuel sourceId
                destParentId folderPath st) as (_ & Hnt & _).
  pose proof (createFolderStructureOptimized_replication store props fuel
                sourceId destParentId folderPath st) as (Hc & Hr).
  split; [exact Hnt|]. split; [exact Hr|]. split; [exact Hc|].
  intros Hs. destruct sourceId as [id|]; [|destruct fuel; reflexivity].
  simpl in Hs. apply negb_false_iff in Hs.
  destruct fuel; simpl; rewrite Hs; reflexivity.
Qed.

(** X17.  At every point where a run stops, the errors recorded in
    [results] are the failures of the listings of candidate files, and
    nothing else: one [batch_processing_error] for each such listing that
    the store refused, with the message of the store, in the order of the
    requests.  A listing of folders or an existence query that fails, and
    a copy or a deletion that fails, leave no record there. *)
Theorem run_errors_are_failed_listings
        {World : Type} (store : RemoteStore World) (props : Props)
        (fuel : nat) (w : World) :
  let st' := snd (run store props fuel w) in
  errors (results st')
  = map batch_processing_error (failed_listings (calls st')).
Proof.
  apply (keeps_run_from store props fuel (mkState w [] empty_results [] 0)).
  reflexivity.
Qed.

(** X18.  One page of candidates is dealt with in finite time: with a
    batch size and a concurrency of at least one, and a fuel that is at
    least the number of files of the page to process, [copyFilesPage]
    ends, with the token of the next page or with the error of its
    listing, which is then the only request it made. *)
Theorem copyFilesPage_ends
        {World : Type} (store : RemoteStore World) (props : Props)
        (fuel : nat) (sourceId : option string) (destFolderId : string)
        (pageToken : option string) (st : State (World := World)) :
  (1 <= batchSize props)%nat -> (1 <= maxConcurrency props)%nat ->
  (forall resp w,
      listFilesInPage store pageToken (candidates_opts props sourceId)
                      (world st)
      = (ok resp, w) ->
      (List.length (filesToProcess props resp) <= fuel)%nat) ->
  let out := copyFilesPage store props fuel sourceId destFolderId pageToken
                           st in
  match fst out with
  | returned _ => True
  | threw e =>
      calls (snd out)
      = calls st
        ++ [called_listFilesInPage pageToken (candidates_opts props sourceId)
                                   (thrown e)]
  | diverged => False
  end.
Proof.
  intros Hb Hm Hfuel. cbv zeta.
  pose proof (copyFilesPage_quiet store props fuel sourceId destFolderId
                                  pageToken st) as [H1 H2].
  destruct (fst (copyFilesPage store props fuel sourceId destFolderId
                               pageToken st)) as [next|e|].
  - exact I.
  - apply H1.
  - apply (H2 Hb Hm Hfuel). reflexivity.
Qed.

Lemma copyFilesPage_ends_witness :
  let st := mkState refusing_drive [] empty_results [] 0 in
  let out := copyFilesPage DriveModel.drive refusing_props 2 (Some "S") "D"
                           None st in
  match fst out with
  | returned _ => True
  | threw e =>
      calls (snd out)
      = calls st
        ++ [called_listFilesInPage None
              (candidates_opts refusing_props (Some "S")) (thrown e)]
  | diverged => False
  end.
Proof.
  apply (copyFilesPage_ends DriveModel.drive refusing_props 2 (Some "S") "D"
           None (mkState refusing_drive [] empty_results [] 0)).
  - simpl. lia.
  - simpl. lia.
  - intros resp w H. injection H as <- _. simpl. lia.
Defined.

Section Flat.
Context {World : Type}.
Variable store : RemoteStore World.
Variable props : Props.


End Flat.



(** X20.  [run] never throws, and what it returns is tied to what was
    done.  A result with [success: false] carries the message of the
    timeout, no other error ends a run.  In a result with [success: true]
    the number of files copied is the number of copies the store made and
    the number of records kept for them, the number of folders is that of
    the records of folders, the number of errors is that of the errors
    recorded; the details hold the first hundred records of copies, the
    records of the folders and the first fifty errors. *)
Theorem run_result_shape
        {World : Type} (store : RemoteStore World) (props : Props)
        (fuel : nat) (w : World) :
  let out := run store props fuel w in
  let r := results (snd out) in
  match fst out with
  | threw _ => False
  | diverged => True
  | returned (run_failure e _ _ _) => e = timeoutMessage
  | returned (run_success _ _ (statistics fc cp ec bs mc) (details cf crf errs)
                          _) =>
      cp = copies (calls (snd out))
      /\ cp = List.length (copiedFiles r)
      /\ fc = List.length (createdFolders r) /\ crf = createdFolders r
      /\ ec = List.length (errors r)
      /\ cf = firstn 100 (copiedFiles r) /\ errs = firstn 50 (errors r)
      /\ bs = batchSize props /\ mc = maxConcurrency props
  end.
Proof.
  cbv zeta. unfold run.
  apply (wp_run_from store props fuel
           (fun o st' =>
              match o with
              | threw _ => False
              | diverged => True
              | returned (run_failure e _ _ _) => e = timeoutMessage
              | returned (run_success _ _ (statistics fc cp ec bs mc)
                                      (details cf crf errs) _) =>
                  cp = copies (calls st')
                  /\ cp = List.length (copiedFiles (results st'))
                  /\ fc = List.length (createdFolders (results st'))
                  /\ crf = createdFolders (results st')
                  /\ ec = List.length (errors (results st'))
                  /\ cf = firstn 100 (copiedFiles (results st'))
                  /\ errs = firstn 50 (errors (results st'))
                  /\ bs = batchSize props /\ mc = maxConcurrency props
              end)).
  cbn [world calls results folderCache totalProcessed].
  intros startTime w1 _.
  eapply wp_weaken; [apply (phase_copyAll store props)|].
  intros o st1 (Ht & Hi). destruct o as [[]|e|]; [| |exact I].
  - intros st2 d t Hc Hr.
    destruct (Hi ltac:(discriminate) (count_inv_initial w1))
      as (I1 & I2 & I3 & _).
    rewrite Hc, Hr. unfold slice. cbn [Nat.sub skipn].
    repeat split; auto.
  - intros st2 d t Hc Hr. apply (Ht e eq_refl).
Qed.

End TraceFacts.

(** ** The configuration of a synchronisation *)

Module ConfigureFacts.
Import Js GoogleDrive ConfigureFolderSync MoreNotions.

Section WithStore.
Context {World : Type}.
Variable store : Store World.
Variable props : Props.

Lemma getSourceFile_call (fileId : string) (st : State (World := World)) :
  exists answer,
    fst (getSourceFile store fileId st) = answer
    /\ calls (snd (getSourceFile store fileId st))
       = calls st ++ [called_getFile fileId answer].
Proof.
  unfold getSourceFile.
  destruct (getFile store fileId _ (world st)) as [answer w].
  exists answer. auto.
Qed.

Lemma individualLoop_answered (ids : list string) :
  forall (folders : list Folder) (st : State (World := World)),
  exists delta,
    calls (snd (individualLoop store ids folders st)) = calls st ++ delta
    /\ asked_files delta = map Some ids
    /\ fst (individualLoop store ids folders st)
       = folders ++ answered false "manual_selection" delta.
Proof.
  induction ids as [|folderId rest IH]; intros folders st.
  - exists []. simpl. rewrite !app_nil_r. auto.
  - cbn [individualLoop].
    destruct (getSourceFile_call folderId st) as (answer & Ha & Hc).
    destruct (getSourceFile store folderId st) as [a st1].
    cbn [fst snd] in *. subst a.
    destruct answer as [file|e].
    + destruct (IH (folders ++ [folderOf (id file) (name file)
                                         "manual_selection" (parents file)])
                   st1) as (delta & H1 & H2 & H3).
      exists (called_getFile folderId (ok file) :: delta).
      rewrite H1, Hc, <- app_assoc, H3, <- app_assoc. simpl. rewrite H2. auto.
    + destruct (IH folders st1) as (delta & H1 & H2 & H3).
      exists (called_getFile folderId (thrown e) :: delta).
      rewrite H1, Hc, <- app_assoc, H3. simpl. rewrite H2. auto.
Qed.

Lemma folderIdsLoop_answered (ids : list string) :
  forall (folders : list Folder) (st : State (World := World)),
  exists delta,
    calls (snd (folderIdsLoop store ids folders st)) = calls st ++ delta
    /\ asked_files delta = map Some ids
    /\ fst (folderIdsLoop store ids folders st)
       = folders ++ answered true "folder_id" delta.
Proof.
  induction ids as [|folderId rest IH]; intros folders st.
  - exists []. simpl. rewrite !app_nil_r. auto.
  - cbn [folderIdsLoop].
    destruct (getSourceFile_call folderId st) as (answer & Ha & Hc).
    destruct (getSourceFile store folderId st) as [a st1].
    cbn [fst snd] in *. subst a.
    destruct answer as [file|e].
    + fold (is_folder file). destruct (is_folder file) eqn:Ef.
      * destruct (IH (folders ++ [folderOf (id file) (name file)
                                           "folder_id" (parents file)])
                     st1) as (delta & H1 & H2 & H3).
        exists (called_getFile folderId (ok file) :: delta).
        rewrite H1, Hc, <- app_assoc, H3, <- app_assoc. simpl.
        rewrite H2, Ef. auto.
      * destruct (IH folders st1) as (delta & H1 & H2 & H3).
        exists (called_getFile folderId (ok file) :: delta).
        rewrite H1, Hc, <- app_assoc, H3. simpl. rewrite H2, Ef. auto.
    + destruct (IH folders st1) as (delta & H1 & H2 & H3).
      exists (called_getFile folderId (thrown e) :: delta).
      rewrite H1, Hc, <- app_assoc, H3. simpl. rewrite H2. auto.
Qed.

(** What [run] makes of the folders selected. *)
Lemma run_of_selection (st : State (World := World)) :
  match selectFolders store props st with
  | (thrown message, st') => run store props st = (thrown message, st')
  | (ok [], st') => run store props st = (thrown noFoldersMessage, st')
  | (ok found, st') =>
      exists out,
        fst (run store props st) = ok out
        /\ calls (snd (run store props st)) = calls st'
        /\ folders (syncConfiguration out) = found
  end.
Proof.
  unfold run. destruct (selectFolders store props st) as [[fs|e] st'];
    [|reflexivity].
  destruct fs as [|f fs]; [reflexivity|]. cbn [List.length Nat.eqb].
  destruct (Date_toISOString store (world st')) as [t w].
  eexists. split; [reflexivity|]. split; reflexivity.
Qed.

End WithStore.

(** X21.  The configuration that [run] returns has at least one folder;
    its [folderCount] is the number of its folders and its [folderList]
    has their ids and names, in order; the destination drive is the
    source drive.  When no folder is found [run] throws the error [No
    valid folders found ...]; it throws no other error, except with the
    method [entire_drive], where the failure of the listing is not
    caught. *)
Theorem run_configures_or_rejects
        {World : Type} (store : Store World) (props : Props)
        (st : State (World := World)) :
  match fst (run store props st) with
  | ok out =>
      let config := syncConfiguration out in
      folderCount out = List.length (folders config)
      /\ (1 <= folderCount out)%nat
      /\ folderList out
         = map (fun f => match f with folderOf id name _ _ => (id, name) end)
               (folders config)
      /\ ready out = true
      /\ match source config, destination config with
         | sourceOf drive driveId, destinationOf drive' driveId' _ =>
             drive' = drive /\ driveId' = driveId
             /\ drive = source_drive props
         end
  | thrown message =>
      message = noFoldersMessage
      \/ folder_selection_method props = "entire_drive"
  end.
Proof.
  unfold run.
  destruct (selectFolders store props st) as [[fs|e] st'] eqn:E.
  - destruct fs as [|f fs]; [left; reflexivity|]. cbn [List.length Nat.eqb].
    destruct (Date_toISOString store (world st')) as [t w]. simpl.
    repeat split. lia.
  - simpl. unfold selectFolders in E.
    destruct (String.eqb (folder_selection_method props) "entire_drive") eqn:Em.
    + right. apply String.eqb_eq, Em.
    + repeat match type of E with
             | (if ?c then _ else _) = _ => destruct c
             | (let (_, _) := ?x in _) = _ => destruct x
             end; discriminate.
Qed.

(** X22.  With the method [folder_ids], [run] asks the store for each id
    of [source_folder_ids] once, in order, and for nothing else.  The
    folders it configures are the items answered that have the type of
    the folders, in that order: an id the store does not answer for, and
    the id of an item that is not a folder, are passed over.  When
    none is left, [run] throws [No valid folders found ...]. *)
Theorem run_folder_ids_keeps_folders
        {World : Type} (store : Store World) (props : Props)
        (ids : list string) (st : State (World := World)) :
  folder_selection_method props = "folder_ids" ->
  source_folder_ids props = Some ids ->
  let out := run store props st in
  exists delta,
    calls (snd out) = calls st ++ delta
    /\ asked_files delta = map Some ids
    /\ match fst out with
       | ok o =>
           folders (syncConfiguration o) = answered true "folder_id" delta
       | thrown message =>
           message = noFoldersMessage /\ answered true "folder_id" delta = []
       end.
Proof.
  intros Hm Hids. cbv zeta.
  pose proof (run_of_selection store props st) as Hrun.
  unfold selectFolders in Hrun. rewrite Hm, Hids in Hrun.
  cbn [String.eqb Ascii.eqb Bool.eqb andb selected] in Hrun.
  destruct ids as [|i ids].
  - cbn [nonempty] in Hrun. rewrite Hrun. exists []. simpl.
    rewrite app_nil_r. auto.
  - cbn [nonempty] in Hrun.
    destruct (folderIdsLoop_answered store (i :: ids) [] st)
      as (delta & H1 & H2 & H3).
    destruct (folderIdsLoop store (i :: ids) [] st) as [fs st'].
    cbn [fst snd app] in *. subst fs. exists delta.
    destruct (answered true "folder_id" delta) as [|f fs] eqn:Ea.
    + rewrite Hrun. simpl. auto.
    + destruct Hrun as (o & Ho & Hc & Hf). rewrite Ho, Hc. auto.
Qed.

Lemma run_folder_ids_keeps_folders_witness :
  let out := run small_store (ids_props "folder_ids" ["d"; "x"; "F"])
                 (mkState tt []) in
  exists delta,
    calls (snd out) = delta
    /\ asked_files delta = [Some "d"; Some "x"; Some "F"]
    /\ match fst out with
       | ok o =>
           folders (syncConfiguration o) = answered true "folder_id" delta
       | thrown message =>
           message = noFoldersMessage /\ answered true "folder_id" delta = []
       end.
Proof.
  exact (run_folder_ids_keeps_folders small_store
           (ids_props "folder_ids" ["d"; "x"; "F"]) ["d"; "x"; "F"]
           (mkState tt []) eq_refl eq_refl).
Defined.

(** X23.  With the method [individual], [run] asks the store for each id
    of [source_folders] once, in order, and configures every item the
    store answers with, whatever its type: the type of the item is not
    looked at, so the id of a document is configured as a folder.  Only
    the ids the store does not answer for are passed over. *)
Theorem run_individual_takes_any_item
        {World : Type} (store : Store World) (props : Props)
        (ids : list string) (st : State (World := World)) :
  folder_selection_method props = "individual" ->
  source_folders props = Some ids ->
  let out := run store props st in
  exists delta,
    calls (snd out) = calls st ++ delta
    /\ asked_files delta = map Some ids
    /\ match fst out with
       | ok o =>
           folders (syncConfiguration o)
           = answered false "manual_selection" delta
       | thrown message =>
           message = noFoldersMessage
           /\ answered false "manual_selection" delta = []
       end.
Proof.
  intros Hm Hids. cbv zeta.
  pose proof (run_of_selection store props st) as Hrun.
  unfold selectFolders in Hrun. rewrite Hm, Hids in Hrun.
  cbn [String.eqb Ascii.eqb Bool.eqb andb selected] in Hrun.
  destruct ids as [|i ids].
  - cbn [nonempty] in Hrun. rewrite Hrun. exists []. simpl.
    rewrite app_nil_r. auto.
  - cbn [nonempty] in Hrun.
    destruct (individualLoop_answered store (i :: ids) [] st)
      as (delta & H1 & H2 & H3).
    destruct (individualLoop store (i :: ids) [] st) as [fs st'].
    cbn [fst snd app] in *. subst fs. exists delta.
    destruct (answered false "manual_selection" delta) as [|f fs] eqn:Ea.
    + rewrite Hrun. simpl. auto.
    + destruct Hrun as (o & Ho & Hc & Hf). rewrite Ho, Hc. auto.
Qed.

Lemma run_individual_takes_any_item_witness :
  let out := run small_store (ids_props "individual" ["d"; "x"; "F"])
                 (mkState tt []) in
  exists delta,
    calls (snd out) = delta
    /\ asked_files delta = [Some "d"; Some "x"; Some "F"]
    /\ match fst out with
       | ok o =>
           folders (syncConfiguration o)
           = answered false "manual_selection" delta
       | thrown message =>
           message = noFoldersMessage
           /\ answered false "manual_selection" delta = []
       end.
Proof.
  exact (run_individual_takes_any_item small_store
           (ids_props "individual" ["d"; "x"; "F"]) ["d"; "x"; "F"]
           (mkState tt []) eq_refl eq_refl).
Defined.

Section Names.
Context {World : Type}.
Variable store : Store World.
Variable props : Props.

Lemma folderNamesLoop_found (names : list string) :
  forall (folders : list Folder) (st : State (World := World)),
  exists delta,
    calls (snd (folderNamesLoop store props names folders st))
    = calls st ++ delta
    /\ searches delta = map (fun n => Some (folders_named n)) names
    /\ fst (folderNamesLoop store props names folders st)
       = folders ++ found_by_name delta.
Proof.
  induction names as [|folderName rest IH]; intros folders st.
  - exists []. simpl. rewrite !app_nil_r. auto.
  - cbn [folderNamesLoop]. unfold findSourceFolders.
    destruct (listFilesInPage store None _ (world st)) as [answer w].
    set (c := called_listFilesInPage
                (mkListOpts (folders_named folderName) (driveIdOf props)
                            "files(id,name,parents)") answer).
    set (st1 := mkState w (calls st ++ [c])).
    assert (G : forall acc fs,
               acc = folders ++ fs -> found_by_name [c] = fs ->
               exists delta,
                 calls (snd (folderNamesLoop store props rest acc st1))
                 = calls st ++ delta
                 /\ searches delta
                    = Some (folders_named folderName)
                      :: map (fun n => Some (folders_named n)) rest
                 /\ fst (folderNamesLoop store props rest acc st1)
                    = folders ++ found_by_name delta).
    { intros acc fs -> Hfs.
      destruct (IH (folders ++ fs) st1) as (delta & H1 & H2 & H3).
      exists (c :: delta). rewrite H1, H3. subst st1. cbn [calls].
      rewrite <- !app_assoc. split; [reflexivity|]. split.
      - simpl. rewrite H2. reflexivity.
      - rewrite <- Hfs. simpl. rewrite app_nil_r. reflexivity. }
    destruct answer as [[files|]|e].
    + eapply G; [reflexivity|]. subst c. simpl. rewrite app_nil_r.
      reflexivity.
    + apply (G _ []); reflexivity.
    + apply (G _ []); [rewrite app_nil_r; reflexivity|reflexivity].
Qed.

End Names.

(** X24.  With the method [folder_names], [run] makes one search for each
    name of [source_folder_names], in order, for the folders of exactly
    that name, and configures all the folders the searches give, in the
    order of the answers.  A search that fails is passed over.  When the
    searches give nothing, [run] throws [No valid folders found ...]. *)
Theorem run_folder_names_searches
        {World : Type} (store : Store World) (props : Props)
        (names : list string) (st : State (World := World)) :
  folder_selection_method props = "folder_names" ->
  source_folder_names props = Some names ->
  let out := run store props st in
  exists delta,
    calls (snd out) = calls st ++ delta
    /\ searches delta = map (fun n => Some (folders_named n)) names
    /\ match fst out with
       | ok o => folders (syncConfiguration o) = found_by_name delta
       | thrown message =>
           message = noFoldersMessage /\ found_by_name delta = []
       end.
Proof.
  intros Hm Hnames. cbv zeta.
  pose proof (run_of_selection store props st) as Hrun.
  unfold selectFolders in Hrun. rewrite Hm, Hnames in Hrun.
  cbn [String.eqb Ascii.eqb Bool.eqb andb selected] in Hrun.
  destruct names as [|n names].
  - cbn [nonempty] in Hrun. rewrite Hrun. exists []. simpl.
    rewrite app_nil_r. auto.
  - cbn [nonempty] in Hrun.
    destruct (folderNamesLoop_found store props (n :: names) [] st)
      as (delta & H1 & H2 & H3).
    destruct (folderNamesLoop store props (n :: names) [] st) as [fs st'].
    cbn [fst snd app] in *. subst fs. exists delta.
    destruct (found_by_name delta) as [|f fs] eqn:Ea.
    + rewrite Hrun. simpl. auto.
    + destruct Hrun as (o & Ho & Hc & Hf). rewrite Ho, Hc. auto.
Qed.

Lemma run_folder_names_searches_witness :
  let out := run small_store (ids_props "folder_names" ["Reports"])
                 (mkState tt []) in
  exists delta,
    calls (snd out) = delta
    /\ searches delta = [Some (folders_named "Reports")]
    /\ match fst out with
       | ok o => folders (syncConfiguration o) = found_by_name delta
       | thrown message =>
           message = noFoldersMessage /\ found_by_name delta = []
       end.
Proof.
  exact (run_folder_names_searches small_store
           (ids_props "folder_names" ["Reports"]) ["Reports"]
           (mkState tt []) eq_refl eq_refl).
Defined.

(** X25.  With the method [entire_drive], [run] makes one request, the
    listing of all the folders of the drive, and configures every folder
    of the answer.  The error of a listing that fails is not caught: [run]
    throws it as it is; an answer without [files] makes [run] throw a
    [TypeError]; an empty answer makes it throw [No valid folders found
    ...]. *)
Theorem run_entire_drive_one_listing
        {World : Type} (store : Store World) (props : Props)
        (st : State (World := World)) :
  folder_selection_method props = "entire_drive" ->
  let out := run store props st in
  exists answer,
    calls (snd out)
    = calls st
      ++ [called_listFilesInPage
            (mkListOpts all_folders (driveIdOf props) "files(id,name,parents)")
            answer]
    /\ match answer with
       | thrown message => fst out = thrown message
       | ok None => fst out = thrown undefinedMapMessage
       | ok (Some []) => fst out = thrown noFoldersMessage
       | ok (Some files) =>
           exists o,
             fst out = ok o
             /\ folders (syncConfiguration o)
                = map (fun file =>
                         folderOf (id file) (name file) "drive_root" None)
                      files
       end.
Proof.
  intros Hm. cbv zeta.
  pose proof (run_of_selection store props st) as Hrun.
  unfold selectFolders in Hrun. rewrite Hm in Hrun.
  cbn [String.eqb Ascii.eqb Bool.eqb] in Hrun.
  unfold listSourceFolders in Hrun.
  destruct (listFilesInPage store None _ (world st)) as [answer w].
  exists answer. destruct answer as [[files|]|e].
  - destruct files as [|f files].
    + cbn [map] in Hrun. rewrite Hrun. auto.
    + cbn [map] in Hrun. destruct Hrun as (o & Ho & Hc & Hf).
      rewrite Hc. split; [reflexivity|]. exists o. auto.
  - rewrite Hrun. auto.
  - rewrite Hrun. auto.
Qed.

Lemma run_entire_drive_one_listing_witness :
  exists o,
    fst (run small_store (ids_props "entire_drive" []) (mkState tt [])) = ok o
    /\ folders (syncConfiguration o)
       = [folderOf "F" "Reports" "drive_root" None].
Proof.
  destruct (run_entire_drive_one_listing small_store
              (ids_props "entire_drive" []) (mkState tt []) eq_refl)
    as (answer & Hc & Ha).
  injection Hc as <-. exact Ha.
Defined.

(** X26.  When the props select nothing (a method the action does not
    know, or a method whose list is missing or empty) [run] asks nothing
    of the store and throws [No valid folders found ...]. *)
Theorem run_nothing_selected
        {World : Type} (store : Store World) (props : Props)
        (st : State (World := World)) :
  nothing_selected props ->
  run store props st = (thrown noFoldersMessage, st).
Proof.
  intros (H0 & H1 & H2 & H3).
  pose proof (run_of_selection store props st) as Hrun.
  unfold selectFolders in Hrun.
  apply String.eqb_neq in H0. rewrite H0 in Hrun.
  destruct (String.eqb (folder_selection_method props) "individual") eqn:E1.
  { apply String.eqb_eq in E1. rewrite (H1 E1) in Hrun.
    rewrite E1 in Hrun. exact Hrun. }
  destruct (String.eqb (folder_selection_method props) "folder_ids") eqn:E2.
  { apply String.eqb_eq in E2. rewrite (H2 E2) in Hrun.
    rewrite E2 in Hrun. exact Hrun. }
  destruct (String.eqb (folder_selection_method props) "folder_names") eqn:E3.
  { apply String.eqb_eq in E3. rewrite (H3 E3) in Hrun. exact Hrun. }
  exact Hrun.
Qed.

Lemma run_nothing_selected_witness :
  run small_store (ids_props "by_path" ["F"]) (mkState tt [])
  = (thrown noFoldersMessage, mkState tt []).
Proof.
  apply (run_nothing_selected small_store (ids_props "by_path" ["F"])
           (mkState tt [])).
  repeat split; discriminate.
Defined.

End ConfigureFacts.
